(** * Verification of the ICMP latency analyzer

    A shallow embedding of [general_latency_analyzer.py]
    (class [GeneralLatencyAnalyzer]) and the properties of its loss
    detector, stage-latency resolver, latency-section parser, session
    matcher and bidirectional analyzer.

    Modelling conventions.
    - A Python [str] is a [string]; a character is a code point below 256.
    - A Python [float] read from a decimal literal is kept as the rational
      number the literal denotes, in lowest terms ([Q] after [Qred]); the
      double that Python holds for it is [Float64.of_Q] of that number.
      Where the code computes with floats (the physical network delay) the
      model computes in binary64, on the [spec_float] of the Standard
      Library.  The [int] 0 used to start a running maximum is the
      rational 0.
    - A [dict] that is iterated is an insertion-ordered association list
      with unique keys ([dict_set]); a [dict] or [set] that is only probed
      is a [gmap] or a [gset].
    - An exception that leaves a function is the result [None]. *)

From Stdlib Require Import Ascii String QArith Qabs Lqa DecimalString.
From Stdlib Require Import Floats.SpecFloat.
From stdpp Require Import gmap strings list.

Local Open Scope string_scope.
Local Open Scope Z_scope.
Local Open Scope list_scope.

(** ** Python values *)

Module Py.

(** [str(x)] inside an f-string for a value that may be [None]. *)
Definition str_opt (o : option string) : string :=
  match o with
  | Some s => s
  | None => "None"
  end.

(** Truthiness of a number: zero is false. *)
Definition truthy (q : Q) : bool := negb (Qeq_bool q 0).

(** Truthiness of an optional number: [None] and zero are false. *)
Definition truthy_opt (o : option Q) : bool :=
  match o with
  | Some q => truthy q
  | None => false
  end.

(** [a > b] and [a >= b] on numbers. *)
Definition gt (a b : Q) : bool := negb (Qle_bool a b).
Definition ge (a b : Q) : bool := Qle_bool b a.

(** [k in l] for a list of strings. *)
Definition in_list (k : string) (l : list string) : bool :=
  existsb (String.eqb k) l.

(** [d[k] = v] on an insertion-ordered dictionary: an existing key keeps
    its position and takes the new value, a new key goes last. *)
Fixpoint dict_set {V : Type} (d : list (string * V)) (k : string) (v : V)
  : list (string * V) :=
  match d with
  | [] => [(k, v)]
  | (k', v') :: d' =>
      if String.eqb k' k then (k', v) :: d'
      else (k', v') :: dict_set d' k v
  end.

(** [d.get(k)] on the same dictionaries. *)
Fixpoint dict_get {V : Type} (d : list (string * V)) (k : string)
  : option V :=
  match d with
  | [] => None
  | (k', v') :: d' => if String.eqb k' k then Some v' else dict_get d' k
  end.

(** [str(n)] inside an f-string for an [int]. *)
Definition str_int (n : Z) : string := NilZero.string_of_int (Z.to_int n).

(** Truthiness of a string that may be [None]: [None] and [""] are false. *)
Definition truthy_str (o : option string) : bool :=
  match o with
  | Some s => negb (String.eqb s "")
  | None => false
  end.

End Py.

(** ** Binary64 numbers

    The doubles of the interpreter, as [spec_float] with a precision of 53
    bits and infinities at exponent 1024; the operations round to nearest,
    ties to even. *)

Module Float64.

Definition prec : Z := 53.
Definition emax : Z := 1024.

(** [float(s)] for a decimal literal [s] that denotes [x]: the double
    nearest to [x], an infinity when [x] is out of range.  The quotient of
    numerator by denominator is rounded once. *)
Definition of_Q (x : Q) : spec_float :=
  match Qnum x with
  | Z0 => S754_zero false
  | Zpos p =>
      SFdiv prec emax (S754_finite false p 0) (S754_finite false (Qden x) 0)
  | Zneg p =>
      SFdiv prec emax (S754_finite true p 0) (S754_finite false (Qden x) 0)
  end.

(** The [int] 2 converted for a division by a float. *)
Definition two : spec_float := S754_finite false 4503599627370496 (-51).

(** [a - b], [abs(a)] and [a / b]. *)
Definition sub (a b : spec_float) : spec_float := SFsub prec emax a b.
Definition abs (a : spec_float) : spec_float := SFabs a.
Definition div (a b : spec_float) : spec_float := SFdiv prec emax a b.

(** Truthiness of a float: only the two zeros are false. *)
Definition is_zero (a : spec_float) : bool :=
  match a with
  | S754_zero _ => true
  | _ => false
  end.

Definition truthy (a : spec_float) : bool := negb (is_zero a).

(** Truthiness of an optional decimal held as a double. *)
Definition truthy_opt (o : option Q) : bool :=
  match o with
  | Some q => truthy (of_Q q)
  | None => false
  end.

(** The sign bit of a number; NaN has none in this representation. *)
Definition negative (a : spec_float) : bool :=
  match a with
  | S754_zero s | S754_infinity s | S754_finite s _ _ => s
  | S754_nan => false
  end.

End Float64.

(** ** Text: characters, [str] methods, and the regular expressions used

    Only the fragment of [re] that the analyzer's patterns use is modelled:
    literals, character classes, greedy and lazy repetition of a class,
    sequence, alternation and numbered groups, matched by backtracking in
    the priority order of Python's engine; [search] returns the leftmost
    match. *)

Module Text.

Definition code (c : ascii) : N := N_of_ascii c.

Definition between (lo hi : N) (c : ascii) : bool :=
  ((lo <=? code c) && (code c <=? hi))%N.

(** [\d] *)
Definition is_digit (c : ascii) : bool := between 48 57 c.

(** [\s], and the characters removed by [str.strip()]. *)
Definition is_space (c : ascii) : bool :=
  between 9 13 c || between 28 32 c
  || (code c =? 133)%N || (code c =? 160)%N.

(** [[\d.]] *)
Definition is_digit_or_dot (c : ascii) : bool :=
  is_digit c || (code c =? 46)%N.

(** [[a-fA-F0-9]] *)
Definition is_hex (c : ascii) : bool :=
  between 97 102 c || between 65 70 c || is_digit c.

(** [[^)]] *)
Definition not_rparen (c : ascii) : bool := negb (code c =? 41)%N.

(** [.] (every character but the line feed). *)
Definition not_newline (c : ascii) : bool := negb (code c =? 10)%N.

(** [strip_prefix p s] is the rest of [s] after the prefix [p]. *)
Fixpoint strip_prefix (p s : string) : option string :=
  match p, s with
  | EmptyString, _ => Some s
  | String a p', String b s' =>
      if Ascii.eqb a b then strip_prefix p' s' else None
  | String _ _, EmptyString => None
  end.

(** [s.startswith(p)] *)
Definition startswith (s p : string) : bool :=
  match strip_prefix p s with Some _ => true | None => false end.

(** [p in s] *)
Fixpoint contains (p s : string) : bool :=
  startswith s p ||
  match s with
  | EmptyString => false
  | String _ s' => contains p s'
  end.

Fixpoint lstrip (s : string) : string :=
  match s with
  | String c s' => if is_space c then lstrip s' else s
  | EmptyString => EmptyString
  end.

Fixpoint rstrip (s : string) : string :=
  match s with
  | EmptyString => EmptyString
  | String c s' =>
      match rstrip s' with
      | EmptyString => if is_space c then EmptyString else String c EmptyString
      | t => String c t
      end
  end.

(** [s.strip()] *)
Definition strip (s : string) : string := rstrip (lstrip s).

(** [s.split(sep)] for a one-character separator. *)
Fixpoint split (sep : ascii) (s : string) : list string :=
  match s with
  | EmptyString => [EmptyString]
  | String c s' =>
      if Ascii.eqb c sep then EmptyString :: split sep s'
      else match split sep s' with
           | h :: t => String c h :: t
           | [] => [String c EmptyString]
           end
  end.

Fixpoint digits_value (acc : Z) (s : string) : option Z :=
  match s with
  | EmptyString => Some acc
  | String c s' =>
      if is_digit c
      then digits_value (10 * acc + (Z.of_N (code c) - 48)) s'
      else None
  end.

(** [int(s)] for a string of decimal digits; [None] is [ValueError]. *)
Definition int (s : string) : option Z :=
  match s with
  | EmptyString => None
  | _ => digits_value 0 s
  end.

(** The part of [s] before the first dot, and the part after it. *)
Fixpoint cut_at_dot (s : string) : string * string :=
  match s with
  | EmptyString => (EmptyString, EmptyString)
  | String c s' =>
      if (code c =? 46)%N then (EmptyString, s')
      else let '(a, b) := cut_at_dot s' in (String c a, b)
  end.

(** [float(s)] for a string of digits and dots, which is all the callers
    pass: digits with at most one dot and at least one digit denote
    their decimal value; anything else is [ValueError] ([None]). *)
Definition float (s : string) : option Q :=
  let '(ip, fp) := cut_at_dot s in
  if (String.length ip + String.length fp =? 0)%nat then None
  else
    match digits_value 0 (ip +:+ fp) with
    | Some n =>
        Some (Qred (n # Z.to_pos (10 ^ Z.of_nat (String.length fp))))
    | None => None
    end.

(** Every character of [s] is in the class [p]. *)
Fixpoint all_chars (p : ascii -> bool) (s : string) : bool :=
  match s with
  | EmptyString => true
  | String c s' => p c && all_chars p s'
  end.

(** [s] does not go on with a character of the class [p]. *)
Definition stops (p : ascii -> bool) (s : string) : Prop :=
  match s with
  | String c _ => p c = false
  | EmptyString => True
  end.

Inductive regex : Type :=
| Lit (s : string)
| Cls (p : ascii -> bool)
| Star (greedy : bool) (p : ascii -> bool)
| Seq (r1 r2 : regex)
| Alt (r1 r2 : regex)
| Grp (i : nat) (r : regex).

(** [p+] and [p+?] *)
Definition Plus (greedy : bool) (p : ascii -> bool) : regex :=
  Seq (Cls p) (Star greedy p).

(** [p{n}] *)
Fixpoint Times (n : nat) (p : ascii -> bool) : regex :=
  match n with
  | O => Lit EmptyString
  | S n' => Seq (Cls p) (Times n' p)
  end.

(** The groups of a match, most recently closed first. *)
Definition captures : Type := list (nat * string).

Fixpoint group (m : captures) (i : nat) : option string :=
  match m with
  | [] => None
  | (j, s) :: m' => if Nat.eqb j i then Some s else group m' i
  end.

(** Greedy [p*]: take one more character first, give it back on failure. *)
Fixpoint star_greedy {R : Type} (p : ascii -> bool) (s : string)
    (k : string -> option R) : option R :=
  match s with
  | String c s' =>
      if p c then
        match star_greedy p s' k with
        | Some r => Some r
        | None => k s
        end
      else k s
  | EmptyString => k s
  end.

(** Lazy [p*?]: try to go on first, take one more character on failure. *)
Fixpoint star_lazy {R : Type} (p : ascii -> bool) (s : string)
    (k : string -> option R) : option R :=
  match k s with
  | Some r => Some r
  | None =>
      match s with
      | String c s' => if p c then star_lazy p s' k else None
      | EmptyString => None
      end
  end.

(** The text [s] lost on the way to its suffix [rest]. *)
Definition consumed (s rest : string) : string :=
  substring 0 (String.length s - String.length rest) s.

(** [run r s m k]: match [r] at the start of [s], then continue with [k]
    on the rest; the first success in priority order is the result. *)
Fixpoint run {R : Type} (r : regex) (s : string) (m : captures)
    (k : string -> captures -> option R) : option R :=
  match r with
  | Lit l =>
      match strip_prefix l s with
      | Some s' => k s' m
      | None => None
      end
  | Cls p =>
      match s with
      | String c s' => if p c then k s' m else None
      | EmptyString => None
      end
  | Star true p => star_greedy p s (fun s' => k s' m)
  | Star false p => star_lazy p s (fun s' => k s' m)
  | Seq r1 r2 => run r1 s m (fun s' m' => run r2 s' m' k)
  | Alt r1 r2 =>
      match run r1 s m k with
      | Some x => Some x
      | None => run r2 s m k
      end
  | Grp i r' => run r' s m (fun s' m' => k s' ((i, consumed s s') :: m'))
  end.

(** [re.search(r, s)]: the groups of the leftmost match, if any. *)
Fixpoint search (r : regex) (s : string) : option captures :=
  match run r s [] (fun _ m => Some m) with
  | Some m => Some m
  | None =>
      match s with
      | String _ s' => search r s'
      | EmptyString => None
      end
  end.

(** The loop of [split_str]: [skip] counts the characters of a separator
    found earlier that are still to be passed over. *)
Fixpoint split_str_from (sep : string) (skip : nat) (s : string)
  : list string :=
  match s with
  | EmptyString => [EmptyString]
  | String c s' =>
      match skip with
      | S n => split_str_from sep n s'
      | O =>
          if startswith s sep
          then EmptyString :: split_str_from sep (String.length sep - 1) s'
          else match split_str_from sep 0 s' with
               | h :: t => String c h :: t
               | [] => [String c EmptyString]
               end
      end
  end.

(** [re.split(sep, s)] for a pattern that is a nonempty literal: the
    pieces of [s] between the occurrences of [sep], found left to right
    without overlap. *)
Definition split_str (sep s : string) : list string :=
  split_str_from sep 0 s.

(** [os.path.basename(p)]: what follows the last slash. *)
Fixpoint basename (p : string) : string :=
  match p with
  | EmptyString => EmptyString
  | String _ p' => if contains "/" p then basename p' else p
  end.

End Text.

Declare Scope regex_scope.
Delimit Scope regex_scope with re.
Bind Scope regex_scope with Text.regex.
Notation "r1 ;; r2" := (Text.Seq r1 r2)
  (at level 100, r2 at level 200) : regex_scope.

(** ** Loss detector: [detect_packet_loss] *)

Definition Stage_1_to_2_SKB_Mismatch : string := "Stage_1_to_2_SKB_Mismatch".
Definition Stage_0_to_1_SKB_Mismatch : string := "Stage_0_to_1_SKB_Mismatch".

(** The verdict is the triple (drop, drop_reason, corrupted_stages). *)
Definition Verdict : Type := bool * option string * list string.

Definition detect_packet_loss (skb_pointers : gmap Z string) : Verdict :=
  match skb_pointers !! 0, skb_pointers !! 1, skb_pointers !! 2 with
  | Some stage_0_ptr, Some stage_1_ptr, Some stage_2_ptr =>
      if String.eqb stage_0_ptr stage_1_ptr
         && negb (String.eqb stage_1_ptr stage_2_ptr)
      then (true, Some Stage_1_to_2_SKB_Mismatch, ["1->2"])
      else if negb (String.eqb stage_0_ptr stage_1_ptr)
      then (true, Some Stage_0_to_1_SKB_Mismatch, ["0->1"])
      else (false, None, [])
  | _, _, _ => (false, None, [])
  end.

(** ** Stage-latency resolver: [find_max_latency_excluding_corrupted] *)

(** The running pair (max_stage, max_latency). *)
Definition Best : Type := option string * Q.

(** One iteration of the loop over [path1_latencies.items()]. *)
Definition path1_step (corrupted_stages : list string) (best : Best)
    (item : string * Q) : Best :=
  let '(stage_pair, latency) := item in
  if Py.truthy latency && negb (Py.in_list stage_pair corrupted_stages) then
    if Py.gt latency (snd best) then (Some ("Path1_" +:+ stage_pair), latency)
    else best
  else best.

(** One iteration of the loop over [path2_latencies.items()]. *)
Definition path2_step (best : Best) (item : string * Q) : Best :=
  let '(stage_pair, latency) := item in
  if Py.truthy latency && Py.gt latency (snd best)
  then (Some ("Path2_" +:+ stage_pair), latency)
  else best.

Definition find_max_latency_excluding_corrupted
    (path1_latencies path2_latencies : list (string * Q))
    (corrupted_stages : list string) : Best :=
  let after_path1 :=
    fold_left (path1_step corrupted_stages) path1_latencies (None, 0%Q) in
  fold_left path2_step path2_latencies after_path1.

(** ** Latency sections: [parse_path_latencies] and [parse_total_rtt] *)

(** [\[\s*(\d+)->(\d+)\s*\].*?:\s*([\d.]+|N/A)\s*us] *)
Definition latency_line_re : Text.regex :=
  (Text.Lit "[" ;; Text.Star true Text.is_space ;;
   Text.Grp 1 (Text.Plus true Text.is_digit) ;; Text.Lit "->" ;;
   Text.Grp 2 (Text.Plus true Text.is_digit) ;;
   Text.Star true Text.is_space ;; Text.Lit "]" ;;
   Text.Star false Text.not_newline ;; Text.Lit ":" ;;
   Text.Star true Text.is_space ;;
   Text.Grp 3 (Text.Alt (Text.Plus true Text.is_digit_or_dot) (Text.Lit "N/A")) ;;
   Text.Star true Text.is_space ;; Text.Lit "us")%re.

(** [([\d.]+)\s*us] *)
Definition total_rtt_re : Text.regex :=
  (Text.Grp 1 (Text.Plus true Text.is_digit_or_dot) ;;
   Text.Star true Text.is_space ;; Text.Lit "us")%re.

(** The search on one line of a latency section: the label
    [f"{start}->{end}"] and the text of the value, when the line matches. *)
Definition latency_line (line : string) : option (string * string) :=
  match Text.search latency_line_re line with
  | Some m =>
      match Text.group m 1, Text.group m 2, Text.group m 3 with
      | Some start, Some end_, Some latency_str =>
          Some (start +:+ "->" +:+ end_, latency_str)
      | _, _, _ => None
      end
  | None => None
  end.

(** The loop of [parse_path_latencies], from the state
    ([in_section], [latencies]) over the remaining lines. *)
Fixpoint path_latencies_loop (section_name : string) (lines : list string)
    (in_section : bool) (latencies : list (string * Q))
  : option (list (string * Q)) :=
  match lines with
  | [] => Some latencies
  | line :: rest =>
      if Text.startswith (Text.strip line) section_name then
        path_latencies_loop section_name rest true latencies
      else if (Text.startswith (Text.strip line) "Path"
               || Text.startswith (Text.strip line) "Total") && in_section then
        Some latencies
      else if in_section && negb (String.eqb (Text.strip line) "") then
        match latency_line line with
        | Some (stage_key, latency_str) =>
            if negb (String.eqb latency_str "N/A") then
              match Text.float latency_str with
              | Some v =>
                  path_latencies_loop section_name rest in_section
                    (Py.dict_set latencies stage_key v)
              | None => None
              end
            else path_latencies_loop section_name rest in_section latencies
        | None => path_latencies_loop section_name rest in_section latencies
        end
      else path_latencies_loop section_name rest in_section latencies
  end.

Definition parse_path_latencies (lines : list string) (section_name : string)
  : option (list (string * Q)) :=
  path_latencies_loop section_name lines false [].

(** The outer [None] is an exception, the inner one the Python [None]. *)
Fixpoint parse_total_rtt (lines : list string) : option (option Q) :=
  match lines with
  | [] => Some None
  | line :: rest =>
      if Text.contains "Total RTT" line && Text.contains ":" line then
        match Text.search total_rtt_re line with
        | Some m =>
            match Text.group m 1 with
            | Some g =>
                match Text.float g with
                | Some v => Some (Some v)
                | None => None
                end
            | None => None
            end
        | None => parse_total_rtt rest
        end
      else parse_total_rtt rest
  end.

(** ** Pointer snapshots: [parse_skb_pointers] *)

(** [Stage\s+(\d+)\s+.*?:\s+(0x[a-fA-F0-9]+)] *)
Definition skb_line_re : Text.regex :=
  (Text.Lit "Stage" ;; Text.Plus true Text.is_space ;;
   Text.Grp 1 (Text.Plus true Text.is_digit) ;;
   Text.Plus true Text.is_space ;; Text.Star false Text.not_newline ;;
   Text.Lit ":" ;; Text.Plus true Text.is_space ;;
   Text.Grp 2 (Text.Lit "0x" ;; Text.Plus true Text.is_hex))%re.

(** [Stage\s+(\d+)] *)
Definition stage_re : Text.regex :=
  (Text.Lit "Stage" ;; Text.Plus true Text.is_space ;;
   Text.Grp 1 (Text.Plus true Text.is_digit))%re.

(** [(0x[a-fA-F0-9]+)] *)
Definition hex_re : Text.regex :=
  Text.Grp 1 (Text.Lit "0x" ;; Text.Plus true Text.is_hex)%re.

(** The stage index and pointer read from one line of the pointer
    section: the strict pattern first, the split on [:] as a fallback. *)
Definition skb_line (line : string) : option (string * string) :=
  match Text.search skb_line_re line with
  | Some m =>
      match Text.group m 1, Text.group m 2 with
      | Some stage_id, Some pointer => Some (stage_id, pointer)
      | _, _ => None
      end
  | None =>
      match Text.split ":" line with
      | part0 :: part1 :: _ =>
          if Text.contains "Stage" part0 && Text.contains "0x" part1 then
            match Text.search stage_re part0, Text.search hex_re part1 with
            | Some sm, Some hm =>
                match Text.group sm 1, Text.group hm 1 with
                | Some stage_id, Some pointer => Some (stage_id, pointer)
                | _, _ => None
                end
            | _, _ => None
            end
          else None
      | _ => None
      end
  end.

Fixpoint skb_pointers_loop (lines : list string) (in_section : bool)
    (pointers : gmap Z string) : option (gmap Z string) :=
  match lines with
  | [] => Some pointers
  | line :: rest =>
      if Text.contains "SKB Pointers" line then
        skb_pointers_loop rest true pointers
      else if Text.startswith line "Path" && Text.contains "Latencies" line then
        Some pointers
      else if in_section && negb (String.eqb (Text.strip line) "") then
        match skb_line line with
        | Some (stage_id, pointer) =>
            match Text.int stage_id with
            | Some n => skb_pointers_loop rest in_section (<[n := pointer]> pointers)
            | None => None
            end
        | None => skb_pointers_loop rest in_section pointers
        end
      else skb_pointers_loop rest in_section pointers
  end.

Definition parse_skb_pointers (lines : list string) : option (gmap Z string) :=
  skb_pointers_loop lines false ∅.

(** ** Session records: [parse_session_block] *)

Inductive Direction : Type := OUTGOING | INCOMING.

Global Instance Direction_eq_dec : EqDecision Direction.
Proof. solve_decision. Defined.

Definition direction_name (d : Direction) : string :=
  match d with
  | OUTGOING => "OUTGOING"
  | INCOMING => "INCOMING"
  end.

(** The dictionary returned by [parse_session_block]. *)
Record Parsed : Type := mkParsed {
  timestamp : string;
  direction : Direction;
  source_file : string;
  src_ip : string;
  dst_ip : string;
  session_id : Z;
  seq : Z;
  drop : bool;
  drop_reason : option string;
  corrupted_stages : list string;
  skb_pointers : gmap Z string;
  total_rtt : option Q;
  max_stage : option string;
  max_latency : Q;
  path1_latencies : list (string * Q);
  path2_latencies : list (string * Q);
  session_line_src : string;
  session_line_dst : string
}.

(** The same dictionary once [load_and_parse_data] has added its
    ['pair_name'] key: an element of [self.sessions]. *)
Record Session : Type := mkSession {
  parsed :> Parsed;
  pair_name : string
}.

(** [(\d{4}-\d{2}-\d{2} \d{2}:\d{2}:\d{2}\.\d+)] *)
Definition timestamp_re : Text.regex :=
  Text.Grp 1
    (Text.Times 4 Text.is_digit ;; Text.Lit "-" ;;
     Text.Times 2 Text.is_digit ;; Text.Lit "-" ;;
     Text.Times 2 Text.is_digit ;; Text.Lit " " ;;
     Text.Times 2 Text.is_digit ;; Text.Lit ":" ;;
     Text.Times 2 Text.is_digit ;; Text.Lit ":" ;;
     Text.Times 2 Text.is_digit ;; Text.Lit "." ;;
     Text.Plus true Text.is_digit)%re.

(** [Session: ([\d.]+) \([^)]+\) -> ([\d.]+) \([^)]+\) \(ID: (\d+), Seq: (\d+)\)] *)
Definition session_re : Text.regex :=
  (Text.Lit "Session: " ;; Text.Grp 1 (Text.Plus true Text.is_digit_or_dot) ;;
   Text.Lit " (" ;; Text.Plus true Text.not_rparen ;; Text.Lit ") -> " ;;
   Text.Grp 2 (Text.Plus true Text.is_digit_or_dot) ;;
   Text.Lit " (" ;; Text.Plus true Text.not_rparen ;; Text.Lit ") (ID: " ;;
   Text.Grp 3 (Text.Plus true Text.is_digit) ;; Text.Lit ", Seq: " ;;
   Text.Grp 4 (Text.Plus true Text.is_digit) ;; Text.Lit ")")%re.

(** [next((line for line in lines if line.startswith('Session:')), None)] *)
Definition find_session_line (lines : list string) : option string :=
  List.find (fun line => Text.startswith line "Session:") lines.

(** The body of [parse_session_block]: [None] is the Python [None], which
    the function returns for a block it rejects and also when an
    exception reaches its [except] clause. *)
Definition parse_session_block (block : string) (direction : Direction)
    (source_file src_ip dst_ip : string) : option Parsed :=
  let lines := Text.split "010" (Text.strip block) in
  tm ← Text.search timestamp_re (List.hd "" lines);
  timestamp ← Text.group tm 1;
  session_line ← find_session_line lines;
  sm ← Text.search session_re session_line;
  session_src_ip ← Text.group sm 1;
  session_dst_ip ← Text.group sm 2;
  session_id ← Text.group sm 3;
  seq ← Text.group sm 4;
  skb_pointers ← parse_skb_pointers lines;
  let '(drop, drop_reason, corrupted_stages) := detect_packet_loss skb_pointers in
  path1_latencies ← parse_path_latencies lines "Path 1 Latencies";
  path2_latencies ← parse_path_latencies lines "Path 2 Latencies";
  total_rtt ← parse_total_rtt lines;
  let '(max_stage, max_latency) :=
    find_max_latency_excluding_corrupted
      path1_latencies path2_latencies corrupted_stages in
  session_id_int ← Text.int session_id;
  seq_int ← Text.int seq;
  Some {| timestamp := timestamp; direction := direction;
          source_file := source_file; src_ip := src_ip; dst_ip := dst_ip;
          session_id := session_id_int; seq := seq_int;
          drop := drop; drop_reason := drop_reason;
          corrupted_stages := corrupted_stages;
          skb_pointers := skb_pointers; total_rtt := total_rtt;
          max_stage := max_stage; max_latency := max_latency;
          path1_latencies := path1_latencies;
          path2_latencies := path2_latencies;
          session_line_src := session_src_ip;
          session_line_dst := session_dst_ip |}.

(** ** Session matcher: [match_session_pairs_for_all_nodes] *)

(** The join key [(session['session_id'], session['seq'])]. *)
Definition key_of (s : Session) : Z * Z := (session_id s, seq s).

(** [sessions_by_pair[name].append(session)] on a [defaultdict(list)],
    whose groups are later visited in order of first appearance. *)
Fixpoint group_append (groups : list (string * list Session))
    (name : string) (session : Session) : list (string * list Session) :=
  match groups with
  | [] => [(name, [session])]
  | (name', members) :: groups' =>
      if String.eqb name' name then (name', members ++ [session]) :: groups'
      else (name', members) :: group_append groups' name session
  end.

Definition sessions_by_pair (sessions : list Session)
  : list (string * list Session) :=
  fold_left (fun groups session => group_append groups (pair_name session) session)
    sessions [].

(** The lookup dictionary built from the incoming sessions of one group; a
    later session with the same key replaces an earlier one. *)
Definition build_incoming_lookup (incoming_sessions : list Session)
  : gmap (Z * Z) Session :=
  fold_left (fun lookup session => <[key_of session := session]> lookup)
    incoming_sessions ∅.

(** One iteration of the loop over the outgoing sessions of a group. *)
Definition match_step (incoming_lookup : gmap (Z * Z) Session)
    (acc : list (Session * Session) * list Session) (outgoing : Session)
  : list (Session * Session) * list Session :=
  let '(matched_pairs, outgoing_only) := acc in
  match incoming_lookup !! key_of outgoing with
  | Some incoming => (matched_pairs ++ [(outgoing, incoming)], outgoing_only)
  | None => (matched_pairs, outgoing_only ++ [outgoing])
  end.

(** The three lists computed for one pair-name group. *)
Definition MatchResult : Type :=
  list (Session * Session) * list Session * list Session.

Definition match_group (pair_sessions : list Session) : MatchResult :=
  let outgoing_sessions :=
    filter (fun s : Session => direction s = OUTGOING) pair_sessions in
  let incoming_sessions :=
    filter (fun s : Session => direction s = INCOMING) pair_sessions in
  let incoming_lookup := build_incoming_lookup incoming_sessions in
  let '(matched_pairs, outgoing_only) :=
    fold_left (match_step incoming_lookup) outgoing_sessions ([], []) in
  let matched_keys : gset (Z * Z) :=
    list_to_set (map (fun p : Session * Session => key_of (fst p)) matched_pairs) in
  let incoming_only :=
    filter (fun inc : Session => key_of inc ∉ matched_keys) incoming_sessions in
  (matched_pairs, outgoing_only, incoming_only).

(** One iteration of the loop over the groups: the [extend] calls. *)
Definition extend_all (acc : MatchResult) (group : string * list Session)
  : MatchResult :=
  let '(all_matched_pairs, all_outgoing_only, all_incoming_only) := acc in
  let '(matched_pairs, outgoing_only, incoming_only) := match_group (snd group) in
  (all_matched_pairs ++ matched_pairs,
   all_outgoing_only ++ outgoing_only,
   all_incoming_only ++ incoming_only).

Definition match_session_pairs_for_all_nodes (sessions : list Session)
  : MatchResult :=
  fold_left extend_all (sessions_by_pair sessions) ([], [], []).

(** ** Bidirectional analyzer: [analyze_single_session_pair] *)

(** The dictionary [combined_analysis]. *)
Record Analysis : Type := mkAnalysis {
  a_session_key : string;
  a_pair_name : string;
  a_session_type : string;
  a_outgoing : Session;
  a_incoming : Session;
  a_direction : string;
  a_session_id : Z;
  a_seq : Z;
  a_drop : bool;
  a_drop_details : list string;
  a_outgoing_max_stage : option string;
  a_outgoing_max_latency : Q;
  a_incoming_max_stage : option string;
  a_incoming_max_latency : Q;
  a_max_stage : option string;
  a_max_latency : Q;
  a_physical_network_delay : option spec_float;
  a_fping_processing_delay : option Q;
  a_outgoing_path1_latencies : list (string * Q);
  a_outgoing_path2_latencies : list (string * Q);
  a_incoming_path1_latencies : list (string * Q);
  a_incoming_path2_latencies : list (string * Q);
  a_outgoing_total_rtt : option Q;
  a_incoming_total_rtt : option Q;
  a_is_bidirectional : bool;
  a_available_directions : list string
}.

(** The overall (max_stage, max_latency) of a pair. *)
Definition overall_max (outgoing_session incoming_session : Session)
  : option string * Q :=
  if Py.ge (max_latency outgoing_session) (max_latency incoming_session)
  then (Some ("OUTGOING_" +:+ Py.str_opt (max_stage outgoing_session)),
        max_latency outgoing_session)
  else (Some ("INCOMING_" +:+ Py.str_opt (max_stage incoming_session)),
        max_latency incoming_session).

(** The value left in ['physical_network_delay']: [abs(o - i) / 2] on the
    two doubles, when both are truthy. *)
Definition physical_network_delay (outgoing_session incoming_session : Session)
  : option spec_float :=
  if Float64.truthy_opt (total_rtt outgoing_session)
     && Float64.truthy_opt (total_rtt incoming_session)
  then
    match total_rtt outgoing_session, total_rtt incoming_session with
    | Some o, Some i =>
        Some (Float64.div
                (Float64.abs (Float64.sub (Float64.of_Q o) (Float64.of_Q i)))
                Float64.two)
    | _, _ => None
    end
  else None.

Definition analyze_single_session_pair
    (outgoing_session incoming_session : Session) (session_key : string)
  : Analysis :=
  {| a_session_key := session_key;
     a_pair_name := pair_name outgoing_session;
     a_session_type := "bidirectional";
     a_outgoing := outgoing_session;
     a_incoming := incoming_session;
     a_direction := src_ip outgoing_session +:+ "->" +:+ dst_ip outgoing_session;
     a_session_id := session_id outgoing_session;
     a_seq := seq outgoing_session;
     a_drop := drop outgoing_session || drop incoming_session;
     a_drop_details :=
       (if drop outgoing_session
        then ["OUTGOING_" +:+ Py.str_opt (drop_reason outgoing_session)]
        else [])
       ++ (if drop incoming_session
           then ["INCOMING_" +:+ Py.str_opt (drop_reason incoming_session)]
           else []);
     a_outgoing_max_stage := max_stage outgoing_session;
     a_outgoing_max_latency := max_latency outgoing_session;
     a_incoming_max_stage := max_stage incoming_session;
     a_incoming_max_latency := max_latency incoming_session;
     a_max_stage := fst (overall_max outgoing_session incoming_session);
     a_max_latency := snd (overall_max outgoing_session incoming_session);
     a_physical_network_delay :=
       physical_network_delay outgoing_session incoming_session;
     a_fping_processing_delay := Some 50%Q;
     a_outgoing_path1_latencies := path1_latencies outgoing_session;
     a_outgoing_path2_latencies := path2_latencies outgoing_session;
     a_incoming_path1_latencies := path1_latencies incoming_session;
     a_incoming_path2_latencies := path2_latencies incoming_session;
     a_outgoing_total_rtt := total_rtt outgoing_session;
     a_incoming_total_rtt := total_rtt incoming_session;
     a_is_bidirectional := true;
     a_available_directions := ["OUTGOING"; "INCOMING"] |}.

(** ** Node pairs and trace files: [parse_log_file] and
    [load_and_parse_data] *)

(** An element of [self.node_pairs]. *)
Record NodePair : Type := mkNodePair {
  np_src_ip : string;
  np_dst_ip : string;
  np_outgoing_file : option string;
  np_incoming_file : option string;
  np_pair_name : string
}.

(** The files that exist, each with its text. *)
Definition FileSystem : Type := string -> option string.

Definition trace_marker : string := "=== ICMP RTT Trace:".

(** The loop of [parse_log_file] over [session_blocks[1:]]. *)
Definition parse_blocks (blocks : list string) (direction : Direction)
    (source_file src_ip dst_ip : string) : list Parsed :=
  omap (fun block =>
          parse_session_block block direction source_file src_ip dst_ip)
    blocks.

Definition parse_log_file (fs : FileSystem) (file_path : string)
    (direction : Direction) (source_file src_ip dst_ip : string)
  : list Parsed :=
  match fs file_path with
  | None => []
  | Some content =>
      parse_blocks (List.tl (Text.split_str trace_marker content))
        direction source_file src_ip dst_ip
  end.

(** The sessions one direction of a node pair contributes. *)
Definition load_direction (fs : FileSystem) (file : option string)
    (direction : Direction) (pair : NodePair) : list Parsed :=
  if Py.truthy_str file then
    parse_log_file fs (Py.str_opt file) direction
      (Text.basename (Py.str_opt file)) (np_src_ip pair) (np_dst_ip pair)
  else [].

(** The body of the loop of [load_and_parse_data] for one node pair. *)
Definition load_pair (fs : FileSystem) (pair : NodePair) : list Session :=
  let pair_sessions :=
    load_direction fs (np_outgoing_file pair) OUTGOING pair
    ++ load_direction fs (np_incoming_file pair) INCOMING pair in
  map (fun session => {| parsed := session; pair_name := np_pair_name pair |})
    pair_sessions.

Definition load_and_parse_data (fs : FileSystem) (node_pairs : list NodePair)
  : list Session :=
  fold_left (fun sessions pair => sessions ++ load_pair fs pair) node_pairs [].

(** ** The report: [analyze_single_unidirectional_session] and
    [generate_analysis_report] *)

(** The dictionary built for a session without a partner. *)
Record UniAnalysis : Type := mkUniAnalysis {
  u_session_key : string;
  u_pair_name : string;
  u_session_type : string;
  u_direction_type : Direction;
  u_direction : string;
  u_session_id : Z;
  u_seq : Z;
  u_timestamp : string;
  u_drop : bool;
  u_drop_details : list string;
  u_max_stage : option string;
  u_max_latency : Q;
  u_total_rtt : option Q;
  u_path1_latencies : list (string * Q);
  u_path2_latencies : list (string * Q);
  u_is_bidirectional : bool;
  u_available_direction : Direction
}.

Definition analyze_single_unidirectional_session (session : Session)
    (session_key : string) (session_type : Direction) : UniAnalysis :=
  {| u_session_key := session_key;
     u_pair_name := pair_name session;
     u_session_type := "unidirectional";
     u_direction_type := session_type;
     u_direction := src_ip session +:+ "->" +:+ dst_ip session;
     u_session_id := session_id session;
     u_seq := seq session;
     u_timestamp := timestamp session;
     u_drop := drop session;
     u_drop_details :=
       if drop session
       then [direction_name session_type +:+ "_"
             +:+ Py.str_opt (drop_reason session)]
       else [];
     u_max_stage := max_stage session;
     u_max_latency := max_latency session;
     u_total_rtt := total_rtt session;
     u_path1_latencies := path1_latencies session;
     u_path2_latencies := path2_latencies session;
     u_is_bidirectional := false;
     u_available_direction := session_type |}.

(** An element of [valid_sessions] or [dropped_sessions]. *)
Inductive AnyAnalysis : Type :=
| Bidirectional (a : Analysis)
| Unidirectional (u : UniAnalysis).

(** [analysis['drop']] and [analysis['drop_details']]. *)
Definition any_drop (x : AnyAnalysis) : bool :=
  match x with
  | Bidirectional a => a_drop a
  | Unidirectional u => u_drop u
  end.

Definition any_drop_details (x : AnyAnalysis) : list string :=
  match x with
  | Bidirectional a => a_drop_details a
  | Unidirectional u => u_drop_details u
  end.

(** The two result lists (valid_sessions, dropped_sessions) and the
    [if analysis['drop']] that files an analysis into one of them. *)
Definition Filed : Type := list AnyAnalysis * list AnyAnalysis.

Definition file_analysis (acc : Filed) (analysis : AnyAnalysis) : Filed :=
  let '(valid_sessions, dropped_sessions) := acc in
  if any_drop analysis
  then (valid_sessions, dropped_sessions ++ [analysis])
  else (valid_sessions ++ [analysis], dropped_sessions).

(** The three session keys. *)
Definition pair_session_key (outgoing : Session) : string :=
  pair_name outgoing +:+ "_" +:+ Py.str_int (session_id outgoing)
  +:+ "_" +:+ Py.str_int (seq outgoing).

Definition single_session_key (session : Session) (d : Direction) : string :=
  pair_name session +:+ "_" +:+ direction_name d +:+ "_"
  +:+ Py.str_int (session_id session) +:+ "_" +:+ Py.str_int (seq session).

(** The dictionary under ['analysis'] in the report. *)
Record Report : Type := mkReport {
  r_node_pairs : list (string * string * string * string);
  r_timestamp : string;
  r_total_sessions : nat;
  r_matched_sessions : nat;
  r_outgoing_only : nat;
  r_incoming_only : nat;
  r_valid_sessions : list AnyAnalysis;
  r_dropped_sessions : list AnyAnalysis
}.

(** [generate_analysis_report], as a function of [self.sessions],
    [self.node_pairs] and the clock reading [now]. *)
Definition generate_analysis_report (sessions : list Session)
    (node_pairs : list NodePair) (now : string) : Report :=
  let '(matched_pairs, outgoing_only, incoming_only) :=
    match_session_pairs_for_all_nodes sessions in
  let filed1 :=
    fold_left
      (fun acc (p : Session * Session) =>
         file_analysis acc
           (Bidirectional
              (analyze_single_session_pair (fst p) (snd p)
                 (pair_session_key (fst p)))))
      matched_pairs ([], []) in
  let filed2 :=
    fold_left
      (fun acc session =>
         file_analysis acc
           (Unidirectional
              (analyze_single_unidirectional_session session
                 (single_session_key session OUTGOING) OUTGOING)))
      outgoing_only filed1 in
  let filed3 :=
    fold_left
      (fun acc session =>
         file_analysis acc
           (Unidirectional
              (analyze_single_unidirectional_session session
                 (single_session_key session INCOMING) INCOMING)))
      incoming_only filed2 in
  {| r_node_pairs :=
       map (fun pair =>
              (np_pair_name pair, np_src_ip pair, np_dst_ip pair,
               np_src_ip pair +:+ "->" +:+ np_dst_ip pair))
         node_pairs;
     r_timestamp := now;
     r_total_sessions :=
       (length matched_pairs + length outgoing_only + length incoming_only)%nat;
     r_matched_sessions := length matched_pairs;
     r_outgoing_only := length outgoing_only;
     r_incoming_only := length incoming_only;
     r_valid_sessions := fst filed3;
     r_dropped_sessions := snd filed3 |}.

(** ** Latency ranges of the summary: [get_latency_range_label] and
    [get_range_order] *)

Definition get_latency_range_label (latency_us : Q) : string :=
  let latency_ms := (latency_us / 1000)%Q in
  if Py.gt 10 latency_ms then "0-10ms"
  else if Py.gt 100 latency_ms then "10-100ms"
  else if Py.gt 500 latency_ms then "100-500ms"
  else if Py.gt 1000 latency_ms then "500-1000ms"
  else if Py.gt 3000 latency_ms then "1000-3000ms"
  else if Py.gt 60000 latency_ms then "3000-60000ms"
  else ">60000ms".

Definition get_range_order : list string :=
  ["0-10ms"; "10-100ms"; "100-500ms"; "500-1000ms"; "1000-3000ms";
   "3000-60000ms"; ">60000ms"].

(** ** The resolver's rule as the specification words it

    The candidates are the path-1 entries whose label is not corrupted,
    then all path-2 entries, each under its prefixed label; a candidate
    replaces the running maximum only when it is strictly larger. *)

Definition path1_candidates (path1_latencies : list (string * Q))
    (corrupted_stages : list string) : list (string * Q) :=
  map (fun kv => ("Path1_" +:+ fst kv, snd kv))
    (List.filter (fun kv => negb (Py.in_list (fst kv) corrupted_stages))
       path1_latencies).

Definition path2_candidates (path2_latencies : list (string * Q))
  : list (string * Q) :=
  map (fun kv => ("Path2_" +:+ fst kv, snd kv)) path2_latencies.

Definition candidates (path1_latencies path2_latencies : list (string * Q))
    (corrupted_stages : list string) : list (string * Q) :=
  path1_candidates path1_latencies corrupted_stages
  ++ path2_candidates path2_latencies.

Definition improve (best : Best) (cand : string * Q) : Best :=
  if Py.gt (snd cand) (snd best) then (Some (fst cand), snd cand) else best.

Definition first_seen_max (cands : list (string * Q)) : Best :=
  fold_left improve cands (None, 0%Q).

(** ** The lines of a latency section

    The lines [parse_path_latencies] reads as the section of a name: the
    nonblank lines that follow a header line (a line that, stripped,
    starts with the name), up to the first line that, stripped, starts
    with "Path" or "Total" and is not itself a header. *)

Fixpoint section_lines_from (section_name : string) (lines : list string)
    (in_section : bool) : list string :=
  match lines with
  | [] => []
  | line :: rest =>
      if Text.startswith (Text.strip line) section_name then
        section_lines_from section_name rest true
      else if (Text.startswith (Text.strip line) "Path"
               || Text.startswith (Text.strip line) "Total") && in_section then
        []
      else if in_section && negb (String.eqb (Text.strip line) "") then
        line :: section_lines_from section_name rest in_section
      else section_lines_from section_name rest in_section
  end.

Definition section_lines (section_name : string) (lines : list string)
  : list string :=
  section_lines_from section_name lines false.

(** ** The matcher's outputs as the specification reads them *)

(** The key whose uniqueness the data model assumes: the join key within
    one direction of one pair-name group. *)
Definition full_key (s : Session) : string * Direction * (Z * Z) :=
  (pair_name s, direction s, key_of s).

(** Every record that occurs in the three outputs of the matcher: both
    halves of the matched pairs, then the two kinds of unmatched record. *)
Definition records (r : MatchResult) : list Session :=
  map fst (fst (fst r)) ++ map snd (fst (fst r)) ++ snd (fst r) ++ snd r.

(** The pair made for an outgoing session by a lookup dictionary. *)
Definition pair_with (incoming_lookup : gmap (Z * Z) Session)
    (outgoing : Session) : option (Session * Session) :=
  match incoming_lookup !! key_of outgoing with
  | Some incoming => Some (outgoing, incoming)
  | None => None
  end.

(** The invariant of the grouping dictionary: a group holds sessions of
    its own pair name only. *)
Definition well_grouped (groups : list (string * list Session)) : Prop :=
  forall name members s,
    (name, members) ∈ groups -> s ∈ members -> pair_name s = name.

(** ** What a pattern matches, read declaratively

    [Match r s m s' m']: the pattern [r] matches a prefix of [s], leaves
    [s'], and turns the groups [m] into [m']. *)

Inductive Match
  : Text.regex -> string -> Text.captures -> string -> Text.captures -> Prop :=
| MLit l s m : Match (Text.Lit l) (l +:+ s) m s m
| MCls (p : ascii -> bool) c s m :
    p c = true -> Match (Text.Cls p) (String c s) m s m
| MStar g (p : ascii -> bool) a s m :
    Text.all_chars p a = true -> Match (Text.Star g p) (a +:+ s) m s m
| MSeq r1 r2 s m s1 m1 s2 m2 :
    Match r1 s m s1 m1 -> Match r2 s1 m1 s2 m2 ->
    Match (Text.Seq r1 r2) s m s2 m2
| MAltL r1 r2 s m s' m' : Match r1 s m s' m' -> Match (Text.Alt r1 r2) s m s' m'
| MAltR r1 r2 s m s' m' : Match r2 s m s' m' -> Match (Text.Alt r1 r2) s m s' m'
| MGrp i r s m s' m' :
    Match r s m s' m' ->
    Match (Text.Grp i r) s m s' ((i, Text.consumed s s') :: m').

(** ** Shapes and invariants used in the statements *)

(** A pointer token: "0x" and at least one hexadecimal digit. *)
Definition pointer_shape (ptr : string) : Prop :=
  exists h, ptr = "0x" +:+ h /\ Text.all_chars Text.is_hex h = true /\ h <> "".

Definition pointers_ok (m : gmap Z string) : Prop :=
  forall n ptr, m !! n = Some ptr -> 0 <= n /\ pointer_shape ptr.

(** A stage-transition label: two nonempty digit strings around "->". *)
Definition label_shape (k : string) : Prop :=
  exists a b, k = a +:+ "->" +:+ b
              /\ Text.all_chars Text.is_digit a = true /\ a <> ""
              /\ Text.all_chars Text.is_digit b = true /\ b <> "".

(** The grouping dictionary after the sessions [l]: distinct names, each
    group the sessions of its name in input order, no name missing. *)
Definition grouped (groups : list (string * list Session)) (l : list Session)
  : Prop :=
  NoDup (map fst groups)
  /\ (forall name members, (name, members) ∈ groups ->
        members <> [] /\ members = filter (fun s => pair_name s = name) l)
  /\ (forall s, s ∈ l -> pair_name s ∈ map fst groups).

(** An analysis whose drop flag and drop details agree. *)
Definition consistent (x : AnyAnalysis) : Prop :=
  any_drop x = true <-> any_drop_details x <> [].

(** Result lists that hold the analyses on the right side. *)
Definition filed_ok (acc : Filed) : Prop :=
  Forall (fun x => any_drop x = false /\ any_drop_details x = []) (fst acc)
  /\ Forall (fun x => any_drop x = true /\ any_drop_details x <> []) (snd acc).

(** A session read from the file a node pair names for its direction. *)
Definition from_file (fs : FileSystem) (file : option string) (s : Session)
  : Prop :=
  exists f, file = Some f /\ f <> "" /\ fs f <> None
            /\ source_file s = Text.basename f.

(** ** Sample records *)

Module Samples.

(** A session record with the given verdicts and otherwise empty data. *)
Definition session (pair : string) (d : Direction) (id sq : Z)
    (lost : bool) (stage : option string) (latency : Q)
    (rtt : option Q) : Session :=
  {| parsed :=
       {| timestamp := "2025-01-01 00:00:00.000"; direction := d;
          source_file := "trace.log";
          src_ip := "10.0.0.1"; dst_ip := "10.0.0.2";
          session_id := id; seq := sq;
          drop := lost; drop_reason := None; corrupted_stages := [];
          skb_pointers := ∅; total_rtt := rtt;
          max_stage := stage; max_latency := latency;
          path1_latencies := []; path2_latencies := [];
          session_line_src := "10.0.0.1"; session_line_dst := "10.0.0.2" |};
     pair_name := pair |}.

(** The pair of the specification's example: session 7, sequence 3,
    maximum latency 120 outgoing and 340 incoming. *)
Definition out_7_3 : Session :=
  session "A" OUTGOING 7 3 false (Some "Path1_0->1") 120 (Some 500%Q).
Definition in_7_3 : Session :=
  session "A" INCOMING 7 3 false (Some "Path2_2->3") 340 (Some 800%Q).

(** Two pair-name groups that share the key (7, 3). *)
Definition sessions : list Session :=
  [out_7_3;
   session "B" INCOMING 7 3 false None 0 None;
   in_7_3;
   session "A" OUTGOING 7 4 false None 0 None;
   session "B" INCOMING 8 1 false None 0 None].

(** A trace block: the pointers of stages 1 and 2 differ, the total
    round-trip value is larger than every stage latency. *)
Definition block : string :=
  " 2025-01-01 12:00:00.123456 ===
Session: 10.0.0.1 (eth0) -> 10.0.0.2 (eth1) (ID: 7, Seq: 3)
SKB Pointers:
  Stage 0 (ip_send_skb): 0xffff0001
  Stage 1 (dev_queue_xmit): 0xffff0001
  Stage 2 (netif_receive_skb): 0xffff0002
Path 1 Latencies (us):
  [0->1]: 12.5 us
  [1->2]: 900.0 us
  [2->3]: N/A us
Path 2 Latencies (us):
  [3->4]: 8.0 us
Total RTT: 99999.0 us
".

(** Two INCOMING records with the key (7, 3) in one group. *)
Definition in_7_3_late : Session :=
  session "A" INCOMING 7 3 false (Some "Path1_0->1") 55 None.
Definition duplicated : list Session := [in_7_3; out_7_3; in_7_3_late].

(** A file system with one outgoing and one incoming trace, and the node
    pair that names them. *)
Definition fs : FileSystem :=
  fun path =>
    if String.eqb path "logs/out.log"
    then Some ("header" +:+ trace_marker +:+ block)
    else if String.eqb path "logs/in.log"
    then Some (trace_marker +:+ block +:+ trace_marker +:+ "no timestamp")
    else None.

Definition node_pairs : list NodePair :=
  [ {| np_src_ip := "10.0.0.1"; np_dst_ip := "10.0.0.2";
       np_outgoing_file := Some "logs/out.log";
       np_incoming_file := Some "logs/in.log";
       np_pair_name := "A" |} ].

End Samples.

(** * Properties *)

(** ** The model on concrete text *)

Example latency_line_number :
  latency_line "  [0->1] tx_queue: 12.5 us" = Some ("0->1", "12.5").
Proof. vm_compute. reflexivity. Qed.

Example latency_line_spaces :
  latency_line "[ 3->14 ] a: b: 7 us: 8 us" = Some ("3->14", "7").
Proof. vm_compute. reflexivity. Qed.

Example latency_line_no_unit : latency_line "[0->1]: 12.5 ms" = None.
Proof. vm_compute. reflexivity. Qed.

Example float_values :
  Text.float "12.5" = Some (25 # 2)%Q /\ Text.float "8.0" = Some 8%Q
  /\ Text.float "7" = Some 7%Q /\ Text.float ".5" = Some (1 # 2)%Q.
Proof. vm_compute. repeat split. Qed.

Example float_value_error : Text.float "1.2.3" = None /\ Text.float "." = None.
Proof. vm_compute. split; reflexivity. Qed.

Example strip_split :
  Text.split "010" (Text.strip "  a: 1
b   ") = ["a: 1"; "b"].
Proof. vm_compute. reflexivity. Qed.

(** A whole block: the pointers at stages 1 and 2 differ, so "1->2" is
    corrupted and its 900 us is passed over; the total round-trip value,
    larger than every stage latency, is not the dominant stage. *)
Example parse_session_block_example :
  let block := " 2025-01-01 12:00:00.123456 ===
Session: 10.0.0.1 (eth0) -> 10.0.0.2 (eth1) (ID: 7, Seq: 3)
SKB Pointers:
  Stage 0 (ip_send_skb): 0xffff0001
  Stage 1 (dev_queue_xmit): 0xffff0001
  Stage 2 (netif_receive_skb): 0xffff0002
Path 1 Latencies (us):
  [0->1]: 12.5 us
  [1->2]: 900.0 us
  [2->3]: N/A us
Path 2 Latencies (us):
  [3->4]: 8.0 us
Total RTT: 99999.0 us
" in
  (fun r : Parsed =>
     (timestamp r, session_id r, seq r, drop r, drop_reason r,
      corrupted_stages r, path1_latencies r, path2_latencies r,
      total_rtt r, max_stage r, max_latency r))
    <$> parse_session_block block OUTGOING "out.log" "10.0.0.1" "10.0.0.2"
  = Some ("2025-01-01 12:00:00.123456", 7, 3, true,
          Some "Stage_1_to_2_SKB_Mismatch", ["1->2"],
          [("0->1", (25 # 2)%Q); ("1->2", 900%Q)], [("3->4", 8%Q)],
          Some 99999%Q, Some "Path1_0->1", (25 # 2)%Q).
Proof. vm_compute. reflexivity. Qed.

Example sample_match :
  match_session_pairs_for_all_nodes Samples.sessions
  = ([(Samples.out_7_3, Samples.in_7_3)],
     [Samples.session "A" OUTGOING 7 4 false None 0 None],
     [Samples.session "B" INCOMING 7 3 false None 0 None;
      Samples.session "B" INCOMING 8 1 false None 0 None]).
Proof. vm_compute. reflexivity. Qed.

(** ** Numbers *)

Lemma gt_true (a b : Q) : Py.gt a b = true <-> (b < a)%Q.
Proof.
  unfold Py.gt. rewrite negb_true_iff.
  destruct (Qle_bool a b) eqn:E.
  - apply Qle_bool_iff in E. split; [discriminate | intros H; lra].
  - split; [intros _ | reflexivity].
    apply Qnot_le_lt. intros H. apply Qle_bool_iff in H. congruence.
Qed.

Lemma gt_false (a b : Q) : Py.gt a b = false <-> (a <= b)%Q.
Proof.
  destruct (Py.gt a b) eqn:E.
  - apply gt_true in E. split; [discriminate | intros H; lra].
  - split; [intros _ | reflexivity].
    apply Qnot_lt_le. intros H. apply gt_true in H. congruence.
Qed.

Lemma ge_true (a b : Q) : Py.ge a b = true <-> (b <= a)%Q.
Proof. unfold Py.ge. apply Qle_bool_iff. Qed.

Lemma ge_false (a b : Q) : Py.ge a b = false <-> (a < b)%Q.
Proof.
  unfold Py.ge. destruct (Qle_bool b a) eqn:E.
  - apply Qle_bool_iff in E. split; [discriminate | intros H; lra].
  - split; [intros _ | reflexivity].
    apply Qnot_le_lt. intros H. apply Qle_bool_iff in H. congruence.
Qed.

Lemma truthy_false (q : Q) : Py.truthy q = false <-> (q == 0)%Q.
Proof. unfold Py.truthy. rewrite negb_false_iff. apply Qeq_bool_iff. Qed.

Lemma truthy_true (q : Q) : Py.truthy q = true <-> ~ (q == 0)%Q.
Proof.
  rewrite <- truthy_false. destruct (Py.truthy q); split; congruence.
Qed.

(** A positive number is truthy, so the truthiness test of the resolver
    never hides a strict improvement over a nonnegative maximum. *)
Lemma gt_nonneg_truthy (v b : Q) :
  (0 <= b)%Q -> Py.gt v b = true -> Py.truthy v = true.
Proof.
  intros Hb Hgt. apply gt_true in Hgt. apply truthy_true. intros E. lra.
Qed.

(** ** Loss detector *)

Lemma string_eqb_true (a b : string) : String.eqb a b = true <-> a = b.
Proof. apply String.eqb_eq. Qed.

Lemma string_eqb_false (a b : string) : String.eqb a b = false <-> a <> b.
Proof. apply String.eqb_neq. Qed.

(** The verdict on a mapping that holds the three stages, by cases on the
    two comparisons the code makes. *)
Lemma detect_packet_loss_present (m : gmap Z string) (p0 p1 p2 : string) :
  m !! 0 = Some p0 -> m !! 1 = Some p1 -> m !! 2 = Some p2 ->
  detect_packet_loss m =
    if String.eqb p0 p1 && negb (String.eqb p1 p2)
    then (true, Some Stage_1_to_2_SKB_Mismatch, ["1->2"])
    else if negb (String.eqb p0 p1)
    then (true, Some Stage_0_to_1_SKB_Mismatch, ["0->1"])
    else (false, None, []).
Proof.
  intros H0 H1 H2. unfold detect_packet_loss. rewrite H0, H1, H2. reflexivity.
Qed.

Lemma detect_packet_loss_absent (m : gmap Z string) :
  m !! 0 = None \/ m !! 1 = None \/ m !! 2 = None ->
  detect_packet_loss m = (false, None, []).
Proof.
  unfold detect_packet_loss.
  intros [H | [H | H]]; rewrite H;
    repeat (match goal with |- context [match ?o with _ => _ end] =>
              destruct o end); reflexivity.
Qed.

(** C1.  The loss detector is the reference decision function.  On a
    mapping that holds stages 0, 1 and 2: equal pointers at 0 and 1 with a
    different pointer at 2 give lost, the stage-1-to-2 reason and the
    corrupted list ["1->2"]; otherwise different pointers at 0 and 1 give
    lost, the stage-0-to-1 reason and ["0->1"]; otherwise the verdict is
    not lost with nothing corrupted.  On a mapping that misses one of the
    three stages the verdict is not lost, no reason, nothing corrupted. *)
Theorem detect_packet_loss_reference (m : gmap Z string) :
  (forall p0 p1 p2 : string,
      m !! 0 = Some p0 -> m !! 1 = Some p1 -> m !! 2 = Some p2 ->
      (p0 = p1 /\ p1 <> p2 ->
       detect_packet_loss m = (true, Some "Stage_1_to_2_SKB_Mismatch", ["1->2"]))
      /\ (~ (p0 = p1 /\ p1 <> p2) -> p0 <> p1 ->
          detect_packet_loss m = (true, Some "Stage_0_to_1_SKB_Mismatch", ["0->1"]))
      /\ (~ (p0 = p1 /\ p1 <> p2) -> ~ p0 <> p1 ->
          detect_packet_loss m = (false, None, [])))
  /\ (m !! 0 = None \/ m !! 1 = None \/ m !! 2 = None ->
      detect_packet_loss m = (false, None, [])).
Proof.
  split; [| apply detect_packet_loss_absent].
  intros p0 p1 p2 H0 H1 H2.
  rewrite (detect_packet_loss_present m p0 p1 p2 H0 H1 H2).
  destruct (String.eqb p0 p1) eqn:E01; destruct (String.eqb p1 p2) eqn:E12;
    simpl;
    repeat match goal with
      | H : String.eqb _ _ = true |- _ => apply string_eqb_true in H
      | H : String.eqb _ _ = false |- _ => apply string_eqb_false in H
      end;
    repeat split; intros; try reflexivity; tauto.
Qed.

Lemma detect_packet_loss_reference_witness :
  detect_packet_loss {[ 0 := "0xAA"; 1 := "0xAA"; 2 := "0xBB" ]}
  = (true, Some "Stage_1_to_2_SKB_Mismatch", ["1->2"]).
Proof.
  destruct (detect_packet_loss_reference
              {[ 0 := "0xAA"; 1 := "0xAA"; 2 := "0xBB" ]}) as [H _].
  destruct (H "0xAA" "0xAA" "0xBB") as [H12 _];
    [reflexivity | reflexivity | reflexivity |].
  apply H12. split; [reflexivity | discriminate].
Defined.

(** C9, as stated, fails on a mapping without stage 2: the pointers at
    stages 0 and 1 differ and the verdict is not lost. *)
Lemma detect_packet_loss_two_stages :
  let m : gmap Z string := {[ 0 := "0xAA"; 1 := "0xBB" ]} in
  m !! 0 = Some "0xAA" /\ m !! 1 = Some "0xBB" /\ "0xAA" <> "0xBB"
  /\ detect_packet_loss m = (false, None, [])
  /\ detect_packet_loss m <> (true, Some "Stage_0_to_1_SKB_Mismatch", ["0->1"]).
Proof. vm_compute. repeat split; discriminate. Qed.

(** C9, amended.  On every mapping that holds stages 0, 1 and 2 and whose
    pointers at stages 0 and 1 differ, the verdict is lost with the
    stage-0-to-1 reason and the corrupted list ["0->1"], whatever the
    pointer at stage 2. *)
Theorem detect_packet_loss_stage_0_to_1 (m : gmap Z string) (p0 p1 p2 : string) :
  m !! 0 = Some p0 -> m !! 1 = Some p1 -> m !! 2 = Some p2 ->
  p0 <> p1 ->
  detect_packet_loss m = (true, Some "Stage_0_to_1_SKB_Mismatch", ["0->1"]).
Proof.
  intros H0 H1 H2 Hne.
  rewrite (detect_packet_loss_present m p0 p1 p2 H0 H1 H2).
  apply string_eqb_false in Hne. rewrite Hne. reflexivity.
Qed.

Lemma detect_packet_loss_stage_0_to_1_witness :
  detect_packet_loss {[ 0 := "0xAA"; 1 := "0xBB"; 2 := "0xAA" ]}
  = (true, Some "Stage_0_to_1_SKB_Mismatch", ["0->1"]).
Proof.
  apply (detect_packet_loss_stage_0_to_1 _ "0xAA" "0xBB" "0xAA");
    [reflexivity | reflexivity | reflexivity | discriminate].
Defined.

(** ** Stage-latency resolver *)

Section Resolver.

Implicit Types (best : Best) (cands : list (string * Q)).

Lemma improve_ge best x : (snd best <= snd (improve best x))%Q.
Proof.
  unfold improve. destruct (Py.gt (snd x) (snd best)) eqn:E; simpl.
  - apply gt_true in E. lra.
  - lra.
Qed.

(** The running maximum never decreases along a scan. *)
Lemma scan_ge_start cands best :
  (snd best <= snd (fold_left improve cands best))%Q.
Proof.
  revert best. induction cands as [| x cands IH]; intros best; simpl.
  - lra.
  - specialize (IH (improve best x)). pose proof (improve_ge best x). lra.
Qed.

(** The result of a scan bounds every candidate scanned. *)
Lemma scan_upper_bound cands best x :
  x ∈ cands -> (snd x <= snd (fold_left improve cands best))%Q.
Proof.
  revert best. induction cands as [| y cands IH]; intros best Hin.
  - inversion Hin.
  - apply elem_of_cons in Hin as [-> | Hin]; simpl.
    + pose proof (scan_ge_start cands (improve best y)) as Hge.
      assert (snd y <= snd (improve best y))%Q; [| lra].
      unfold improve. destruct (Py.gt (snd y) (snd best)) eqn:E; simpl.
      * lra.
      * apply gt_false in E. lra.
    + apply IH, Hin.
Qed.

(** A scan either keeps its start, when nothing scanned is larger, or
    ends on a candidate that is strictly larger than the start. *)
Lemma scan_cases cands best :
  (fold_left improve cands best = best
   /\ forall x, x ∈ cands -> (snd x <= snd best)%Q)
  \/ (exists x, x ∈ cands /\ (snd best < snd x)%Q
      /\ fold_left improve cands best = (Some (fst x), snd x)).
Proof.
  revert best. induction cands as [| y cands IH]; intros best; simpl.
  - left. split; [reflexivity | intros x Hx; inversion Hx].
  - destruct (IH (improve best y)) as [[Heq Hle] | (x & Hin & Hlt & Heq)].
    + unfold improve in *. destruct (Py.gt (snd y) (snd best)) eqn:E.
      * right. exists y. apply gt_true in E.
        split; [apply list_elem_of_here | split; [exact E | exact Heq]].
      * left. split; [exact Heq |].
        intros x Hx. apply elem_of_cons in Hx as [-> | Hx].
        -- apply gt_false in E. exact E.
        -- apply Hle, Hx.
    + right. exists x. split; [apply list_elem_of_further, Hin |].
      split; [| exact Heq].
      pose proof (improve_ge best y). lra.
Qed.

(** A candidate that beats everything before it, and is matched by
    nothing after it, is the one a scan ends on. *)
Lemma scan_first_seen pre x post best :
  (snd best < snd x)%Q ->
  (forall y, y ∈ pre -> (snd y < snd x)%Q) ->
  (forall y, y ∈ post -> (snd y <= snd x)%Q) ->
  fold_left improve (pre ++ x :: post) best = (Some (fst x), snd x).
Proof.
  intros Hbest Hpre Hpost. rewrite fold_left_app. simpl.
  assert (snd (fold_left improve pre best) < snd x)%Q as Hlt.
  { destruct (scan_cases pre best) as [[-> _] | (y & Hy & _ & ->)].
    - exact Hbest.
    - simpl. apply Hpre, Hy. }
  unfold improve at 2. apply gt_true in Hlt. rewrite Hlt.
  destruct (scan_cases post (Some (fst x), snd x))
    as [[-> _] | (y & Hy & Hgt & _)]; [reflexivity |].
  simpl in Hgt. specialize (Hpost y Hy). lra.
Qed.

(** On a nonnegative maximum the two loop bodies of the code are the
    specification's strict improvement, behind the corruption filter for
    path 1 and behind nothing for path 2. *)
Lemma path1_step_improve corrupted best kv :
  (0 <= snd best)%Q ->
  path1_step corrupted best kv =
    if negb (Py.in_list (fst kv) corrupted)
    then improve best ("Path1_" +:+ fst kv, snd kv)
    else best.
Proof.
  intros Hb. destruct kv as [k v]. unfold path1_step, improve. simpl.
  destruct (Py.in_list k corrupted); simpl.
  - rewrite andb_false_r. reflexivity.
  - rewrite andb_true_r. destruct (Py.gt v (snd best)) eqn:E.
    + rewrite (gt_nonneg_truthy v (snd best) Hb E). reflexivity.
    + destruct (Py.truthy v); reflexivity.
Qed.

Lemma path2_step_improve best kv :
  (0 <= snd best)%Q ->
  path2_step best kv = improve best ("Path2_" +:+ fst kv, snd kv).
Proof.
  intros Hb. destruct kv as [k v]. unfold path2_step, improve. simpl.
  destruct (Py.gt v (snd best)) eqn:E.
  - rewrite (gt_nonneg_truthy v (snd best) Hb E). reflexivity.
  - rewrite andb_false_r. reflexivity.
Qed.

Lemma path1_scan corrupted path1 best :
  (0 <= snd best)%Q ->
  fold_left (path1_step corrupted) path1 best
  = fold_left improve (path1_candidates path1 corrupted) best.
Proof.
  revert best. induction path1 as [| kv path1 IH]; intros best Hb.
  - reflexivity.
  - simpl. rewrite (path1_step_improve corrupted best kv Hb).
    unfold path1_candidates in *. simpl.
    destruct (negb (Py.in_list (fst kv) corrupted)); simpl.
    + apply IH. pose proof (improve_ge best ("Path1_" +:+ fst kv, snd kv)). lra.
    + apply IH, Hb.
Qed.

Lemma path2_scan path2 best :
  (0 <= snd best)%Q ->
  fold_left path2_step path2 best
  = fold_left improve (path2_candidates path2) best.
Proof.
  revert best. induction path2 as [| kv path2 IH]; intros best Hb.
  - reflexivity.
  - simpl. rewrite (path2_step_improve best kv Hb).
    apply IH. pose proof (improve_ge best ("Path2_" +:+ fst kv, snd kv)). lra.
Qed.

(** The code is the first-seen maximum over the candidates, path 1
    before path 2. *)
Lemma find_max_first_seen path1 path2 corrupted :
  find_max_latency_excluding_corrupted path1 path2 corrupted
  = first_seen_max (candidates path1 path2 corrupted).
Proof.
  unfold find_max_latency_excluding_corrupted, first_seen_max, candidates.
  rewrite fold_left_app.
  rewrite (path1_scan corrupted path1 (None, 0%Q)); [| simpl; lra].
  apply path2_scan.
  pose proof (scan_ge_start (path1_candidates path1 corrupted) (None, 0%Q)).
  simpl in *. lra.
Qed.

Lemma elem_of_path1_candidates path1 corrupted lbl v :
  (lbl, v) ∈ path1_candidates path1 corrupted <->
  exists k, lbl = "Path1_" +:+ k /\ (k, v) ∈ path1
            /\ Py.in_list k corrupted = false.
Proof.
  unfold path1_candidates. rewrite list_elem_of_fmap. split.
  - intros ([k v'] & Heq & Hin). simpl in Heq. inversion Heq; subst.
    apply list_elem_of_In, filter_In in Hin as [Hin Hok]. simpl in Hok.
    exists k. rewrite list_elem_of_In.
    repeat split; [exact Hin | apply negb_true_iff, Hok].
  - intros (k & -> & Hin & Hok). exists (k, v). split; [reflexivity |].
    apply list_elem_of_In, filter_In. rewrite <- list_elem_of_In.
    split; [exact Hin | simpl; rewrite Hok; reflexivity].
Qed.

Lemma elem_of_path2_candidates path2 lbl v :
  (lbl, v) ∈ path2_candidates path2 <->
  exists k, lbl = "Path2_" +:+ k /\ (k, v) ∈ path2.
Proof.
  unfold path2_candidates. rewrite list_elem_of_fmap. split.
  - intros ([k v'] & Heq & Hin). simpl in Heq. inversion Heq; subst.
    exists k. split; [reflexivity | exact Hin].
  - intros (k & -> & Hin). exists (k, v). split; [reflexivity | exact Hin].
Qed.

End Resolver.

Lemma in_list_true (k : string) (l : list string) :
  Py.in_list k l = true <-> k ∈ l.
Proof.
  unfold Py.in_list. rewrite existsb_exists. split.
  - intros (x & Hin & Heq). apply String.eqb_eq in Heq. subst x.
    apply list_elem_of_In, Hin.
  - intros Hin. exists k. split; [apply list_elem_of_In, Hin |].
    apply String.eqb_refl.
Qed.

Lemma in_list_false (k : string) (l : list string) :
  Py.in_list k l = false <-> k ∉ l.
Proof.
  rewrite <- in_list_true. destruct (Py.in_list k l); split; congruence.
Qed.

(** Where the result of the resolver comes from: nothing, or one of the
    candidates. *)
Lemma find_max_origin path1 path2 corrupted :
  let r := find_max_latency_excluding_corrupted path1 path2 corrupted in
  (r = (None, 0%Q)
   /\ forall x, x ∈ candidates path1 path2 corrupted -> (snd x <= 0)%Q)
  \/ (exists x, x ∈ candidates path1 path2 corrupted /\ (0 < snd x)%Q
      /\ r = (Some (fst x), snd x)).
Proof.
  simpl. rewrite find_max_first_seen. unfold first_seen_max.
  destruct (scan_cases (candidates path1 path2 corrupted) (None, 0%Q))
    as [[Heq Hle] | (x & Hin & Hlt & Heq)].
  - left. split; [exact Heq | exact Hle].
  - right. exists x. repeat split; assumption.
Qed.

(** C2.  The stage returned by the resolver is never a path-1 entry whose
    label is in the corrupted list, whatever its latency; and every path-2
    entry is considered whether or not its label is in that list: the
    returned latency is at least the latency of each path-2 entry, and the
    scan of path 2 alone gives the same result under every corrupted
    list. *)
Theorem find_max_excludes_corrupted_path1
    (path1 path2 : list (string * Q)) (corrupted : list string) :
  let r := find_max_latency_excluding_corrupted path1 path2 corrupted in
  (forall k, fst r = Some ("Path1_" +:+ k) ->
             (k ∉ corrupted) /\ ((k, snd r) ∈ path1))
  /\ (forall k v, (k, v) ∈ path2 -> (v <= snd r)%Q)
  /\ (forall other : list string,
         find_max_latency_excluding_corrupted [] path2 corrupted
         = find_max_latency_excluding_corrupted [] path2 other).
Proof.
  simpl. split; [| split; [| reflexivity]].
  - intros k Hk.
    destruct (find_max_origin path1 path2 corrupted)
      as [[Heq _] | ([lbl v] & Hin & _ & Heq)]; simpl in Heq;
      rewrite Heq in Hk |- *; simpl in Hk; [discriminate |].
    simpl. injection Hk as ->.
    apply elem_of_app in Hin as [Hin | Hin].
    + apply elem_of_path1_candidates in Hin as (k' & Heqk & Hin & Hok).
      simpl in Heqk. injection Heqk as Heqk.
      change (k = k') in Heqk. subst k'.
      split; [apply in_list_false, Hok | exact Hin].
    + apply elem_of_path2_candidates in Hin as (k' & Heqk & _).
      simpl in Heqk. discriminate.
  - intros k v Hin. rewrite find_max_first_seen.
    apply (scan_upper_bound _ _ ("Path2_" +:+ k, v)).
    apply elem_of_app. right. apply elem_of_path2_candidates.
    exists k. split; [reflexivity | exact Hin].
Qed.

Lemma find_max_excludes_corrupted_path1_witness :
  let r := find_max_latency_excluding_corrupted
             [("0->1", 900%Q); ("1->2", 5%Q)] [("0->1", 7%Q)] ["0->1"] in
  r = (Some "Path2_0->1", 7%Q) /\ (7 <= snd r)%Q.
Proof.
  split; [reflexivity |].
  apply (proj1 (proj2 (find_max_excludes_corrupted_path1
                         [("0->1", 900%Q); ("1->2", 5%Q)] [("0->1", 7%Q)]
                         ["0->1"]))
           "0->1" 7%Q).
  apply list_elem_of_here.
Defined.

(** C7, as stated, fails when the only candidate has latency zero: the
    lines below parse to a path-1 mapping with one entry, nothing is
    corrupted, a candidate exists, and the resolver returns the null
    stage. *)
Lemma find_max_zero_latency_candidate :
  parse_path_latencies ["Path 1 Latencies (us):"; "  [0->1]: 0.0 us"]
    "Path 1 Latencies" = Some [("0->1", 0%Q)]
  /\ candidates [("0->1", 0%Q)] [] [] = [("Path1_0->1", 0%Q)]
  /\ find_max_latency_excluding_corrupted [("0->1", 0%Q)] [] [] = (None, 0%Q).
Proof. vm_compute. repeat split. Qed.

(** C7, amended.  The resolver returns the null stage with latency 0
    exactly when no candidate has a positive latency; whenever some
    candidate has a positive latency it returns a candidate: a non-null
    stage label with the largest latency of the candidate set. *)
Theorem find_max_null_iff_no_positive
    (path1 path2 : list (string * Q)) (corrupted : list string) :
  let r := find_max_latency_excluding_corrupted path1 path2 corrupted in
  let cs := candidates path1 path2 corrupted in
  (r = (None, 0%Q) <-> ~ exists x, x ∈ cs /\ (0 < snd x)%Q)
  /\ (fst r = None <-> r = (None, 0%Q))
  /\ ((exists x, x ∈ cs /\ (0 < snd x)%Q) ->
      exists lbl, fst r = Some lbl /\ (lbl, snd r) ∈ cs
                  /\ forall y, y ∈ cs -> (snd y <= snd r)%Q).
Proof.
  simpl.
  pose proof (find_max_origin path1 path2 corrupted) as Horigin.
  simpl in Horigin. split; [| split].
  - split.
    + intros Heq (x & Hin & Hpos).
      destruct Horigin as [[_ Hle] | (y & _ & _ & Hy)].
      * specialize (Hle x Hin). lra.
      * rewrite Hy in Heq. discriminate.
    + intros Hnone. destruct Horigin as [[Heq _] | (y & Hin & Hpos & _)].
      * exact Heq.
      * exfalso. apply Hnone. exists y. split; assumption.
  - split.
    + intros Hfst. destruct Horigin as [[Heq _] | (y & _ & _ & Hy)].
      * exact Heq.
      * rewrite Hy in Hfst. discriminate.
    + intros ->. reflexivity.
  - intros (x & Hin & Hpos).
    destruct Horigin as [[_ Hle] | ([lbl v] & Hy & _ & Heq)].
    + specialize (Hle x Hin). lra.
    + exists lbl. rewrite Heq. simpl. split; [reflexivity |].
      split; [exact Hy |].
      intros y Hiny. pose proof (scan_upper_bound _ (None, 0%Q) y Hiny) as Hub.
      fold (first_seen_max (candidates path1 path2 corrupted)) in Hub.
      rewrite <- find_max_first_seen, Heq in Hub. exact Hub.
Qed.

Lemma find_max_null_iff_no_positive_witness :
  exists lbl,
    fst (find_max_latency_excluding_corrupted
           [("0->1", 3%Q)] [("0->1", 7%Q)] []) = Some lbl.
Proof.
  destruct (proj2 (proj2 (find_max_null_iff_no_positive
                            [("0->1", 3%Q)] [("0->1", 7%Q)] [])))
    as (lbl & Hlbl & _).
  - exists ("Path1_0->1", 3%Q). split; [apply list_elem_of_here | reflexivity].
  - exists lbl. exact Hlbl.
Defined.

(** The dominant stage of a parsed record is the resolver's answer on the
    record's own path latencies and corrupted stages. *)
Lemma parse_session_block_max block d file src dst (r : Parsed) :
  parse_session_block block d file src dst = Some r ->
  (max_stage r, max_latency r)
  = find_max_latency_excluding_corrupted
      (path1_latencies r) (path2_latencies r) (corrupted_stages r).
Proof.
  unfold parse_session_block. intros H.
  repeat match type of H with
         | (mbind _ ?o) = Some _ =>
             let E := fresh "E" in destruct o eqn:E; simpl in H; [| discriminate]
         | (let '(_, _) := ?p in _) = Some _ =>
             let E := fresh "E" in destruct p eqn:E; simpl in H
         end.
  injection H as <-. simpl. congruence.
Qed.

(** ** Bidirectional analyzer *)

(** C3.  The overall dominant stage and latency of a matched pair are
    those of the direction with the larger maximum latency, the stage
    label tagged with that direction; on equal maxima the outgoing
    direction is chosen.  In particular an outgoing maximum of 120 with an
    incoming maximum of 340 gives a stage tagged INCOMING and latency
    340. *)
Theorem analyze_pair_overall_max (o i : Session) (key : string) :
  let a := analyze_single_session_pair o i key in
  ((max_latency i <= max_latency o)%Q ->
   a_max_stage a = Some ("OUTGOING_" +:+ Py.str_opt (max_stage o))
   /\ a_max_latency a = max_latency o)
  /\ ((max_latency o < max_latency i)%Q ->
      a_max_stage a = Some ("INCOMING_" +:+ Py.str_opt (max_stage i))
      /\ a_max_latency a = max_latency i)
  /\ (max_latency o = 120%Q -> max_latency i = 340%Q ->
      a_max_stage a = Some ("INCOMING_" +:+ Py.str_opt (max_stage i))
      /\ a_max_latency a = 340%Q).
Proof.
  simpl. unfold overall_max.
  assert (forall P : Prop, (max_latency o < max_latency i)%Q ->
            ((Py.ge (max_latency o) (max_latency i) = false) -> P) -> P)
    as Hlt by (intros P H HP; apply HP, ge_false, H).
  split; [| split].
  - intros H. apply ge_true in H. rewrite H. split; reflexivity.
  - intros H. apply (Hlt _ H). intros ->. split; reflexivity.
  - intros Ho Hi. assert (max_latency o < max_latency i)%Q as H
        by (rewrite Ho, Hi; reflexivity).
    apply (Hlt _ H). intros ->. simpl. split; [reflexivity | exact Hi].
Qed.

Lemma analyze_pair_overall_max_witness :
  let a := analyze_single_session_pair Samples.out_7_3 Samples.in_7_3 "A_7_3" in
  a_max_stage a = Some "INCOMING_Path2_2->3" /\ a_max_latency a = 340%Q.
Proof.
  apply (proj2 (proj2 (analyze_pair_overall_max
                         Samples.out_7_3 Samples.in_7_3 "A_7_3")));
    reflexivity.
Defined.

(** C6, as stated, fails when a total round-trip value is present and
    zero: the line below parses to the value 0, both records then carry a
    total round-trip value, and the delay is absent instead of 50. *)
Lemma physical_delay_zero_rtt :
  let o := Samples.session "A" OUTGOING 7 3 false None 0 (Some 0%Q) in
  let i := Samples.session "A" INCOMING 7 3 false None 0 (Some 100%Q) in
  parse_total_rtt ["Total RTT: 0.0 us"] = Some (Some 0%Q)
  /\ total_rtt o = Some 0%Q /\ total_rtt i = Some 100%Q
  /\ a_physical_network_delay (analyze_single_session_pair o i "A_7_3") = None.
Proof. vm_compute. repeat split. Qed.

(** *** Binary64: sign and symmetry of the half absolute difference *)

Lemma of_Q_zero (x : Q) : (x == 0)%Q -> Float64.of_Q x = S754_zero false.
Proof.
  unfold Qeq. simpl. rewrite Z.mul_1_r. intros H.
  unfold Float64.of_Q. rewrite H. reflexivity.
Qed.

Lemma binary_round_aux_sign s m e l :
  Float64.negative (binary_round_aux Float64.prec Float64.emax s m e l) = false
  \/ Float64.negative (binary_round_aux Float64.prec Float64.emax s m e l) = s.
Proof.
  unfold binary_round_aux.
  destruct (shr_fexp _ _ m e l) as [mrs' e'].
  destruct (shr_fexp _ _ _ e' _) as [mrs'' e''].
  destruct (shr_m mrs''); [right; reflexivity | | left; reflexivity].
  destruct (_ <=? _); right; reflexivity.
Qed.

(** [abs(z) / 2] never has its sign bit set. *)
Lemma half_abs_not_negative z :
  Float64.negative (Float64.div (Float64.abs z) Float64.two) = false.
Proof.
  destruct z as [s | s | | s m e]; try reflexivity.
  unfold Float64.div, Float64.abs, Float64.two, SFabs, SFdiv.
  destruct (SFdiv_core_binary _ _ _ _ _ _) as [[mz ez] lz].
  destruct (binary_round_aux_sign (xorb false false) mz ez lz) as [H | H];
    rewrite H; reflexivity.
Qed.

(** [a - a] is [+0.0] for every finite [a]. *)
Lemma sub_diag a :
  (forall s, a <> S754_infinity s) -> a <> S754_nan ->
  Float64.sub a a = S754_zero false.
Proof.
  intros Hinf Hnan. destruct a as [s | s | | s m e].
  - destruct s; reflexivity.
  - destruct (Hinf s). reflexivity.
  - destruct Hnan. reflexivity.
  - unfold Float64.sub, SFsub. rewrite Z.sub_diag. reflexivity.
Qed.

Lemma binary_round_aux_abs s m e l :
  SFabs (binary_round_aux Float64.prec Float64.emax s m e l)
  = SFabs (binary_round_aux Float64.prec Float64.emax false m e l).
Proof.
  unfold binary_round_aux.
  destruct (shr_fexp _ _ m e l) as [mrs' e'].
  destruct (shr_fexp _ _ _ e' _) as [mrs'' e''].
  destruct (shr_m mrs''); [reflexivity | | reflexivity].
  destruct (_ <=? _); reflexivity.
Qed.

Lemma binary_normalize_abs_opp m e :
  SFabs (binary_normalize Float64.prec Float64.emax (- m) e false)
  = SFabs (binary_normalize Float64.prec Float64.emax m e false).
Proof.
  destruct m as [| p | p]; simpl; [reflexivity | |];
    unfold binary_round; destruct (shl_align p e _) as [mz ez];
    rewrite (binary_round_aux_abs true); reflexivity.
Qed.

(** [abs(a - b)] and [abs(b - a)] are the same double. *)
Lemma abs_sub_comm a b :
  Float64.abs (Float64.sub a b) = Float64.abs (Float64.sub b a).
Proof.
  unfold Float64.abs, Float64.sub.
  destruct a as [sa | sa | | sa ma ea], b as [sb | sb | | sb mb eb];
    try reflexivity; try (destruct sa, sb; reflexivity).
  unfold SFsub. rewrite (Z.min_comm eb ea).
  rewrite <- binary_normalize_abs_opp. f_equal. f_equal. lia.
Qed.

Lemma physical_network_delay_comm (o i : Session) :
  physical_network_delay o i = physical_network_delay i o.
Proof.
  unfold physical_network_delay.
  rewrite (andb_comm (Float64.truthy_opt (total_rtt i))).
  destruct (_ && _); [| reflexivity].
  destruct (total_rtt o), (total_rtt i); try reflexivity.
  rewrite abs_sub_comm. reflexivity.
Qed.

(** [Float64.of_Q] rounds to nearest, ties to even: 0.1, the tie 2^53 + 1
    (down to 2^53) and the tie 2^53 + 3 (up to 2^53 + 4), the smallest
    subnormal, a value that underflows to zero and one that overflows. *)
Example of_Q_rounds :
  Float64.of_Q (1 # 10) = S754_finite false 7205759403792794 (-56)
  /\ Float64.of_Q 9007199254740993 = S754_finite false 4503599627370496 1
  /\ Float64.of_Q 9007199254740995 = S754_finite false 4503599627370498 1
  /\ Float64.of_Q (5 # Pos.pow 10 324) = S754_finite false 1 (-1074)
  /\ Float64.of_Q (1 # Pos.pow 10 400) = S754_zero false
  /\ Float64.of_Q (Zpos (Pos.pow 10 400) # 1) = S754_infinity false
  /\ Float64.of_Q 2 = Float64.two.
Proof. vm_compute. repeat split. Qed.

(** The computation rounds: for the totals 812.4 and 95.7 the delay is the
    double nearest to 358.34999999999997, which is not the double nearest
    to 358.35; for 500 and 800 it is 150. *)
Example physical_delay_rounds :
  let o := Samples.session "A" OUTGOING 7 3 false None 0 (Some (4062 # 5)%Q) in
  let i := Samples.session "A" INCOMING 7 3 false None 0 (Some (957 # 10)%Q) in
  a_physical_network_delay (analyze_single_session_pair o i "A_7_3")
  = Some (S754_finite false 6304159869016473 (-44))
  /\ Float64.of_Q (35834999999999997 # 100000000000000)
     = S754_finite false 6304159869016473 (-44)
  /\ Float64.of_Q (35835 # 100) = S754_finite false 6304159869016474 (-44)
  /\ Float64.of_Q 150 = S754_finite false 5277655813324800 (-45).
Proof. vm_compute. repeat split. Qed.

(** C6, amended.  The estimated one-way physical network delay is half
    the absolute difference of the two total round-trip values, computed
    on the doubles as [abs(o - i) / 2], whenever both are present and
    nonzero, and is absent whenever either one is absent or zero (a value
    so small that its double is zero included).  A delay that is present
    never has its sign bit set, it is the same when the two directions are
    exchanged, and it is [0.0] when the two totals are the same finite
    double. *)
Theorem physical_delay_half_difference (o i : Session) (key : string) :
  let a := analyze_single_session_pair o i key in
  (forall x y : Q,
      total_rtt o = Some x -> total_rtt i = Some y ->
      Float64.is_zero (Float64.of_Q x) = false ->
      Float64.is_zero (Float64.of_Q y) = false ->
      a_physical_network_delay a
      = Some (Float64.div
                (Float64.abs (Float64.sub (Float64.of_Q x) (Float64.of_Q y)))
                Float64.two))
  /\ (total_rtt o = None \/ total_rtt i = None ->
      a_physical_network_delay a = None)
  /\ (forall x : Q,
         (total_rtt o = Some x \/ total_rtt i = Some x) -> (x == 0)%Q ->
         a_physical_network_delay a = None)
  /\ (forall x : Q,
         (total_rtt o = Some x \/ total_rtt i = Some x) ->
         Float64.is_zero (Float64.of_Q x) = true ->
         a_physical_network_delay a = None)
  /\ (forall d, a_physical_network_delay a = Some d ->
                Float64.negative d = false)
  /\ a_physical_network_delay (analyze_single_session_pair i o key)
     = a_physical_network_delay a
  /\ (forall x y s m e,
         total_rtt o = Some x -> total_rtt i = Some y ->
         Float64.of_Q x = S754_finite s m e ->
         Float64.of_Q y = S754_finite s m e ->
         a_physical_network_delay a = Some (S754_zero false)).
Proof.
  simpl.
  assert (forall x : Q,
             (total_rtt o = Some x \/ total_rtt i = Some x) ->
             Float64.is_zero (Float64.of_Q x) = true ->
             physical_network_delay o i = None) as Hzero.
  { unfold physical_network_delay.
    intros x [H | H] Hx; rewrite H; simpl; unfold Float64.truthy;
      rewrite Hx; simpl; [reflexivity |].
    rewrite andb_false_r. reflexivity. }
  split; [| split; [| split; [| split; [| split; [| split]]]]].
  - unfold physical_network_delay. intros x y Ho Hi Hx Hy. rewrite Ho, Hi.
    simpl. unfold Float64.truthy. rewrite Hx, Hy. reflexivity.
  - unfold physical_network_delay.
    intros [H | H]; rewrite H; simpl; [reflexivity |].
    rewrite andb_false_r. reflexivity.
  - intros x Hx Hx0. apply (Hzero x Hx). rewrite (of_Q_zero x Hx0). reflexivity.
  - exact Hzero.
  - unfold physical_network_delay. intros d.
    destruct (_ && _); [| discriminate].
    destruct (total_rtt o), (total_rtt i); try discriminate.
    intros H. injection H as <-. apply half_abs_not_negative.
  - apply physical_network_delay_comm.
  - unfold physical_network_delay. intros x y s m e Ho Hi Hx Hy.
    assert (Float64.sub (Float64.of_Q x) (Float64.of_Q y) = S754_zero false)
      as Hs by (rewrite Hx, Hy; apply sub_diag; discriminate).
    rewrite Ho, Hi. unfold Float64.truthy_opt, Float64.truthy.
    rewrite Hs, Hx, Hy. reflexivity.
Qed.

Lemma physical_delay_half_difference_witness :
  a_physical_network_delay
    (analyze_single_session_pair Samples.out_7_3 Samples.in_7_3 "A_7_3")
  = Some (Float64.div
            (Float64.abs (Float64.sub (Float64.of_Q 500) (Float64.of_Q 800)))
            Float64.two)
  /\ Float64.div
       (Float64.abs (Float64.sub (Float64.of_Q 500) (Float64.of_Q 800)))
       Float64.two
     = Float64.of_Q 150.
Proof.
  split.
  - apply (proj1 (physical_delay_half_difference
                    Samples.out_7_3 Samples.in_7_3 "A_7_3") 500%Q 800%Q);
      reflexivity.
  - vm_compute. reflexivity.
Defined.

(** ** Matching on text of a known shape *)

Section Matching.

Context {R : Type}.
Implicit Types (p q : ascii -> bool) (k : string -> option R).

Lemma strip_prefix_app (l s : string) :
  Text.strip_prefix l (l +:+ s) = Some s.
Proof.
  induction l as [| c l IH]; simpl; [reflexivity |].
  rewrite Ascii.eqb_refl. exact IH.
Qed.

(** A greedy repetition that cannot start hands over at once. *)
Lemma star_greedy_stop p s k :
  Text.stops p s -> Text.star_greedy p s k = k s.
Proof. destruct s as [| c s]; simpl; [reflexivity |]. intros ->. reflexivity. Qed.

(** A greedy repetition takes a whole run of its class when the rest of
    the pattern succeeds after it. *)
Lemma star_greedy_take p a rest k r :
  Text.all_chars p a = true -> Text.stops p rest -> k rest = Some r ->
  Text.star_greedy p (a +:+ rest) k = Some r.
Proof.
  induction a as [| c a IH]; simpl; intros Ha Hstop Hk.
  - rewrite star_greedy_stop by exact Hstop. exact Hk.
  - apply andb_true_iff in Ha as [Hc Ha]. rewrite Hc.
    rewrite (IH Ha Hstop Hk). reflexivity.
Qed.

(** A lazy repetition walks over the characters at which the rest of the
    pattern cannot start. *)
Lemma star_lazy_skip p q a rest k :
  (forall c s, q c = true -> k (String c s) = None) ->
  Text.all_chars (fun c => p c && q c) a = true ->
  Text.star_lazy p (a +:+ rest) k = Text.star_lazy p rest k.
Proof.
  intros Hk. induction a as [| c a IH]; simpl; intros Ha; [reflexivity |].
  apply andb_true_iff in Ha as [Hc Ha]. apply andb_true_iff in Hc as [Hp Hq].
  rewrite (Hk c _ Hq), Hp. apply IH, Ha.
Qed.

End Matching.

Lemma search_here (r : Text.regex) (s : string) (m : Text.captures) :
  Text.run r s [] (fun _ m => Some m) = Some m -> Text.search r s = Some m.
Proof. intros H. destruct s; simpl; rewrite H; reflexivity. Qed.

Lemma search_skip (q : ascii -> bool) (r : Text.regex) (a rest : string) :
  (forall c s, q c = true ->
               Text.run r (String c s) [] (fun _ m => Some m) = None) ->
  Text.all_chars q a = true ->
  Text.search r (a +:+ rest) = Text.search r rest.
Proof.
  intros Hr. induction a as [| c a IH]; simpl; intros Ha; [reflexivity |].
  apply andb_true_iff in Ha as [Hc Ha]. rewrite (Hr c _ Hc). apply IH, Ha.
Qed.

Lemma length_append (a rest : string) :
  String.length (a +:+ rest) = (String.length a + String.length rest)%nat.
Proof.
  induction a as [| c a IH]; simpl; [reflexivity | rewrite IH; reflexivity].
Qed.

Lemma substring_prefix (a rest : string) :
  substring 0 (String.length a) (a +:+ rest) = a.
Proof.
  induction a as [| c a IH]; simpl.
  - destruct rest; reflexivity.
  - rewrite IH. reflexivity.
Qed.

(** The text of a group is what its pattern consumed. *)
Lemma consumed_app (a rest : string) : Text.consumed (a +:+ rest) rest = a.
Proof.
  unfold Text.consumed. rewrite length_append.
  replace (String.length a + String.length rest - String.length rest)%nat
    with (String.length a) by lia.
  apply substring_prefix.
Qed.

Lemma digit_not_space (c : ascii) :
  Text.is_digit c = true -> Text.is_space c = false.
Proof.
  unfold Text.is_digit, Text.is_space, Text.between.
  intros H. apply andb_true_iff in H as [H1 H2]. apply N.leb_le in H1, H2.
  repeat (apply orb_false_intro); try apply andb_false_iff;
    rewrite ?N.leb_gt, ?N.eqb_neq; lia.
Qed.

Lemma space_not_bracket (c : ascii) :
  Text.is_space c = true -> Ascii.eqb "[" c = false.
Proof.
  intros H. destruct (Ascii.eqb "[" c) eqn:E; [| reflexivity].
  apply Ascii.eqb_eq in E. subst c. discriminate H.
Qed.

(** The match of the latency pattern at the bracket of a line
    "[a->b]<label>: N/A us". *)
Lemma run_placeholder (a b label : string) :
  Text.all_chars Text.is_digit a = true -> a <> "" ->
  Text.all_chars Text.is_digit b = true -> b <> "" ->
  Text.all_chars (fun c => Text.not_newline c && negb (Ascii.eqb c ":")) label
  = true ->
  Text.run latency_line_re
    ("[" +:+ a +:+ "->" +:+ b +:+ "]" +:+ label +:+ ": N/A us") []
    (fun _ m => Some m)
  = Some [(3%nat, "N/A"); (2%nat, b); (1%nat, a)].
Proof.
  intros Ha Hane Hb Hbne Hl.
  destruct a as [| a0 a]; [congruence |]. destruct b as [| b0 b]; [congruence |].
  simpl in Ha, Hb. apply andb_true_iff in Ha as [Ha0 Ha], Hb as [Hb0 Hb].
  unfold latency_line_re. cbn [Text.run Text.Plus].
  rewrite strip_prefix_app.
  rewrite star_greedy_stop by (simpl; apply digit_not_space, Ha0).
  change (String a0 a +:+ ?r) with (String a0 (a +:+ r)). cbv beta iota.
  rewrite Ha0.
  apply star_greedy_take; [exact Ha | reflexivity |].
  rewrite strip_prefix_app.
  change (String b0 b +:+ ?r) with (String b0 (b +:+ r)). cbv beta iota.
  rewrite Hb0.
  apply star_greedy_take; [exact Hb | reflexivity |].
  rewrite star_greedy_stop by reflexivity.
  rewrite strip_prefix_app.
  rewrite (star_lazy_skip _ (fun c => negb (Ascii.eqb c ":")) label).
  - change (String b0 (b +:+ ?r)) with (String b0 b +:+ r).
    change (String a0 (a +:+ ?r)) with (String a0 a +:+ r).
    rewrite !consumed_app. reflexivity.
  - intros c s Hc. cbn [Text.strip_prefix]. rewrite Ascii.eqb_sym.
    apply negb_true_iff in Hc. rewrite Hc. reflexivity.
  - exact Hl.
Qed.

(** Every line "<indent>[a->b]<label>: N/A us" is read as the label
    "a->b" with the placeholder as its value. *)
Lemma latency_line_placeholder (indent a b label : string) :
  Text.all_chars Text.is_space indent = true ->
  Text.all_chars Text.is_digit a = true -> a <> "" ->
  Text.all_chars Text.is_digit b = true -> b <> "" ->
  Text.all_chars (fun c => Text.not_newline c && negb (Ascii.eqb c ":")) label
  = true ->
  latency_line
    (indent +:+ "[" +:+ a +:+ "->" +:+ b +:+ "]" +:+ label +:+ ": N/A us")
  = Some (a +:+ "->" +:+ b, "N/A").
Proof.
  intros Hi Ha Hane Hb Hbne Hl. unfold latency_line.
  rewrite (search_skip Text.is_space _ indent); [| | exact Hi].
  - rewrite (search_here _ _ _ (run_placeholder a b label Ha Hane Hb Hbne Hl)).
    reflexivity.
  - intros c s Hc. unfold latency_line_re. cbn [Text.run Text.strip_prefix].
    rewrite (space_not_bracket c Hc). reflexivity.
Qed.

(** ** Latency-section parser *)

Lemma dict_get_set {V : Type} (d : list (string * V)) (k k' : string) (v : V) :
  Py.dict_get (Py.dict_set d k v) k'
  = if String.eqb k k' then Some v else Py.dict_get d k'.
Proof.
  induction d as [| [k0 v0] d IH]; simpl.
  - destruct (String.eqb k k'); reflexivity.
  - destruct (String.eqb k0 k) eqn:E0; simpl.
    + apply String.eqb_eq in E0. subst k0.
      destruct (String.eqb k k'); reflexivity.
    + destruct (String.eqb k0 k') eqn:E1; [| exact IH].
      apply String.eqb_eq in E1. subst k0.
      rewrite String.eqb_sym, E0. reflexivity.
Qed.

(** What one line does to the state of the loop, when its value is the
    placeholder: the dictionary is passed on as it is. *)
Lemma path_latencies_loop_placeholder name line rest b lat k :
  latency_line line = Some (k, "N/A") ->
  path_latencies_loop name (line :: rest) b lat
  = path_latencies_loop name rest true lat
  \/ path_latencies_loop name (line :: rest) b lat = Some lat
  \/ path_latencies_loop name (line :: rest) b lat
     = path_latencies_loop name rest b lat.
Proof.
  intros Hline. simpl. rewrite Hline. simpl.
  destruct (Text.startswith (Text.strip line) name); [left; reflexivity |].
  destruct ((Text.startswith (Text.strip line) "Path"
             || Text.startswith (Text.strip line) "Total") && b);
    [right; left; reflexivity |].
  right. right. destruct (b && _); reflexivity.
Qed.

(** Every entry of the dictionary the loop returns was there at the start
    or was read from a line whose value is a number. *)
Lemma path_latencies_loop_origin name lines b lat d k v :
  path_latencies_loop name lines b lat = Some d ->
  Py.dict_get d k = Some v ->
  Py.dict_get lat k = Some v
  \/ exists line tok,
      line ∈ lines /\ latency_line line = Some (k, tok)
      /\ tok <> "N/A" /\ Text.float tok = Some v.
Proof.
  revert b lat. induction lines as [| line rest IH]; intros b lat Hloop Hget.
  - simpl in Hloop. injection Hloop as <-. left. exact Hget.
  - assert (forall b' lat',
               path_latencies_loop name rest b' lat' = Some d ->
               Py.dict_get lat' k = Some v
               \/ exists l tok, l ∈ line :: rest /\ latency_line l = Some (k, tok)
                                /\ tok <> "N/A" /\ Text.float tok = Some v)
      as Hrest.
    { intros b' lat' H'. destruct (IH b' lat' H' Hget)
        as [Hl | (l & tok & Hin & Hrem)]; [left; exact Hl |].
      right. exists l, tok. split; [apply list_elem_of_further, Hin | exact Hrem]. }
    simpl in Hloop.
    destruct (Text.startswith (Text.strip line) name); [apply (Hrest _ _ Hloop) |].
    destruct ((Text.startswith (Text.strip line) "Path"
               || Text.startswith (Text.strip line) "Total") && b).
    { injection Hloop as <-. left. exact Hget. }
    destruct (b && negb (String.eqb (Text.strip line) "")) eqn:Ein;
      [| apply (Hrest _ _ Hloop)].
    destruct (latency_line line) as [[stage_key latency_str] |] eqn:Eline;
      [| apply (Hrest _ _ Hloop)].
    destruct (String.eqb latency_str "N/A") eqn:Ena; simpl in Hloop;
      [apply (Hrest _ _ Hloop) |].
    destruct (Text.float latency_str) as [x |] eqn:Efloat; [| discriminate].
    destruct (Hrest _ _ Hloop) as [Hl | Hex]; [| right; exact Hex].
    rewrite dict_get_set in Hl.
    destruct (String.eqb stage_key k) eqn:Ek; [| left; exact Hl].
    apply String.eqb_eq in Ek. subst stage_key. injection Hl as ->.
    right. exists line, latency_str.
    split; [apply list_elem_of_here |].
    split; [exact Eline |].
    split; [apply String.eqb_neq, Ena | exact Efloat].
Qed.

(** *** The lines of a section *)

Lemma elem_of_dict_set {V : Type} (d : list (string * V)) (k k' : string) (v v' : V) :
  (k', v') ∈ Py.dict_set d k v -> (k', v') = (k, v) \/ (k', v') ∈ d.
Proof.
  induction d as [| [k0 v0] d IH]; simpl.
  - intros H. apply list_elem_of_singleton in H. left. exact H.
  - destruct (String.eqb k0 k) eqn:E.
    + apply String.eqb_eq in E. subst k0.
      intros H. apply elem_of_cons in H as [H | H]; [left; exact H |].
      right. apply list_elem_of_further, H.
    + intros H. apply elem_of_cons in H as [H | H].
      * right. rewrite H. apply list_elem_of_here.
      * destruct (IH H) as [E' | E']; [left; exact E' |].
        right. apply list_elem_of_further, E'.
Qed.

Lemma section_lines_from_lines name lines : forall b line,
  line ∈ section_lines_from name lines b ->
  line ∈ lines
  /\ Text.startswith (Text.strip line) name = false
  /\ Text.startswith (Text.strip line) "Path" = false
  /\ Text.startswith (Text.strip line) "Total" = false
  /\ Text.strip line <> "".
Proof.
  induction lines as [| l rest IH]; intros b line Hin; simpl in Hin.
  - inversion Hin.
  - assert (forall b', line ∈ section_lines_from name rest b' ->
              line ∈ l :: rest
              /\ Text.startswith (Text.strip line) name = false
              /\ Text.startswith (Text.strip line) "Path" = false
              /\ Text.startswith (Text.strip line) "Total" = false
              /\ Text.strip line <> "") as Hrest.
    { intros b' H. destruct (IH b' line H) as (H1 & H2).
      split; [apply list_elem_of_further, H1 | exact H2]. }
    destruct (Text.startswith (Text.strip l) name) eqn:En; [apply (Hrest _ Hin) |].
    destruct ((Text.startswith (Text.strip l) "Path"
               || Text.startswith (Text.strip l) "Total") && b) eqn:Ept;
      [inversion Hin |].
    destruct (b && negb (String.eqb (Text.strip l) "")) eqn:Eb;
      [| apply (Hrest _ Hin)].
    apply elem_of_cons in Hin as [-> | Hin]; [| apply (Hrest _ Hin)].
    apply andb_true_iff in Eb as [-> Hne]. rewrite andb_true_r in Ept.
    apply orb_false_iff in Ept as [Hp Ht].
    split; [apply list_elem_of_here |].
    repeat split; try assumption.
    apply negb_true_iff, String.eqb_neq in Hne. exact Hne.
Qed.

Lemma path_latencies_loop_section_origin name lines : forall b lat d k v,
  path_latencies_loop name lines b lat = Some d ->
  (k, v) ∈ d ->
  (k, v) ∈ lat
  \/ exists line tok,
      line ∈ section_lines_from name lines b
      /\ latency_line line = Some (k, tok)
      /\ tok <> "N/A" /\ Text.float tok = Some v.
Proof.
  induction lines as [| line rest IH]; intros b lat d k v Hloop Hin.
  - simpl in Hloop. injection Hloop as <-. left. exact Hin.
  - simpl in Hloop. simpl.
    destruct (Text.startswith (Text.strip line) name);
      [apply (IH _ _ _ _ _ Hloop Hin) |].
    destruct ((Text.startswith (Text.strip line) "Path"
               || Text.startswith (Text.strip line) "Total") && b).
    { injection Hloop as <-. left. exact Hin. }
    destruct (b && negb (String.eqb (Text.strip line) "")) eqn:Ein;
      [| apply (IH _ _ _ _ _ Hloop Hin)].
    assert (forall lat',
               path_latencies_loop name rest b lat' = Some d ->
               (k, v) ∈ lat'
               \/ exists l tok,
                   l ∈ line :: section_lines_from name rest b
                   /\ latency_line l = Some (k, tok)
                   /\ tok <> "N/A" /\ Text.float tok = Some v) as Hrest.
    { intros lat' H'. destruct (IH _ _ _ _ _ H' Hin)
        as [Hl | (l & tok & Hl & Hrem)]; [left; exact Hl |].
      right. exists l, tok. split; [apply list_elem_of_further, Hl | exact Hrem]. }
    destruct (latency_line line) as [[stage_key latency_str] |] eqn:Eline;
      [| apply (Hrest _ Hloop)].
    destruct (String.eqb latency_str "N/A") eqn:Ena; simpl in Hloop;
      [apply (Hrest _ Hloop) |].
    destruct (Text.float latency_str) as [x |] eqn:Efloat; [| discriminate].
    destruct (Hrest _ Hloop) as [Hl | Hex]; [| right; exact Hex].
    apply elem_of_dict_set in Hl as [Heq | Hl]; [| left; exact Hl].
    injection Heq as -> ->.
    right. exists line, latency_str.
    split; [apply list_elem_of_here |].
    split; [exact Eline |].
    split; [apply String.eqb_neq, Ena | exact Efloat].
Qed.

Lemma dict_get_elem_of {V : Type} (d : list (string * V)) k v :
  Py.dict_get d k = Some v -> (k, v) ∈ d.
Proof.
  induction d as [| [k0 v0] d IH]; simpl; [discriminate |].
  destruct (String.eqb k0 k) eqn:E.
  - apply String.eqb_eq in E. subst k0. intros H. injection H as ->.
    apply list_elem_of_here.
  - intros H. apply list_elem_of_further, IH, H.
Qed.

Lemma path_latencies_loop_present name lines : forall b lat d k,
  path_latencies_loop name lines b lat = Some d ->
  (Py.dict_get lat k <> None
   \/ exists line tok,
        line ∈ section_lines_from name lines b
        /\ latency_line line = Some (k, tok) /\ tok <> "N/A") ->
  Py.dict_get d k <> None.
Proof.
  induction lines as [| line rest IH]; intros b lat d k Hloop Hk.
  - simpl in Hloop. injection Hloop as <-.
    destruct Hk as [Hk | (l & tok & Hin & _)]; [exact Hk | inversion Hin].
  - simpl in Hloop, Hk.
    destruct (Text.startswith (Text.strip line) name);
      [apply (IH _ _ _ _ Hloop Hk) |].
    destruct ((Text.startswith (Text.strip line) "Path"
               || Text.startswith (Text.strip line) "Total") && b).
    { injection Hloop as <-.
      destruct Hk as [Hk | (l & tok & Hin & _)]; [exact Hk | inversion Hin]. }
    destruct (b && negb (String.eqb (Text.strip line) "")) eqn:Ein;
      [| apply (IH _ _ _ _ Hloop Hk)].
    destruct (latency_line line) as [[stage_key latency_str] |] eqn:Eline.
    + destruct (String.eqb latency_str "N/A") eqn:Ena; simpl in Hloop.
      * apply (IH _ _ _ _ Hloop).
        destruct Hk as [Hk | (l & tok & Hin & Hl & Hne)]; [left; exact Hk |].
        apply elem_of_cons in Hin as [-> | Hin].
        -- rewrite Eline in Hl. injection Hl as _ <-.
           apply String.eqb_eq in Ena. contradiction.
        -- right. exists l, tok. auto.
      * destruct (Text.float latency_str) as [x |] eqn:Efloat; [| discriminate].
        apply (IH _ _ _ _ Hloop). rewrite dict_get_set.
        destruct Hk as [Hk | (l & tok & Hin & Hl & Hne)].
        -- left. destruct (String.eqb stage_key k); [discriminate | exact Hk].
        -- apply elem_of_cons in Hin as [-> | Hin].
           ++ rewrite Eline in Hl. injection Hl as -> _.
              left. rewrite String.eqb_refl. discriminate.
           ++ right. exists l, tok. auto.
    + apply (IH _ _ _ _ Hloop).
      destruct Hk as [Hk | (l & tok & Hin & Hl & Hne)]; [left; exact Hk |].
      apply elem_of_cons in Hin as [-> | Hin].
      * rewrite Eline in Hl. discriminate.
      * right. exists l, tok. auto.
Qed.

Lemma section_lines_from_body name body tail :
  (forall l, l ∈ body ->
     Text.startswith (Text.strip l) name = false
     /\ Text.startswith (Text.strip l) "Path"
        || Text.startswith (Text.strip l) "Total" = false) ->
  (tail = []
   \/ exists t post, tail = t :: post
        /\ Text.startswith (Text.strip t) name = false
        /\ Text.startswith (Text.strip t) "Path"
           || Text.startswith (Text.strip t) "Total" = true) ->
  section_lines_from name (body ++ tail) true
  = List.filter (fun l => negb (String.eqb (Text.strip l) "")) body.
Proof.
  intros Hbody Htail. induction body as [| l body IH]; simpl.
  - destruct Htail as [-> | (t & post & -> & Hn & Hpt)]; [reflexivity |].
    simpl. rewrite Hn, Hpt. reflexivity.
  - destruct (Hbody l (list_elem_of_here _ _)) as [Hn Hpt]. rewrite Hn, Hpt.
    simpl. rewrite IH by (intros l' Hl'; apply Hbody, list_elem_of_further, Hl').
    reflexivity.
Qed.

Lemma section_lines_block name pre header body tail :
  (forall l, l ∈ pre -> Text.startswith (Text.strip l) name = false) ->
  Text.startswith (Text.strip header) name = true ->
  (forall l, l ∈ body ->
     Text.startswith (Text.strip l) name = false
     /\ Text.startswith (Text.strip l) "Path"
        || Text.startswith (Text.strip l) "Total" = false) ->
  (tail = []
   \/ exists t post, tail = t :: post
        /\ Text.startswith (Text.strip t) name = false
        /\ Text.startswith (Text.strip t) "Path"
           || Text.startswith (Text.strip t) "Total" = true) ->
  section_lines name (pre ++ header :: body ++ tail)
  = List.filter (fun l => negb (String.eqb (Text.strip l) "")) body.
Proof.
  intros Hpre Hh Hbody Htail. unfold section_lines.
  induction pre as [| l pre IH]; simpl.
  - rewrite Hh. apply section_lines_from_body; assumption.
  - rewrite (Hpre l (list_elem_of_here _ _)). rewrite andb_false_r. simpl.
    apply IH. intros l' Hl'. apply Hpre, list_elem_of_further, Hl'.
Qed.

(** The record's two latency mappings are what [parse_path_latencies]
    returns for the lines of the block. *)
Lemma parse_session_block_paths block d file src dst (r : Parsed) :
  parse_session_block block d file src dst = Some r ->
  parse_path_latencies (Text.split "010" (Text.strip block)) "Path 1 Latencies"
  = Some (path1_latencies r)
  /\ parse_path_latencies (Text.split "010" (Text.strip block))
       "Path 2 Latencies"
     = Some (path2_latencies r).
Proof.
  unfold parse_session_block. intros H.
  repeat match type of H with
         | (mbind _ ?o) = Some _ =>
             let E := fresh "E" in destruct o eqn:E; simpl in H; [| discriminate]
         | (let '(_, _) := ?p in _) = Some _ =>
             let E := fresh "E" in destruct p eqn:E; simpl in H
         end.
  injection H as <-. simpl. split; reflexivity.
Qed.

(** C5, as stated, fails when another line of the section gives the same
    label a number: the second line below has the placeholder as its
    value and belongs to the section, and the label is in the mapping,
    with the number of the first line; in the other order as well. *)
Lemma parse_path_latencies_placeholder_beside_number :
  let lines :=
    ["Path 1 Latencies (us):"; "  [1->2]: 5.0 us"; "  [1->2]: N/A us"] in
  let lines' :=
    ["Path 1 Latencies (us):"; "  [1->2]: N/A us"; "  [1->2]: 5.0 us"] in
  latency_line "  [1->2]: N/A us" = Some ("1->2", "N/A")
  /\ section_lines "Path 1 Latencies" lines
     = ["  [1->2]: 5.0 us"; "  [1->2]: N/A us"]
  /\ parse_path_latencies lines "Path 1 Latencies" = Some [("1->2", 5%Q)]
  /\ parse_path_latencies lines' "Path 1 Latencies" = Some [("1->2", 5%Q)]
  /\ Py.dict_get [("1->2", 5%Q)] "1->2" = Some 5%Q.
Proof. vm_compute. repeat split. Qed.

(** C5, amended.  A latency line whose value is the placeholder token,
    that is every line "<indent>[a->b]<label>: N/A us", is read with the
    value "N/A"; such a line stores nothing: it leaves the mapping as it
    is and does not raise.  So a label is absent from the mapping
    returned for a section exactly when no line of that section gives it
    a number, whatever other sections print for it; and every value the
    mapping holds is the number read from a line of the section, never a
    zero standing for the placeholder.  The lines of the section are the
    nonblank lines between its header and the next line that starts with
    "Path" or "Total".  The three lines of the example parse to the
    mapping with the two keys "0->1" and "2->3" and the values 12.5 and
    8.0, without a key "1->2". *)
Theorem parse_path_latencies_omits_placeholder :
  (forall indent a b label,
      Text.all_chars Text.is_space indent = true ->
      Text.all_chars Text.is_digit a = true -> a <> "" ->
      Text.all_chars Text.is_digit b = true -> b <> "" ->
      Text.all_chars (fun c => Text.not_newline c && negb (Ascii.eqb c ":"))
        label = true ->
      latency_line
        (indent +:+ "[" +:+ a +:+ "->" +:+ b +:+ "]" +:+ label +:+ ": N/A us")
      = Some (a +:+ "->" +:+ b, "N/A"))
  /\ (forall name line rest b lat k,
         latency_line line = Some (k, "N/A") ->
         path_latencies_loop name (line :: rest) b lat
         = path_latencies_loop name rest true lat
         \/ path_latencies_loop name (line :: rest) b lat = Some lat
         \/ path_latencies_loop name (line :: rest) b lat
            = path_latencies_loop name rest b lat)
  /\ (forall name lines d k,
         parse_path_latencies lines name = Some d ->
         (Py.dict_get d k = None <->
          forall line tok,
            line ∈ section_lines name lines ->
            latency_line line = Some (k, tok) -> tok = "N/A"))
  /\ (forall name lines d k v,
         parse_path_latencies lines name = Some d ->
         Py.dict_get d k = Some v ->
         exists line tok,
           line ∈ section_lines name lines /\ latency_line line = Some (k, tok)
           /\ tok <> "N/A" /\ Text.float tok = Some v)
  /\ (forall name pre header body tail,
         (forall l, l ∈ pre -> Text.startswith (Text.strip l) name = false) ->
         Text.startswith (Text.strip header) name = true ->
         (forall l, l ∈ body ->
            Text.startswith (Text.strip l) name = false
            /\ Text.startswith (Text.strip l) "Path"
               || Text.startswith (Text.strip l) "Total" = false) ->
         (tail = []
          \/ exists t post, tail = t :: post
               /\ Text.startswith (Text.strip t) name = false
               /\ Text.startswith (Text.strip t) "Path"
                  || Text.startswith (Text.strip t) "Total" = true) ->
         section_lines name (pre ++ header :: body ++ tail)
         = List.filter (fun l => negb (String.eqb (Text.strip l) "")) body)
  /\ path_latencies_loop "Path 1 Latencies"
       ["[0->1]: 12.5 us"; "[1->2]: N/A us"; "[2->3]: 8.0 us"] true []
     = Some [("0->1", (25 # 2)%Q); ("2->3", 8%Q)]
  /\ parse_path_latencies
       ["Path 1 Latencies:"; "[0->1]: 12.5 us"; "[1->2]: N/A us";
        "[2->3]: 8.0 us"] "Path 1 Latencies"
     = Some [("0->1", (25 # 2)%Q); ("2->3", 8%Q)].
Proof.
  split; [exact latency_line_placeholder |].
  split; [exact path_latencies_loop_placeholder |].
  split; [| split; [| split; [| split; vm_compute; reflexivity]]].
  - intros name lines d k Hparse. split.
    + intros Hnone line tok Hin Hline.
      destruct (decide (tok = "N/A")) as [E | E]; [exact E |].
      exfalso.
      apply (path_latencies_loop_present name lines false [] d k Hparse);
        [| exact Hnone].
      right. exists line, tok. auto.
    + intros Honly.
      destruct (Py.dict_get d k) as [v |] eqn:Hget; [| reflexivity].
      apply dict_get_elem_of in Hget.
      destruct (path_latencies_loop_section_origin name lines false [] d k v
                  Hparse Hget)
        as [Hl | (line & tok & Hin & Hline & Hne & _)]; [inversion Hl |].
      destruct Hne. apply (Honly line tok Hin Hline).
  - intros name lines d k v Hparse Hget.
    apply dict_get_elem_of in Hget.
    destruct (path_latencies_loop_section_origin name lines false [] d k v
                Hparse Hget)
      as [Hl | Hex]; [inversion Hl | exact Hex].
  - intros name pre header body tail. apply section_lines_block.
Qed.

Lemma parse_path_latencies_omits_placeholder_witness :
  latency_line "  [1->2] queue: N/A us" = Some ("1->2", "N/A")
  /\ Py.dict_get [("0->1", (25 # 2)%Q); ("2->3", 8%Q)] "1->2" = None.
Proof.
  split.
  - apply (proj1 parse_path_latencies_omits_placeholder "  " "1" "2" " queue");
      solve [reflexivity | discriminate].
  - apply (proj1 (proj2 (proj2 parse_path_latencies_omits_placeholder))
             "Path 1 Latencies"
             ["Path 1 Latencies:"; "[0->1]: 12.5 us"; "[1->2]: N/A us";
              "[2->3]: 8.0 us"; "Path 2 Latencies:"; "[1->2]: 4.0 us"]).
    + vm_compute. reflexivity.
    + intros line tok Hin.
      change (section_lines "Path 1 Latencies"
                ["Path 1 Latencies:"; "[0->1]: 12.5 us"; "[1->2]: N/A us";
                 "[2->3]: 8.0 us"; "Path 2 Latencies:"; "[1->2]: 4.0 us"])
        with ["[0->1]: 12.5 us"; "[1->2]: N/A us"; "[2->3]: 8.0 us"] in Hin.
      repeat (apply elem_of_cons in Hin as [-> | Hin];
              [vm_compute; intros H; try discriminate H;
               injection H as <-; reflexivity |]).
      inversion Hin.
Defined.

(** C8, as stated, fails on a tie at latency 0: the three candidates
    below share the maximal latency, and the resolver returns the null
    stage and not the first-seen candidate. *)
Lemma find_max_tie_at_zero :
  candidates [("0->1", 0%Q); ("1->2", 0%Q)] [("2->3", 0%Q)] []
  = [("Path1_0->1", 0%Q); ("Path1_1->2", 0%Q); ("Path2_2->3", 0%Q)]
  /\ find_max_latency_excluding_corrupted
       [("0->1", 0%Q); ("1->2", 0%Q)] [("2->3", 0%Q)] []
     = (None, 0%Q).
Proof. vm_compute. repeat split. Qed.

(** C8, amended.  The resolver scans the candidates of path 1 and then
    those of path 2, each in mapping order, and replaces the running
    maximum only on a strict improvement; so a candidate of latency
    greater than 0 that is larger than every earlier one and at least as
    large as every later one is returned, under its prefixed label, also
    when later candidates equal it; and when no candidate has a latency
    greater than 0 no candidate is returned, also on a tie at 0.  The
    total round-trip value takes no part: the dominant stage of a parsed
    record is this scan over its two path mappings alone, and every
    candidate of a parsed record is the value of a bracketed stage line of
    the block that does not start with "Total". *)
Theorem find_max_first_seen_tie_break :
  (forall path1 path2 corrupted,
      find_max_latency_excluding_corrupted path1 path2 corrupted
      = fold_left improve
          (path1_candidates path1 corrupted ++ path2_candidates path2)
          (None, 0%Q))
  /\ (forall path1 path2 corrupted pre x post,
         path1_candidates path1 corrupted ++ path2_candidates path2
         = pre ++ x :: post ->
         (0 < snd x)%Q ->
         (forall y, y ∈ pre -> (snd y < snd x)%Q) ->
         (forall y, y ∈ post -> (snd y <= snd x)%Q) ->
         find_max_latency_excluding_corrupted path1 path2 corrupted
         = (Some (fst x), snd x))
  /\ (forall path1 path2 corrupted,
         (forall y, y ∈ path1_candidates path1 corrupted
                        ++ path2_candidates path2 -> (snd y <= 0)%Q) <->
         find_max_latency_excluding_corrupted path1 path2 corrupted
         = (None, 0%Q))
  /\ (forall block d file src dst (r : Parsed),
         parse_session_block block d file src dst = Some r ->
         (max_stage r, max_latency r)
         = fold_left improve
             (path1_candidates (path1_latencies r) (corrupted_stages r)
              ++ path2_candidates (path2_latencies r))
             (None, 0%Q))
  /\ (forall block d file src dst (r : Parsed) lbl v,
         parse_session_block block d file src dst = Some r ->
         (lbl, v) ∈ path1_candidates (path1_latencies r) (corrupted_stages r)
                    ++ path2_candidates (path2_latencies r) ->
         exists line k tok,
           line ∈ Text.split "010" (Text.strip block)
           /\ Text.startswith (Text.strip line) "Total" = false
           /\ latency_line line = Some (k, tok) /\ Text.float tok = Some v
           /\ (lbl = "Path1_" +:+ k \/ lbl = "Path2_" +:+ k)).
Proof.
  split; [| split; [| split; [| split]]].
  - intros. apply find_max_first_seen.
  - intros path1 path2 corrupted pre x post Hsplit Hpos Hpre Hpost.
    rewrite find_max_first_seen. unfold first_seen_max, candidates.
    rewrite Hsplit. apply scan_first_seen; assumption.
  - intros path1 path2 corrupted.
    pose proof (find_max_origin path1 path2 corrupted) as Horigin.
    simpl in Horigin. unfold candidates in Horigin. split.
    + intros Hle. destruct Horigin as [[Heq _] | (y & Hin & Hpos & _)];
        [exact Heq |].
      specialize (Hle y Hin). lra.
    + intros Heq. destruct Horigin as [[_ Hle] | (y & _ & _ & Hy)];
        [exact Hle |].
      rewrite Hy in Heq. discriminate.
  - intros block d file src dst r Hparse.
    rewrite (parse_session_block_max _ _ _ _ _ _ Hparse).
    apply find_max_first_seen.
  - intros block d file src dst r lbl v Hparse Hin.
    destruct (parse_session_block_paths _ _ _ _ _ _ Hparse) as [H1 H2].
    assert (forall name k,
               parse_path_latencies (Text.split "010" (Text.strip block)) name
               = Some (if String.eqb name "Path 1 Latencies"
                       then path1_latencies r else path2_latencies r) ->
               (k, v) ∈ (if String.eqb name "Path 1 Latencies"
                         then path1_latencies r else path2_latencies r) ->
               exists line tok,
                 line ∈ Text.split "010" (Text.strip block)
                 /\ Text.startswith (Text.strip line) "Total" = false
                 /\ latency_line line = Some (k, tok)
                 /\ Text.float tok = Some v) as Hline.
    { intros name k Hp Hk.
      destruct (path_latencies_loop_section_origin name _ false [] _ k v Hp Hk)
        as [Hl | (line & tok & Hsec & Hlat & _ & Hfloat)]; [inversion Hl |].
      apply section_lines_from_lines in Hsec as (Hmem & _ & _ & Htotal & _).
      exists line, tok. auto. }
    apply elem_of_app in Hin as [Hin | Hin].
    + apply elem_of_path1_candidates in Hin as (k & -> & Hk & _).
      destruct (Hline "Path 1 Latencies" k H1 Hk) as (line & tok & Hrem).
      exists line, k, tok. intuition.
    + apply elem_of_path2_candidates in Hin as (k & -> & Hk).
      destruct (Hline "Path 2 Latencies" k H2 Hk) as (line & tok & Hrem).
      exists line, k, tok. intuition.
Qed.

Lemma find_max_first_seen_tie_break_witness :
  find_max_latency_excluding_corrupted
    [("0->1", 5%Q); ("1->2", 5%Q)] [("2->3", 5%Q)] []
  = (Some "Path1_0->1", 5%Q).
Proof.
  apply (proj1 (proj2 find_max_first_seen_tie_break)
           [("0->1", 5%Q); ("1->2", 5%Q)] [("2->3", 5%Q)] []
           [] ("Path1_0->1", 5%Q)
           [("Path1_1->2", 5%Q); ("Path2_2->3", 5%Q)]).
  - reflexivity.
  - reflexivity.
  - intros y Hy. inversion Hy.
  - intros y Hy. repeat (apply elem_of_cons in Hy as [-> | Hy]; [simpl; lra |]).
    inversion Hy.
Defined.

(** ** Session matcher *)

Section Matcher.

Implicit Types (s o i : Session) (l : list Session)
  (lk : gmap (Z * Z) Session).

(** *** The lookup dictionary *)

Lemma lookup_fold_insert_fresh l lk k :
  k ∉ map key_of l ->
  fold_left (fun m s => <[key_of s := s]> m) l lk !! k = lk !! k.
Proof.
  revert lk. induction l as [| s l IH]; intros lk Hk; [reflexivity |].
  simpl in *. rewrite not_elem_of_cons in Hk. destruct Hk as [Hne Hk].
  rewrite (IH _ Hk). apply lookup_insert_ne. congruence.
Qed.

Lemma lookup_fold_insert_inv l lk k i :
  fold_left (fun m s => <[key_of s := s]> m) l lk !! k = Some i ->
  (i ∈ l /\ key_of i = k) \/ lk !! k = Some i.
Proof.
  revert lk. induction l as [| s l IH]; intros lk H; [right; exact H |].
  simpl in H. destruct (IH _ H) as [[Hin Hk] | Hlk].
  - left. split; [apply list_elem_of_further, Hin | exact Hk].
  - destruct (decide (key_of s = k)) as [E | E].
    + rewrite <- E, lookup_insert_eq in Hlk. injection Hlk as ->.
      left. split; [apply list_elem_of_here | exact E].
    + rewrite lookup_insert_ne in Hlk by exact E. right. exact Hlk.
Qed.

(** What the dictionary holds was an incoming session with that key. *)
Lemma incoming_lookup_sound l k i :
  build_incoming_lookup l !! k = Some i -> i ∈ l /\ key_of i = k.
Proof.
  intros H. destruct (lookup_fold_insert_inv l ∅ k i H) as [Hin | Hempty].
  - exact Hin.
  - rewrite lookup_empty in Hempty. discriminate.
Qed.

(** With unique keys the dictionary holds every incoming session. *)
Lemma incoming_lookup_complete l i :
  NoDup (map key_of l) -> i ∈ l ->
  build_incoming_lookup l !! key_of i = Some i.
Proof.
  unfold build_incoming_lookup. generalize (∅ : gmap (Z * Z) Session).
  induction l as [| s l IH]; intros lk Hnd Hin; [inversion Hin |].
  simpl in *. apply NoDup_cons in Hnd as [Hfresh Hnd].
  apply elem_of_cons in Hin as [-> | Hin].
  - rewrite (lookup_fold_insert_fresh _ _ _ Hfresh). apply lookup_insert_eq.
  - apply IH; assumption.
Qed.

(** *** The loop over the outgoing sessions *)

Lemma omap_cons_eq {A B : Type} (f : A -> option B) (x : A) (xs : list A) :
  omap f (x :: xs)
  = match f x with
    | Some y => y :: omap f xs
    | None => omap f xs
    end.
Proof. reflexivity. Qed.

Lemma match_fold lk l matched_pairs outgoing_only :
  fold_left (match_step lk) l (matched_pairs, outgoing_only)
  = (matched_pairs ++ omap (pair_with lk) l,
     outgoing_only ++ filter (fun o => lk !! key_of o = None) l).
Proof.
  revert matched_pairs outgoing_only.
  induction l as [| o l IH]; intros mp oo.
  - simpl. rewrite !app_nil_r. reflexivity.
  - cbn [fold_left]. rewrite omap_cons_eq.
    destruct (lk !! key_of o) as [i |] eqn:E.
    + assert (pair_with lk o = Some (o, i)) as ->
          by (unfold pair_with; rewrite E; reflexivity).
      assert (match_step lk (mp, oo) o = (mp ++ [(o, i)], oo)) as ->
          by (unfold match_step; rewrite E; reflexivity).
      rewrite IH, filter_cons_False by (rewrite E; discriminate).
      rewrite <- app_assoc. reflexivity.
    + assert (pair_with lk o = None) as ->
          by (unfold pair_with; rewrite E; reflexivity).
      assert (match_step lk (mp, oo) o = (mp, oo ++ [o])) as ->
          by (unfold match_step; rewrite E; reflexivity).
      rewrite IH, filter_cons_True by exact E.
      rewrite <- app_assoc. reflexivity.
Qed.

Lemma match_group_eq l :
  let outs := filter (fun s => direction s = OUTGOING) l in
  let ins := filter (fun s => direction s = INCOMING) l in
  let lk := build_incoming_lookup ins in
  let matched := omap (pair_with lk) outs in
  match_group l
  = (matched,
     filter (fun o => lk !! key_of o = None) outs,
     filter (fun inc =>
               key_of inc ∉ (list_to_set
                               (map (fun p : Session * Session => key_of (fst p))
                                  matched) : gset (Z * Z)))
       ins).
Proof. simpl. unfold match_group. rewrite match_fold. reflexivity. Qed.

Lemma elem_of_matched lk l o i :
  (o, i) ∈ omap (pair_with lk) l <-> o ∈ l /\ lk !! key_of o = Some i.
Proof.
  rewrite list_elem_of_omap. unfold pair_with. split.
  - intros (o' & Hin & Hp). destruct (lk !! key_of o') as [i' |] eqn:E;
      [| discriminate]. injection Hp as -> ->. split; assumption.
  - intros [Hin Hlk]. exists o. split; [exact Hin |]. rewrite Hlk. reflexivity.
Qed.

(** A pair matched within a group joins an outgoing and an incoming
    session of the group that have the same key. *)
Lemma match_group_pair l o i :
  (o, i) ∈ fst (fst (match_group l)) ->
  o ∈ l /\ i ∈ l /\ direction o = OUTGOING /\ direction i = INCOMING
  /\ key_of o = key_of i.
Proof.
  rewrite match_group_eq. simpl. rewrite elem_of_matched.
  intros [Ho Hlk]. apply list_elem_of_filter in Ho as [Hdo Ho].
  apply incoming_lookup_sound in Hlk as [Hi Hk].
  apply list_elem_of_filter in Hi as [Hdi Hi].
  repeat split; try assumption. symmetry. exact Hk.
Qed.

(** *** Grouping by pair name *)

Lemma group_append_well_grouped groups s :
  well_grouped groups -> well_grouped (group_append groups (pair_name s) s).
Proof.
  induction groups as [| [n ms] groups IH]; intros Hwf name members x; simpl.
  - intros Hin Hx. apply list_elem_of_singleton in Hin. injection Hin as -> ->.
    apply list_elem_of_singleton in Hx. subst x. reflexivity.
  - destruct (String.eqb n (pair_name s)) eqn:E.
    + apply String.eqb_eq in E. intros Hin Hx.
      apply elem_of_cons in Hin as [Heq | Hin].
      * injection Heq as -> ->. apply elem_of_app in Hx as [Hx | Hx].
        -- apply (Hwf n ms x); [apply list_elem_of_here | exact Hx].
        -- apply list_elem_of_singleton in Hx. subst x. symmetry. exact E.
      * apply (Hwf name members x); [apply list_elem_of_further, Hin | exact Hx].
    + intros Hin Hx. apply elem_of_cons in Hin as [Heq | Hin].
      * injection Heq as -> ->.
        apply (Hwf n ms x); [apply list_elem_of_here | exact Hx].
      * apply (IH (fun a b c Hab => Hwf a b c (list_elem_of_further _ _ _ Hab))
                 name members x Hin Hx).
Qed.

Lemma group_append_members groups name s :
  concat (map snd (group_append groups name s))
  ≡ₚ concat (map snd groups) ++ [s].
Proof.
  induction groups as [| [n ms] groups IH]; simpl; [reflexivity |].
  destruct (String.eqb n name); simpl.
  - rewrite <- !app_assoc. apply Permutation_app_head, Permutation_app_comm.
  - rewrite IH, app_assoc. reflexivity.
Qed.

Lemma fold_group_append sessions groups :
  let result :=
    fold_left (fun g s => group_append g (pair_name s) s) sessions groups in
  (well_grouped groups -> well_grouped result)
  /\ concat (map snd result) ≡ₚ concat (map snd groups) ++ sessions.
Proof.
  revert groups. induction sessions as [| s sessions IH]; intros groups; simpl.
  - split; [auto | rewrite app_nil_r; reflexivity].
  - destruct (IH (group_append groups (pair_name s) s)) as [Hwf Hperm].
    split.
    + intros H. apply Hwf, group_append_well_grouped, H.
    + simpl in Hperm. rewrite Hperm, group_append_members, <- app_assoc.
      reflexivity.
Qed.

Lemma sessions_by_pair_well_grouped sessions :
  well_grouped (sessions_by_pair sessions).
Proof.
  apply (fold_group_append sessions []).
  intros name members s Hin. inversion Hin.
Qed.

Lemma sessions_by_pair_members sessions :
  concat (map snd (sessions_by_pair sessions)) ≡ₚ sessions.
Proof. apply (fold_group_append sessions []). Qed.

Lemma group_member_of_input sessions name members s :
  (name, members) ∈ sessions_by_pair sessions -> s ∈ members -> s ∈ sessions.
Proof.
  intros Hg Hs. rewrite <- (sessions_by_pair_members sessions).
  apply list_elem_of_In, in_concat. exists members.
  split; [| apply list_elem_of_In, Hs].
  apply in_map_iff. exists (name, members).
  split; [reflexivity | apply list_elem_of_In, Hg].
Qed.

(** *** The loop over the groups *)

Lemma extend_fold groups (acc : MatchResult) :
  fold_left extend_all groups acc
  = (fst (fst acc)
       ++ flat_map (fun g => fst (fst (match_group (snd g)))) groups,
     snd (fst acc)
       ++ flat_map (fun g => snd (fst (match_group (snd g)))) groups,
     snd acc ++ flat_map (fun g => snd (match_group (snd g))) groups).
Proof.
  revert acc. induction groups as [| g groups IH]; intros [[a b] c]; simpl.
  - rewrite !app_nil_r. reflexivity.
  - rewrite IH. unfold extend_all.
    destruct (match_group (snd g)) as [[m oo] io] eqn:E.
    simpl. rewrite <- !app_assoc. reflexivity.
Qed.

Lemma all_matched_pairs_origin sessions o i :
  (o, i) ∈ fst (fst (match_session_pairs_for_all_nodes sessions)) ->
  exists name members,
    (name, members) ∈ sessions_by_pair sessions
    /\ (o, i) ∈ fst (fst (match_group members)).
Proof.
  unfold match_session_pairs_for_all_nodes. rewrite extend_fold. simpl.
  intros H. apply list_elem_of_In, in_flat_map in H as ([name members] & Hg & H).
  exists name, members.
  split; [apply list_elem_of_In, Hg | apply list_elem_of_In, H].
Qed.

End Matcher.

(** C4.  Every pair the matcher emits joins one OUTGOING and one INCOMING
    record of the input that have the same pair name, the same session id
    and the same sequence number; so two records with different pair names
    are never joined, also when their (session id, sequence number) keys
    coincide. *)
Theorem matched_pairs_within_group (sessions : list Session) (o i : Session) :
  (o, i) ∈ fst (fst (match_session_pairs_for_all_nodes sessions)) ->
  (o ∈ sessions) /\ (i ∈ sessions)
  /\ direction o = OUTGOING /\ direction i = INCOMING
  /\ pair_name o = pair_name i
  /\ session_id o = session_id i /\ seq o = seq i.
Proof.
  intros H. apply all_matched_pairs_origin in H as (name & members & Hg & H).
  apply match_group_pair in H as (Ho & Hi & Hdo & Hdi & Hk).
  pose proof (sessions_by_pair_well_grouped sessions name members) as Hwf.
  unfold key_of in Hk. injection Hk as Hid Hseq.
  repeat split; try assumption.
  - apply (group_member_of_input sessions name members o Hg Ho).
  - apply (group_member_of_input sessions name members i Hg Hi).
  - rewrite (Hwf o Hg Ho), (Hwf i Hg Hi). reflexivity.
Qed.

Lemma matched_pairs_within_group_witness :
  pair_name Samples.out_7_3 = pair_name Samples.in_7_3.
Proof.
  apply (matched_pairs_within_group Samples.sessions Samples.out_7_3 Samples.in_7_3).
  vm_compute. apply list_elem_of_here.
Defined.

(** ** The matcher partitions its input *)

Section Partition.

Implicit Types (s o i : Session) (l : list Session)
  (lk : gmap (Z * Z) Session).

Lemma perm_interleave {A : Type} (x1 x2 y1 y2 : list A) :
  (x1 ++ x2) ++ (y1 ++ y2) ≡ₚ (x1 ++ y1) ++ (x2 ++ y2).
Proof.
  rewrite <- !app_assoc. apply Permutation_app_head.
  rewrite !app_assoc. apply Permutation_app_tail, Permutation_app_comm.
Qed.

Lemma perm_interleave4 {A : Type} (a1 a2 b1 b2 c1 c2 d1 d2 : list A) :
  (a1 ++ a2) ++ (b1 ++ b2) ++ (c1 ++ c2) ++ (d1 ++ d2)
  ≡ₚ (a1 ++ b1 ++ c1 ++ d1) ++ (a2 ++ b2 ++ c2 ++ d2).
Proof.
  rewrite (perm_interleave c1 c2 d1 d2).
  rewrite (perm_interleave b1 b2 (c1 ++ d1) (c2 ++ d2)).
  apply perm_interleave.
Qed.

(** The two directions split a list of sessions. *)
Lemma direction_split l :
  filter (fun s => direction s = OUTGOING) l
  ++ filter (fun s => direction s = INCOMING) l ≡ₚ l.
Proof.
  rewrite <- (filter_app_complement (fun s => direction s = OUTGOING) l) at 3.
  apply Permutation_app_head. apply eq_subrelation; [typeclasses eauto |].
  apply list_filter_iff. intros s. destruct (direction s); split; congruence.
Qed.

(** The outgoing halves of the matched pairs are the outgoing sessions
    whose key the dictionary holds. *)
Lemma matched_fst lk l :
  map fst (omap (pair_with lk) l)
  = filter (fun o => ~ lk !! key_of o = None) l.
Proof.
  induction l as [| o l IH]; [reflexivity |].
  rewrite omap_cons_eq. unfold pair_with at 1.
  destruct (lk !! key_of o) as [i |] eqn:E.
  - rewrite filter_cons_True by (rewrite E; discriminate).
    simpl. rewrite <- IH. reflexivity.
  - rewrite filter_cons_False by (rewrite E; tauto). exact IH.
Qed.

Lemma outgoing_split lk l :
  map fst (omap (pair_with lk) l)
  ++ filter (fun o => lk !! key_of o = None) l ≡ₚ l.
Proof.
  rewrite matched_fst, Permutation_app_comm. apply filter_app_complement.
Qed.

Lemma elem_of_matched_keys lk l k :
  k ∈ (list_to_set
         (map (fun p : Session * Session => key_of (fst p))
            (omap (pair_with lk) l)) : gset (Z * Z))
  <-> exists o i, o ∈ l /\ lk !! key_of o = Some i /\ key_of o = k.
Proof.
  rewrite elem_of_list_to_set, list_elem_of_fmap. split.
  - intros ([o i] & -> & Hin). apply elem_of_matched in Hin as [Ho Hlk].
    exists o, i. repeat split; assumption.
  - intros (o & i & Ho & Hlk & <-). exists (o, i).
    split; [reflexivity | apply elem_of_matched; split; assumption].
Qed.

(** With unique keys on both sides, the incoming halves of the matched
    pairs are the incoming sessions whose key was matched. *)
Lemma incoming_split outs ins :
  NoDup (map key_of outs) -> NoDup (map key_of ins) ->
  let lk := build_incoming_lookup ins in
  let matched := omap (pair_with lk) outs in
  map snd matched
  ++ filter (fun inc =>
               key_of inc ∉ (list_to_set
                               (map (fun p : Session * Session => key_of (fst p))
                                  matched) : gset (Z * Z)))
       ins
  ≡ₚ ins.
Proof.
  intros Houts Hins lk matched. subst matched lk.
  set (lk := build_incoming_lookup ins).
  set (matched := omap (pair_with lk) outs).
  set (mk := list_to_set _ : gset (Z * Z)).
  rewrite <- (filter_app_complement (fun inc => key_of inc ∉ mk) ins) at 2.
  rewrite Permutation_app_comm. apply Permutation_app_head.
  symmetry. apply NoDup_Permutation.
  - apply NoDup_filter. apply (NoDup_fmap_1 key_of), Hins.
  - apply (NoDup_fmap_1 key_of).
    assert (key_of <$> (map snd matched) = key_of <$> (map fst matched)) as ->.
    { change (key_of <$> map snd matched) with (key_of <$> (snd <$> matched)).
      change (key_of <$> map fst matched) with (key_of <$> (fst <$> matched)).
      rewrite <- !list_fmap_compose. apply Forall_fmap_ext_1.
      apply Forall_forall. intros [o i] Hin.
      apply elem_of_matched in Hin as [_ Hlk].
      apply incoming_lookup_sound in Hlk as [_ Hk]. exact Hk. }
    unfold matched. rewrite matched_fst.
    apply (sublist_NoDup _ (map key_of outs)); [exact Houts |].
    apply fmap_sublist, sublist_filter.
  - intros x. rewrite list_elem_of_filter. split.
    + intros [Hmk Hx].
      assert (key_of x ∈ mk) as Hk by (destruct (decide (key_of x ∈ mk)); tauto).
      apply elem_of_matched_keys in Hk as (o & i & Ho & Hlk & Hk).
      rewrite Hk in Hlk. unfold lk in Hlk.
      rewrite (incoming_lookup_complete ins x Hins Hx) in Hlk.
      injection Hlk as <-.
      apply list_elem_of_fmap. exists (o, x). split; [reflexivity |].
      apply elem_of_matched. split; [exact Ho |].
      rewrite Hk. apply incoming_lookup_complete; assumption.
    + intros Hx. apply list_elem_of_fmap in Hx as ([o i] & -> & Hin).
      apply elem_of_matched in Hin as [Ho Hlk]. simpl.
      pose proof (incoming_lookup_sound _ _ _ Hlk) as [Hi Hk].
      split; [| exact Hi].
      intros Hnot. apply Hnot. apply elem_of_matched_keys.
      exists o, i. repeat split; try assumption. symmetry. exact Hk.
Qed.

(** Within one group every session lands in exactly one output. *)
Lemma match_group_records l :
  NoDup (map key_of (filter (fun s => direction s = OUTGOING) l)) ->
  NoDup (map key_of (filter (fun s => direction s = INCOMING) l)) ->
  records (match_group l) ≡ₚ l.
Proof.
  intros Houts Hins. rewrite match_group_eq. unfold records. simpl.
  set (outs := filter (fun s => direction s = OUTGOING) l) in *.
  set (ins := filter (fun s => direction s = INCOMING) l) in *.
  set (lk := build_incoming_lookup ins).
  set (matched := omap (pair_with lk) outs).
  set (oo := filter (fun o => lk !! key_of o = None) outs).
  set (io := filter _ ins).
  transitivity ((map fst matched ++ oo) ++ (map snd matched ++ io)).
  { rewrite <- !app_assoc. apply Permutation_app_head.
    rewrite !app_assoc. apply Permutation_app_tail, Permutation_app_comm. }
  transitivity (outs ++ ins); [| apply direction_split].
  apply Permutation_app.
  - apply outgoing_split.
  - apply (incoming_split outs ins Houts Hins).
Qed.

End Partition.

Section AllGroups.

Implicit Types (s : Session) (l : list Session)
  (groups : list (string * list Session)).

Lemma records_app (m1 m2 : list (Session * Session)) (o1 o2 i1 i2 : list Session) :
  records (m1 ++ m2, o1 ++ o2, i1 ++ i2)
  ≡ₚ records (m1, o1, i1) ++ records (m2, o2, i2).
Proof. unfold records. simpl. rewrite !map_app. apply perm_interleave4. Qed.

Lemma flat_records groups :
  (forall g, g ∈ groups -> records (match_group (snd g)) ≡ₚ snd g) ->
  records (flat_map (fun g => fst (fst (match_group (snd g)))) groups,
           flat_map (fun g => snd (fst (match_group (snd g)))) groups,
           flat_map (fun g => snd (match_group (snd g))) groups)
  ≡ₚ concat (map snd groups).
Proof.
  induction groups as [| g groups IH]; intros Hg; [reflexivity |].
  cbn [flat_map map concat]. rewrite records_app.
  apply Permutation_app.
  - pose proof (Hg g (list_elem_of_here _ _)) as Hhere.
    destruct (match_group (snd g)) as [[m o] i]. exact Hhere.
  - apply IH. intros g' Hin. apply Hg, list_elem_of_further, Hin.
Qed.

Lemma NoDup_concat_member {A B : Type} (f : A -> B) (ls : list (list A)) (xs : list A) :
  NoDup (map f (concat ls)) -> xs ∈ ls -> NoDup (map f xs).
Proof.
  induction ls as [| ys ls IH]; intros Hnd Hin; [inversion Hin |].
  simpl in Hnd. rewrite map_app in Hnd. apply NoDup_app in Hnd as (Hys & _ & Hls).
  apply elem_of_cons in Hin as [-> | Hin]; [exact Hys | apply IH; assumption].
Qed.

(** Uniqueness of the full key gives, inside every group and direction,
    uniqueness of the join key. *)
Lemma group_keys_unique sessions name members (d : Direction) :
  NoDup (map full_key sessions) ->
  (name, members) ∈ sessions_by_pair sessions ->
  NoDup (map key_of (filter (fun s => direction s = d) members)).
Proof.
  intros Hnd Hg.
  assert (NoDup (map full_key members)) as Hmem.
  { apply (NoDup_concat_member full_key (map snd (sessions_by_pair sessions))).
    - change (NoDup (full_key <$> concat (map snd (sessions_by_pair sessions)))).
      rewrite sessions_by_pair_members. exact Hnd.
    - apply list_elem_of_fmap. exists (name, members). split; [reflexivity | exact Hg]. }
  set (kept := filter (fun s => direction s = d) members).
  assert (NoDup (map full_key kept)) as Hkept.
  { apply (sublist_NoDup _ (map full_key members)); [exact Hmem |].
    apply fmap_sublist, sublist_filter. }
  apply (NoDup_fmap_1 (fun k : Z * Z => (name, d, k))).
  change (NoDup ((fun k : Z * Z => (name, d, k)) <$> (key_of <$> kept))).
  rewrite <- list_fmap_compose.
  assert ((fun k : Z * Z => (name, d, k)) ∘ key_of <$> kept = full_key <$> kept)
    as ->; [| exact Hkept].
  apply Forall_fmap_ext_1, Forall_forall. intros s Hs.
  apply list_elem_of_filter in Hs as [Hd Hs]. unfold full_key. simpl.
  rewrite Hd, (sessions_by_pair_well_grouped sessions name members s Hg Hs).
  reflexivity.
Qed.

Lemma all_records sessions :
  NoDup (map full_key sessions) ->
  records (match_session_pairs_for_all_nodes sessions) ≡ₚ sessions.
Proof.
  intros Hnd. unfold match_session_pairs_for_all_nodes.
  rewrite extend_fold. simpl.
  rewrite flat_records; [apply sessions_by_pair_members |].
  intros [name members] Hg. simpl.
  apply match_group_records; apply (group_keys_unique sessions name); assumption.
Qed.

End AllGroups.

(** C10.  When the key (session id, sequence number) is unique per
    direction within each pair-name group, the three outputs of the matcher
    hold the input records, each one exactly once: the two halves of the
    matched pairs together with the outgoing-only and the incoming-only
    records are a rearrangement of the input, so twice the number of
    matched pairs plus the numbers of outgoing-only and incoming-only
    records is the number of input records. *)
Theorem matcher_partitions_input (sessions : list Session) :
  NoDup (map full_key sessions) ->
  let r := match_session_pairs_for_all_nodes sessions in
  map fst (fst (fst r)) ++ map snd (fst (fst r)) ++ snd (fst r) ++ snd r
  ≡ₚ sessions
  /\ (2 * length (fst (fst r)) + length (snd (fst r)) + length (snd r)
      = length sessions)%nat.
Proof.
  intros Hnd r. pose proof (all_records sessions Hnd) as Hperm.
  fold r in Hperm. unfold records in Hperm. split; [exact Hperm |].
  apply Permutation_length in Hperm.
  rewrite !length_app, !length_map in Hperm. lia.
Qed.

Lemma matcher_partitions_input_witness :
  let r := match_session_pairs_for_all_nodes Samples.sessions in
  (2 * length (fst (fst r)) + length (snd (fst r)) + length (snd r)
   = length Samples.sessions)%nat.
Proof.
  apply (matcher_partitions_input Samples.sessions).
  apply (bool_decide_unpack _). vm_compute. exact I.
Defined.

(** * Further properties *)

(** ** Soundness of the matcher *)

Lemma strip_prefix_Some l s s' : Text.strip_prefix l s = Some s' -> s = l +:+ s'.
Proof.
  revert s. induction l as [| c l IH]; intros s H; simpl in *.
  - injection H as ->. reflexivity.
  - destruct s as [| d s]; [discriminate |].
    destruct (Ascii.eqb c d) eqn:E; [| discriminate].
    apply Ascii.eqb_eq in E. subst d. rewrite (IH s H). reflexivity.
Qed.

Lemma star_greedy_Some {R} p s (k : string -> option R) x :
  Text.star_greedy p s k = Some x ->
  exists a s', s = a +:+ s' /\ Text.all_chars p a = true /\ k s' = Some x.
Proof.
  induction s as [| c s IH]; simpl; intros H.
  - exists "", "". auto.
  - destruct (p c) eqn:Hc.
    + destruct (Text.star_greedy p s k) as [y |] eqn:E.
      * injection H as ->. destruct (IH eq_refl) as (a & s' & -> & Ha & Hk).
        exists (String c a), s'. simpl. rewrite Hc, Ha. auto.
      * exists "", (String c s). auto.
    + exists "", (String c s). auto.
Qed.

Lemma star_lazy_Some {R} p s (k : string -> option R) x :
  Text.star_lazy p s k = Some x ->
  exists a s', s = a +:+ s' /\ Text.all_chars p a = true /\ k s' = Some x.
Proof.
  induction s as [| c s IH]; simpl; intros H.
  - destruct (k "") eqn:E; [| discriminate]. injection H as ->. exists "", "". auto.
  - destruct (k (String c s)) eqn:E.
    + injection H as ->. exists "", (String c s). auto.
    + destruct (p c) eqn:Hc; [| discriminate].
      destruct (IH H) as (a & s' & -> & Ha & Hk).
      exists (String c a), s'. simpl. rewrite Hc, Ha. auto.
Qed.

Lemma run_sound {R} r : forall s m (k : string -> Text.captures -> option R) x,
  Text.run r s m k = Some x ->
  exists s' m', Match r s m s' m' /\ k s' m' = Some x.
Proof.
  induction r as [l | p | g p | r1 IH1 r2 IH2 | r1 IH1 r2 IH2 | i r IH];
    intros s m k x H; simpl in H.
  - destruct (Text.strip_prefix l s) as [s' |] eqn:E; [| discriminate].
    apply strip_prefix_Some in E. subst s. exists s', m. split; [constructor | exact H].
  - destruct s as [| c s]; [discriminate |]. destruct (p c) eqn:Hc; [| discriminate].
    exists s, m. split; [constructor; exact Hc | exact H].
  - destruct g.
    + apply star_greedy_Some in H as (a & s' & -> & Ha & Hk).
      exists s', m. split; [constructor; exact Ha | exact Hk].
    + apply star_lazy_Some in H as (a & s' & -> & Ha & Hk).
      exists s', m. split; [constructor; exact Ha | exact Hk].
  - apply IH1 in H as (s1 & m1 & M1 & H). apply IH2 in H as (s2 & m2 & M2 & H).
    exists s2, m2. split; [econstructor; eassumption | exact H].
  - destruct (Text.run r1 s m k) as [y |] eqn:E.
    + injection H as ->. apply IH1 in E as (s' & m' & M & Hk).
      exists s', m'. split; [apply MAltL, M | exact Hk].
    + apply IH2 in H as (s' & m' & M & Hk).
      exists s', m'. split; [apply MAltR, M | exact Hk].
  - apply IH in H as (s' & m' & M & Hk).
    eexists _, _. split; [apply MGrp, M | exact Hk].
Qed.

Lemma search_sound r s m :
  Text.search r s = Some m ->
  exists pre t t', s = pre +:+ t /\ Match r t [] t' m.
Proof.
  induction s as [| c s IH]; simpl; intros H.
  - destruct (Text.run r "" [] _) eqn:E; [| discriminate]. injection H as ->.
    apply run_sound in E as (s' & m' & M & Hk). injection Hk as ->.
    exists "", "", s'. auto.
  - destruct (Text.run r (String c s) [] _) eqn:E.
    + injection H as ->. apply run_sound in E as (s' & m' & M & Hk).
      injection Hk as ->. exists "", (String c s), s'. auto.
    + destruct (IH H) as (pre & t & t' & -> & M).
      exists (String c pre), t, t'. auto.
Qed.

Ltac invert_match :=
  repeat match goal with
    | H : Match (Text.Lit _) _ _ _ _ |- _ => inversion H; subst; clear H
    | H : Match (Text.Cls _) _ _ _ _ |- _ => inversion H; subst; clear H
    | H : Match (Text.Star _ _) _ _ _ _ |- _ => inversion H; subst; clear H
    | H : Match (Text.Seq _ _) _ _ _ _ |- _ => inversion H; subst; clear H
    | H : Match (Text.Plus _ _) _ _ _ _ |- _ => unfold Text.Plus in H
    | H : Match (Text.Grp _ _) _ _ _ _ |- _ => inversion H; subst; clear H
    | H : Match (Text.Alt _ _) _ _ _ _ |- _ => inversion H; subst; clear H
    end.


Ltac fold_consumed :=
  repeat match goal with
    | |- context [Text.consumed (String ?c (?a +:+ ?r)) ?r] =>
        change (String c (a +:+ r)) with (String c a +:+ r);
        rewrite consumed_app
    | |- context [Text.consumed (?a +:+ ?r) ?r] => rewrite consumed_app
    | H : context [Text.consumed (String ?c (?a +:+ ?r)) ?r] |- _ =>
        change (String c (a +:+ r)) with (String c a +:+ r) in H;
        rewrite consumed_app in H
    | H : context [Text.consumed (?a +:+ ?r) ?r] |- _ => rewrite consumed_app in H
    end.

Lemma all_chars_cons p c a :
  p c = true -> Text.all_chars p a = true -> Text.all_chars p (String c a) = true.
Proof. intros Hc Ha. simpl. rewrite Hc, Ha. reflexivity. Qed.

Lemma latency_line_shape line k tok :
  latency_line line = Some (k, tok) ->
  exists a b,
    k = a +:+ "->" +:+ b
    /\ Text.all_chars Text.is_digit a = true /\ a <> ""
    /\ Text.all_chars Text.is_digit b = true /\ b <> ""
    /\ (tok = "N/A"
        \/ (Text.all_chars Text.is_digit_or_dot tok = true /\ tok <> "")).
Proof.
  unfold latency_line. intros H.
  destruct (Text.search latency_line_re line) as [m |] eqn:E; [| discriminate].
  apply search_sound in E as (pre & t & t' & -> & M).
  unfold latency_line_re in M. invert_match.
  all: simpl in H; injection H as <- <-; fold_consumed.
  all: eexists (String _ _), (String _ _).
  all: split; [reflexivity |].
  all: repeat split; try (apply all_chars_cons; assumption); try discriminate.
  - right. split; [apply all_chars_cons; assumption | discriminate].
  - left. change ("N/A" +:+ ?r) with ("N/A" +:+ r). fold_consumed.
    reflexivity.
Qed.


Lemma digit_value_range c :
  Text.is_digit c = true -> 0 <= Z.of_N (Text.code c) - 48 <= 9.
Proof.
  unfold Text.is_digit, Text.between. intros H.
  apply andb_true_iff in H as [H1 H2]. apply N.leb_le in H1, H2. lia.
Qed.

Lemma digits_value_nonneg s : forall acc n,
  0 <= acc -> Text.digits_value acc s = Some n -> 0 <= n.
Proof.
  induction s as [| c s IH]; simpl; intros acc n Hacc H.
  - injection H as <-. exact Hacc.
  - destruct (Text.is_digit c) eqn:Hc; [| discriminate].
    apply IH in H; [exact H |]. pose proof (digit_value_range c Hc). lia.
Qed.

Lemma digits_value_total s : forall acc,
  Text.all_chars Text.is_digit s = true ->
  exists n, Text.digits_value acc s = Some n.
Proof.
  induction s as [| c s IH]; simpl; intros acc H.
  - eauto.
  - apply andb_true_iff in H as [Hc Hs]. rewrite Hc. apply IH, Hs.
Qed.

Lemma int_nonneg s n : Text.int s = Some n -> 0 <= n.
Proof.
  destruct s as [| c s]; [discriminate |]. unfold Text.int.
  apply digits_value_nonneg. lia.
Qed.

Lemma int_total s :
  Text.all_chars Text.is_digit s = true -> s <> "" ->
  exists n, Text.int s = Some n.
Proof.
  intros H Hne. destruct s as [| c s]; [congruence |].
  unfold Text.int. apply digits_value_total, H.
Qed.

Lemma float_nonneg s v : Text.float s = Some v -> (0 <= v)%Q.
Proof.
  unfold Text.float. destruct (Text.cut_at_dot s) as [ip fp].
  destruct (_ =? _)%nat; [discriminate |].
  destruct (Text.digits_value 0 (ip +:+ fp)) as [n |] eqn:E; [| discriminate].
  intros H. injection H as <-. rewrite Qred_correct.
  apply digits_value_nonneg in E; [| lia]. unfold Qle. simpl. lia.
Qed.

Lemma skb_line_shape line id ptr :
  skb_line line = Some (id, ptr) ->
  Text.all_chars Text.is_digit id = true /\ id <> ""
  /\ exists h, ptr = "0x" +:+ h /\ Text.all_chars Text.is_hex h = true /\ h <> "".
Proof.
  unfold skb_line. intros H.
  destruct (Text.search skb_line_re line) as [m |] eqn:E.
  - apply search_sound in E as (pre & t & t' & -> & M).
    unfold skb_line_re in M. invert_match.
    simpl in H. injection H as <- <-. fold_consumed.
    split; [apply all_chars_cons; assumption |]. split; [discriminate |].
    change (Text.consumed ("0x" +:+ String ?c (?a +:+ ?r)) ?r)
      with (Text.consumed (("0x" +:+ String c a) +:+ r) r).
    rewrite consumed_app. eexists (String _ _).
    split; [reflexivity |]. split; [apply all_chars_cons; assumption | discriminate].
  - destruct (Text.split ":" line) as [| part0 [| part1 parts]]; try discriminate.
    destruct (_ && _); [| discriminate].
    destruct (Text.search stage_re part0) as [sm |] eqn:Es; [| discriminate].
    destruct (Text.search hex_re part1) as [hm |] eqn:Eh; [| discriminate].
    apply search_sound in Es as (pre & t & t' & -> & Ms).
    apply search_sound in Eh as (pre' & u & u' & -> & Mh).
    unfold stage_re in Ms. unfold hex_re in Mh. invert_match.
    simpl in H. injection H as <- <-. fold_consumed.
    split; [apply all_chars_cons; assumption |]. split; [discriminate |].
    change (Text.consumed ("0x" +:+ String ?c (?a +:+ ?r)) ?r)
      with (Text.consumed (("0x" +:+ String c a) +:+ r) r).
    rewrite consumed_app. eexists (String _ _).
    split; [reflexivity |]. split; [apply all_chars_cons; assumption | discriminate].
Qed.

(** ** Pointer snapshots *)



Lemma skb_pointers_loop_total lines : forall b m0,
  pointers_ok m0 ->
  exists m, skb_pointers_loop lines b m0 = Some m /\ pointers_ok m.
Proof.
  induction lines as [| line rest IH]; intros b m0 Hok; simpl.
  - eauto.
  - destruct (Text.contains "SKB Pointers" line); [apply IH, Hok |].
    destruct (_ && _); [eauto |].
    destruct (b && _); [| apply IH, Hok].
    destruct (skb_line line) as [[id ptr] |] eqn:E; [| apply IH, Hok].
    apply skb_line_shape in E as (Hid & Hne & Hptr).
    destruct (int_total id Hid Hne) as [n Hn]. rewrite Hn.
    apply IH. intros k p Hk.
    destruct (decide (n = k)) as [<- | Hnk].
    + rewrite lookup_insert_eq in Hk. injection Hk as <-.
      split; [apply (int_nonneg id n Hn) | exact Hptr].
    + rewrite lookup_insert_ne in Hk by exact Hnk. apply Hok, Hk.
Qed.

(** X1.  [parse_skb_pointers] never raises: for every list of lines it
    returns a mapping, every key of which is a nonnegative stage number
    and every value a pointer "0x" followed by at least one hexadecimal
    digit.  [Text.int] converts every nonempty digit string; the
    interpreter's bound on the length of such a string is outside the
    model. *)
Theorem parse_skb_pointers_total (lines : list string) :
  exists m, parse_skb_pointers lines = Some m
            /\ forall n ptr, m !! n = Some ptr ->
                 0 <= n
                 /\ exists h, ptr = "0x" +:+ h
                              /\ Text.all_chars Text.is_hex h = true /\ h <> "".
Proof.
  apply skb_pointers_loop_total. intros n ptr H. rewrite lookup_empty in H. discriminate.
Qed.

Lemma skb_pointers_loop_no_header lines m0 :
  (forall line, line ∈ lines -> Text.contains "SKB Pointers" line = false) ->
  skb_pointers_loop lines false m0 = Some m0.
Proof.
  induction lines as [| line rest IH]; intros H; simpl; [reflexivity |].
  rewrite (H line (list_elem_of_here _ _)).
  destruct (_ && _); [reflexivity |]. simpl.
  apply IH. intros l Hl. apply H, list_elem_of_further, Hl.
Qed.

Lemma skb_pointers_loop_cut pre t post : forall b m0,
  Text.contains "SKB Pointers" t = false ->
  Text.startswith t "Path" = true -> Text.contains "Latencies" t = true ->
  skb_pointers_loop (pre ++ t :: post) b m0 = skb_pointers_loop pre b m0.
Proof.
  intros b m0 Hh Hp Hl. revert b m0.
  induction pre as [| line pre IH]; intros b m0; simpl.
  - rewrite Hh, Hp, Hl. reflexivity.
  - destruct (Text.contains "SKB Pointers" line); [apply IH |].
    destruct (_ && _); [reflexivity |].
    destruct (b && _); [| apply IH].
    destruct (skb_line line) as [[id ptr] |]; [| apply IH].
    destruct (Text.int id); [apply IH | reflexivity].
Qed.

(** X2.  Without a line that contains "SKB Pointers" the mapping is
    empty.  A line that does not contain "SKB Pointers", starts with
    "Path" and contains "Latencies" ends the scan: the lines after it are
    not read.  The test for "SKB Pointers" comes first: a line that
    contains it opens the section and is passed over, also when it starts
    with "Path" and contains "Latencies". *)
Theorem parse_skb_pointers_section :
  (forall lines,
      (forall line, line ∈ lines -> Text.contains "SKB Pointers" line = false) ->
      parse_skb_pointers lines = Some ∅)
  /\ (forall pre t post,
         Text.contains "SKB Pointers" t = false ->
         Text.startswith t "Path" = true -> Text.contains "Latencies" t = true ->
         parse_skb_pointers (pre ++ t :: post) = parse_skb_pointers pre)
  /\ (forall t rest b m,
         Text.contains "SKB Pointers" t = true ->
         skb_pointers_loop (t :: rest) b m = skb_pointers_loop rest true m).
Proof.
  split; [| split].
  - intros lines H. apply skb_pointers_loop_no_header, H.
  - intros pre t post Hh Hp Hl. apply skb_pointers_loop_cut; assumption.
  - intros t rest b m Hh. simpl. rewrite Hh. reflexivity.
Qed.

(** ** Latency sections: bounds and shape *)

Lemma path_latencies_loop_no_header name lines lat :
  (forall line, line ∈ lines -> Text.startswith (Text.strip line) name = false) ->
  path_latencies_loop name lines false lat = Some lat.
Proof.
  induction lines as [| line rest IH]; intros H; simpl; [reflexivity |].
  rewrite (H line (list_elem_of_here _ _)). rewrite andb_false_r. simpl.
  apply IH. intros l Hl. apply H, list_elem_of_further, Hl.
Qed.

(** Once the section is open, or is opened by a line of [pre], a line
    that ends it hides every line after it. *)
Lemma path_latencies_loop_cut name pre t post : forall b lat,
  (b = true
   \/ exists h, h ∈ pre /\ Text.startswith (Text.strip h) name = true) ->
  Text.startswith (Text.strip t) name = false ->
  Text.startswith (Text.strip t) "Path" || Text.startswith (Text.strip t) "Total" = true ->
  path_latencies_loop name (pre ++ t :: post) b lat
  = path_latencies_loop name pre b lat.
Proof.
  intros b lat Hopen Hn Ht. revert b lat Hopen.
  induction pre as [| line pre IH]; intros b lat Hopen; simpl.
  - destruct Hopen as [-> | (h & Hh & _)]; [| inversion Hh].
    rewrite Hn, Ht. reflexivity.
  - destruct (Text.startswith (Text.strip line) name) eqn:Eline;
      [apply IH; left; reflexivity |].
    assert (b = true
            \/ exists h, h ∈ pre /\ Text.startswith (Text.strip h) name = true)
      as Hopen'.
    { destruct Hopen as [Hb | (h & Hh & Hstart)]; [left; exact Hb |].
      apply elem_of_cons in Hh as [-> | Hh]; [congruence |].
      right. exists h. split; assumption. }
    destruct ((Text.startswith (Text.strip line) "Path"
               || Text.startswith (Text.strip line) "Total") && b);
      [reflexivity |].
    destruct (b && negb (String.eqb (Text.strip line) ""));
      [| apply IH, Hopen'].
    destruct (latency_line line) as [[k tok] |]; [| apply IH, Hopen'].
    destruct (negb (String.eqb tok "N/A")); [| apply IH, Hopen'].
    destruct (Text.float tok); [apply IH, Hopen' | reflexivity].
Qed.

(** X3.  Without a line that, stripped, starts with the section name the
    mapping is empty.  Once such a header line has been read, wherever it
    stands in the input, a later line that, stripped, starts with "Path"
    or "Total" and does not start with the section name ends the section:
    the lines after it are not read.  The test for the header comes
    first: a line that, stripped, starts with the section name is passed
    over and leaves the section open, also when it starts with "Path". *)
Theorem parse_path_latencies_section :
  (forall name lines,
      (forall line, line ∈ lines ->
                    Text.startswith (Text.strip line) name = false) ->
      parse_path_latencies lines name = Some [])
  /\ (forall name pre t post,
         (exists header,
             header ∈ pre /\ Text.startswith (Text.strip header) name = true) ->
         Text.startswith (Text.strip t) name = false ->
         Text.startswith (Text.strip t) "Path"
         || Text.startswith (Text.strip t) "Total" = true ->
         parse_path_latencies (pre ++ t :: post) name
         = parse_path_latencies pre name)
  /\ (forall name t rest b lat,
         Text.startswith (Text.strip t) name = true ->
         path_latencies_loop name (t :: rest) b lat
         = path_latencies_loop name rest true lat).
Proof.
  split; [| split].
  - intros name lines H. apply path_latencies_loop_no_header, H.
  - intros name pre t post Hh Hn Ht. unfold parse_path_latencies.
    apply path_latencies_loop_cut; [right; exact Hh | exact Hn | exact Ht].
  - intros name t rest b lat Hh. simpl. rewrite Hh. reflexivity.
Qed.


Lemma path_latencies_entry name lines d k v :
  parse_path_latencies lines name = Some d ->
  Py.dict_get d k = Some v ->
  label_shape k /\ (0 <= v)%Q.
Proof.
  intros Hparse Hget.
  destruct (path_latencies_loop_origin name lines false [] d k v Hparse Hget)
    as [Hl | (line & tok & Hin & Hline & Hne & Hfloat)]; [discriminate |].
  split.
  - apply latency_line_shape in Hline as (a & b & Hk & Ha & Hane & Hb & Hbne & _).
    exists a, b. auto.
  - apply (float_nonneg tok v Hfloat).
Qed.

(** X4.  Every key of a mapping returned by [parse_path_latencies] is a
    label "a->b" of two nonempty digit strings, and every value is
    nonnegative. *)
Theorem parse_path_latencies_well_formed name lines d k v :
  parse_path_latencies lines name = Some d ->
  Py.dict_get d k = Some v ->
  (exists a b, k = a +:+ "->" +:+ b
               /\ Text.all_chars Text.is_digit a = true /\ a <> ""
               /\ Text.all_chars Text.is_digit b = true /\ b <> "")
  /\ (0 <= v)%Q.
Proof. apply path_latencies_entry. Qed.

Lemma parse_path_latencies_well_formed_witness :
  (exists a b, "0->1" = a +:+ "->" +:+ b
               /\ Text.all_chars Text.is_digit a = true /\ a <> ""
               /\ Text.all_chars Text.is_digit b = true /\ b <> "")
  /\ (0 <= 25 # 2)%Q.
Proof.
  apply (parse_path_latencies_well_formed "Path 1 Latencies"
           ["Path 1 Latencies:"; "[0->1]: 12.5 us"; "[1->2]: N/A us"]
           [("0->1", (25 # 2)%Q)]);
    vm_compute; reflexivity.
Defined.

(** ** When a latency value is rejected *)

Lemma all_chars_app p a b :
  Text.all_chars p (a +:+ b) = Text.all_chars p a && Text.all_chars p b.
Proof.
  induction a as [| c a IH]; simpl; [reflexivity |].
  rewrite IH, andb_assoc. reflexivity.
Qed.

Lemma code_dot c : (Text.code c =? 46)%N = true -> c = "."%char.
Proof.
  intros H. apply N.eqb_eq in H. unfold Text.code in H.
  rewrite <- (ascii_N_embedding c), H. reflexivity.
Qed.

Lemma cut_at_dot_spec s ip fp :
  Text.cut_at_dot s = (ip, fp) ->
  Text.all_chars Text.is_digit_or_dot s = true ->
  Text.all_chars Text.is_digit ip = true
  /\ Text.all_chars Text.is_digit_or_dot fp = true
  /\ ((s = ip /\ fp = "") \/ s = ip +:+ "." +:+ fp).
Proof.
  revert ip fp. induction s as [| c s IH]; simpl; intros ip fp Hcut Hall.
  - injection Hcut as <- <-. auto.
  - apply andb_true_iff in Hall as [Hc Hs].
    destruct (Text.code c =? 46)%N eqn:Edot.
    + injection Hcut as <- <-. apply code_dot in Edot. subst c. auto.
    + destruct (Text.cut_at_dot s) as [a b]. injection Hcut as <- <-.
      destruct (IH a b eq_refl Hs) as (Ha & Hb & Hs').
      unfold Text.is_digit_or_dot in Hc. rewrite Edot, orb_false_r in Hc.
      simpl. rewrite Hc, Ha. split; [reflexivity |]. split; [exact Hb |].
      destruct Hs' as [[-> ->] | ->]; auto.
Qed.

Lemma second_dot fp :
  Text.all_chars Text.is_digit_or_dot fp = true ->
  Text.all_chars Text.is_digit fp = false ->
  exists b c, fp = b +:+ "." +:+ c.
Proof.
  induction fp as [| x fp IH]; simpl; intros Hall Hd; [discriminate |].
  apply andb_true_iff in Hall as [Hx Hfp].
  destruct (Text.is_digit x) eqn:Ex; simpl in Hd.
  - destruct (IH Hfp Hd) as (b & c & ->). exists (String x b), c. reflexivity.
  - unfold Text.is_digit_or_dot in Hx. rewrite Ex in Hx. simpl in Hx.
    apply code_dot in Hx. subst x. exists "", fp. reflexivity.
Qed.

Lemma float_rejects tok :
  Text.all_chars Text.is_digit_or_dot tok = true -> tok <> "" ->
  Text.float tok = None ->
  tok = "." \/ exists a b c, tok = a +:+ "." +:+ b +:+ "." +:+ c.
Proof.
  intros Hall Hne. unfold Text.float.
  destruct (Text.cut_at_dot tok) as [ip fp] eqn:Ecut.
  destruct (cut_at_dot_spec tok ip fp Ecut Hall) as (Hip & Hfp & Hs).
  destruct (Text.all_chars Text.is_digit fp) eqn:Efp.
  - assert (Text.all_chars Text.is_digit (ip +:+ fp) = true) as Hd
        by (rewrite all_chars_app, Hip, Efp; reflexivity).
    destruct (digits_value_total (ip +:+ fp) 0 Hd) as [n ->].
    destruct (String.length ip + String.length fp =? 0)%nat eqn:El;
      [| discriminate].
    intros _. apply Nat.eqb_eq in El.
    destruct ip; [| simpl in El; lia]. destruct fp; [| simpl in El; lia].
    destruct Hs as [[-> _] | ->]; [congruence | left; reflexivity].
  - intros _. right. destruct (second_dot fp Hfp Efp) as (b & c & ->).
    destruct Hs as [[_ Hfp'] | ->].
    + destruct b; discriminate.
    + exists ip, b, c. reflexivity.
Qed.

Lemma path_latencies_loop_raises name lines : forall b lat,
  path_latencies_loop name lines b lat = None ->
  exists line k tok,
    line ∈ lines /\ latency_line line = Some (k, tok)
    /\ tok <> "N/A" /\ Text.float tok = None.
Proof.
  induction lines as [| line rest IH]; intros b lat H; simpl in H; [discriminate |].
  assert (forall b' lat',
             path_latencies_loop name rest b' lat' = None ->
             exists l k tok, l ∈ line :: rest /\ latency_line l = Some (k, tok)
                             /\ tok <> "N/A" /\ Text.float tok = None) as Hrest.
  { intros b' lat' H'. destruct (IH b' lat' H') as (l & k & tok & Hin & Hr).
    exists l, k, tok. split; [apply list_elem_of_further, Hin | exact Hr]. }
  destruct (Text.startswith (Text.strip line) name); [apply (Hrest _ _ H) |].
  destruct ((_ || _) && b); [discriminate |].
  destruct (b && _); [| apply (Hrest _ _ H)].
  destruct (latency_line line) as [[k tok] |] eqn:Eline; [| apply (Hrest _ _ H)].
  destruct (String.eqb tok "N/A") eqn:Ena; simpl in H; [apply (Hrest _ _ H) |].
  destruct (Text.float tok) eqn:Ef; [apply (Hrest _ _ H) |].
  exists line, k, tok. split; [apply list_elem_of_here |].
  split; [exact Eline |]. split; [apply String.eqb_neq, Ena | exact Ef].
Qed.

(** X5.  [parse_path_latencies] raises only where [float] does: when it
    raises, some line carries a value that is a lone dot or holds two
    dots. *)
Theorem parse_path_latencies_raises name lines :
  parse_path_latencies lines name = None ->
  exists line k tok,
    line ∈ lines /\ latency_line line = Some (k, tok)
    /\ (tok = "." \/ exists a b c, tok = a +:+ "." +:+ b +:+ "." +:+ c).
Proof.
  intros H. apply path_latencies_loop_raises in H
    as (line & k & tok & Hin & Hline & Hne & Hf).
  exists line, k, tok. split; [exact Hin |]. split; [exact Hline |].
  apply latency_line_shape in Hline as (_ & _ & _ & _ & _ & _ & _ & [-> | [Hall Hn]]);
    [congruence |].
  apply float_rejects; assumption.
Qed.

Lemma parse_path_latencies_raises_witness :
  exists line k tok,
    line ∈ ["Path 1 Latencies:"; "[0->1]: 1.2.3 us"]
    /\ latency_line line = Some (k, tok)
    /\ (tok = "." \/ exists a b c, tok = a +:+ "." +:+ b +:+ "." +:+ c).
Proof.
  apply (parse_path_latencies_raises "Path 1 Latencies").
  vm_compute. reflexivity.
Defined.

(** ** Total round-trip time *)


Lemma parse_total_rtt_skip pre rest :
  (forall line, line ∈ pre ->
     Text.contains "Total RTT" line && Text.contains ":" line = false) ->
  parse_total_rtt (pre ++ rest) = parse_total_rtt rest.
Proof.
  induction pre as [| l pre IH]; intros H; simpl; [reflexivity |].
  rewrite (H l (list_elem_of_here _ _)). apply IH.
  intros l' Hl'. apply H, list_elem_of_further, Hl'.
Qed.

Lemma parse_total_rtt_origin lines v :
  parse_total_rtt lines = Some (Some v) ->
  (0 <= v)%Q
  /\ exists line, line ∈ lines /\ Text.contains "Total RTT" line = true
                  /\ Text.contains ":" line = true.
Proof.
  induction lines as [| l lines IH]; simpl; intros H; [discriminate |].
  assert (parse_total_rtt lines = Some (Some v) ->
          (0 <= v)%Q /\ exists line, line ∈ l :: lines
             /\ Text.contains "Total RTT" line = true
             /\ Text.contains ":" line = true) as Hrest.
  { intros H'. destruct (IH H') as (Hv & line & Hin & Hr).
    split; [exact Hv |]. exists line. split; [apply list_elem_of_further, Hin | exact Hr]. }
  destruct (Text.contains "Total RTT" l && Text.contains ":" l) eqn:E;
    [| apply Hrest, H].
  destruct (Text.search total_rtt_re l) as [m |]; [| apply Hrest, H].
  destruct (Text.group m 1) as [g |]; [| discriminate].
  destruct (Text.float g) as [x |] eqn:Ef; [| discriminate].
  injection H as <-. split; [apply (float_nonneg g x Ef) |].
  apply andb_true_iff in E as [E1 E2]. exists l.
  split; [apply list_elem_of_here | auto].
Qed.

(** X6.  [parse_total_rtt] returns [None] when no line holds both
    "Total RTT" and a colon; the first such line on which the pattern
    matches decides the result, whatever follows it; and a value it
    returns is nonnegative and comes from such a line. *)
Theorem parse_total_rtt_first_line :
  (forall lines,
      (forall line, line ∈ lines ->
         Text.contains "Total RTT" line && Text.contains ":" line = false) ->
      parse_total_rtt lines = Some None)
  /\ (forall pre line rest,
         (forall l, l ∈ pre ->
            Text.contains "Total RTT" l && Text.contains ":" l = false) ->
         Text.contains "Total RTT" line && Text.contains ":" line = true ->
         Text.search total_rtt_re line <> None ->
         parse_total_rtt (pre ++ line :: rest) = parse_total_rtt [line])
  /\ (forall lines v,
         parse_total_rtt lines = Some (Some v) ->
         (0 <= v)%Q
         /\ exists line, line ∈ lines /\ Text.contains "Total RTT" line = true
                         /\ Text.contains ":" line = true).
Proof.
  split; [| split].
  - intros lines H. rewrite <- (app_nil_r lines).
    rewrite parse_total_rtt_skip by exact H. reflexivity.
  - intros pre line rest Hpre Hq Hm.
    rewrite parse_total_rtt_skip by exact Hpre. simpl. rewrite Hq.
    destruct (Text.search total_rtt_re line) as [m |]; [| congruence].
    destruct (Text.group m 1) as [g |]; [| reflexivity].
    destruct (Text.float g); reflexivity.
  - exact parse_total_rtt_origin.
Qed.

(** ** Loss detector: when a session is lost *)

(** X7.  The loss detector reports a loss exactly when the pointers of
    stages 0, 1 and 2 are all present and not all equal; its verdict is
    one of three triples, so a loss always comes with its reason and one
    corrupted stage; and it reads stages 0, 1 and 2 only. *)
Theorem detect_packet_loss_lost_iff (m : gmap Z string) :
  (fst (fst (detect_packet_loss m)) = true <->
   exists p0 p1 p2, m !! 0 = Some p0 /\ m !! 1 = Some p1 /\ m !! 2 = Some p2
                    /\ ~ (p0 = p1 /\ p1 = p2))
  /\ (detect_packet_loss m = (false, None, [])
      \/ detect_packet_loss m = (true, Some "Stage_1_to_2_SKB_Mismatch", ["1->2"])
      \/ detect_packet_loss m = (true, Some "Stage_0_to_1_SKB_Mismatch", ["0->1"]))
  /\ (forall m' : gmap Z string,
         m' !! 0 = m !! 0 -> m' !! 1 = m !! 1 -> m' !! 2 = m !! 2 ->
         detect_packet_loss m' = detect_packet_loss m).
Proof.
  split; [| split].
  - unfold detect_packet_loss.
    destruct (m !! 0) as [p0 |]; [| split; [discriminate | intros (? & ? & ? & ? & _); discriminate]].
    destruct (m !! 1) as [p1 |]; [| split; [discriminate | intros (? & ? & ? & _ & ? & _); discriminate]].
    destruct (m !! 2) as [p2 |]; [| split; [discriminate | intros (? & ? & ? & _ & _ & ? & _); discriminate]].
    destruct (String.eqb p0 p1) eqn:E01; destruct (String.eqb p1 p2) eqn:E12; simpl;
      repeat match goal with
        | H : String.eqb _ _ = true |- _ => apply String.eqb_eq in H
        | H : String.eqb _ _ = false |- _ => apply String.eqb_neq in H
        end.
    all: split;
      [ intros H; try discriminate H; exists p0, p1, p2; repeat split; tauto
      | intros (q0 & q1 & q2 & H0 & H1 & H2 & Hne);
        injection H0 as <-; injection H1 as <-; injection H2 as <-;
        try reflexivity; tauto ].
  - unfold detect_packet_loss.
    destruct (m !! 0); [| auto]. destruct (m !! 1); [| auto].
    destruct (m !! 2); [| auto].
    destruct (String.eqb _ _); destruct (String.eqb _ _); simpl; auto.
  - intros m' H0 H1 H2. unfold detect_packet_loss. rewrite H0, H1, H2. reflexivity.
Qed.

(** ** Parsed records *)

Lemma parse_session_block_fields block d file src dst (r : Parsed) :
  parse_session_block block d file src dst = Some r ->
  direction r = d /\ source_file r = file /\ src_ip r = src /\ dst_ip r = dst
  /\ (drop r, drop_reason r, corrupted_stages r)
     = detect_packet_loss (skb_pointers r)
  /\ 0 <= session_id r /\ 0 <= seq r
  /\ (forall k v, Py.dict_get (path1_latencies r) k = Some v -> (0 <= v)%Q)
  /\ (forall k v, Py.dict_get (path2_latencies r) k = Some v -> (0 <= v)%Q)
  /\ (forall v, total_rtt r = Some v -> (0 <= v)%Q).
Proof.
  unfold parse_session_block. intros H.
  repeat match type of H with
         | (mbind _ ?o) = Some _ =>
             let E := fresh "E" in destruct o eqn:E; simpl in H; [| discriminate]
         | (let '(_, _) := ?p in _) = Some _ =>
             let E := fresh "E" in destruct p eqn:E; simpl in H
         end.
  injection H as <-. simpl.
  repeat split; try reflexivity.
  - congruence.
  - eapply int_nonneg; eassumption.
  - eapply int_nonneg; eassumption.
  - intros k v Hk.
    eapply (fun H => proj2 (path_latencies_entry _ _ _ k v H Hk)); eassumption.
  - intros k v Hk.
    eapply (fun H => proj2 (path_latencies_entry _ _ _ k v H Hk)); eassumption.
  - intros v ->.
    eapply (fun H => proj1 (parse_total_rtt_origin _ v H)); eassumption.
Qed.

(** X8.  Every record [parse_session_block] returns carries the direction,
    source file name and addresses the caller passed; its loss verdict is
    the detector's verdict on its own pointers; its session id and
    sequence number are nonnegative; and its latencies and its total
    round-trip time are nonnegative. *)
Theorem parse_session_block_record block d file src dst (r : Parsed) :
  parse_session_block block d file src dst = Some r ->
  direction r = d /\ source_file r = file /\ src_ip r = src /\ dst_ip r = dst
  /\ (drop r, drop_reason r, corrupted_stages r)
     = detect_packet_loss (skb_pointers r)
  /\ 0 <= session_id r /\ 0 <= seq r
  /\ (forall k v, Py.dict_get (path1_latencies r) k = Some v -> (0 <= v)%Q)
  /\ (forall k v, Py.dict_get (path2_latencies r) k = Some v -> (0 <= v)%Q)
  /\ (forall v, total_rtt r = Some v -> (0 <= v)%Q).
Proof. apply parse_session_block_fields. Qed.

Lemma parse_session_block_record_witness :
  match parse_session_block Samples.block OUTGOING "out.log" "10.0.0.1" "10.0.0.2"
  with
  | Some r => direction r = OUTGOING /\ 0 <= session_id r
  | None => False
  end.
Proof.
  destruct (parse_session_block Samples.block OUTGOING "out.log" "10.0.0.1"
              "10.0.0.2") as [r |] eqn:E.
  - destruct (parse_session_block_record _ _ _ _ _ r E)
      as (Hd & _ & _ & _ & _ & Hid & _).
    split; assumption.
  - vm_compute in E. discriminate E.
Defined.

(** ** Stage-latency resolver: bounds *)

Lemma find_max_label path1 path2 corrupted lbl :
  let r := find_max_latency_excluding_corrupted path1 path2 corrupted in
  fst r = Some lbl ->
  (0 < snd r)%Q
  /\ ((exists k, lbl = "Path1_" +:+ k /\ (k, snd r) ∈ path1 /\ k ∉ corrupted)
      \/ (exists k, lbl = "Path2_" +:+ k /\ (k, snd r) ∈ path2)).
Proof.
  simpl. intros Hl.
  destruct (find_max_origin path1 path2 corrupted)
    as [[Heq _] | ([l v] & Hin & Hpos & Heq)]; simpl in Heq;
    rewrite Heq in Hl |- *; simpl in *; [discriminate |].
  injection Hl as ->. split; [exact Hpos |].
  apply elem_of_app in Hin as [Hin | Hin].
  - left. apply elem_of_path1_candidates in Hin as (k & -> & Hin & Hok).
    exists k. split; [reflexivity |]. split; [exact Hin | apply in_list_false, Hok].
  - right. apply elem_of_path2_candidates in Hin as (k & -> & Hin).
    exists k. split; [reflexivity | exact Hin].
Qed.

Lemma find_max_nonneg path1 path2 corrupted :
  (0 <= snd (find_max_latency_excluding_corrupted path1 path2 corrupted))%Q.
Proof.
  rewrite find_max_first_seen.
  apply (scan_ge_start (candidates path1 path2 corrupted) (None, 0%Q)).
Qed.

Lemma find_max_bounds_candidate path1 path2 corrupted x :
  x ∈ candidates path1 path2 corrupted ->
  (snd x <= snd (find_max_latency_excluding_corrupted path1 path2 corrupted))%Q.
Proof. intros H. rewrite find_max_first_seen. apply scan_upper_bound, H. Qed.

Lemma find_max_le_bound path1 path2 corrupted (b : Q) :
  (0 <= b)%Q ->
  (forall x, x ∈ candidates path1 path2 corrupted -> (snd x <= b)%Q) ->
  (snd (find_max_latency_excluding_corrupted path1 path2 corrupted) <= b)%Q.
Proof.
  intros Hb H.
  destruct (find_max_origin path1 path2 corrupted)
    as [[Heq _] | (x & Hin & _ & Heq)]; simpl in Heq; rewrite Heq; simpl.
  - exact Hb.
  - apply H, Hin.
Qed.

Lemma candidates_mono path1 path2 c c' x :
  (forall k, k ∈ c -> k ∈ c') ->
  x ∈ candidates path1 path2 c' -> x ∈ candidates path1 path2 c.
Proof.
  intros Hsub Hin. destruct x as [lbl v]. unfold candidates in *.
  apply elem_of_app in Hin as [Hin | Hin]; apply elem_of_app; [left | right; exact Hin].
  apply elem_of_path1_candidates in Hin as (k & -> & Hin & Hok).
  apply elem_of_path1_candidates. exists k. split; [reflexivity |].
  split; [exact Hin |]. apply in_list_false. intros Hk.
  apply in_list_false in Hok. apply Hok, Hsub, Hk.
Qed.

(** X10.  Marking more stages as corrupted never raises the latency the
    resolver returns. *)
Theorem find_max_antitone_in_corrupted path1 path2 (c c' : list string) :
  (forall k, k ∈ c -> k ∈ c') ->
  (snd (find_max_latency_excluding_corrupted path1 path2 c')
   <= snd (find_max_latency_excluding_corrupted path1 path2 c))%Q.
Proof.
  intros Hsub. apply find_max_le_bound; [apply find_max_nonneg |].
  intros x Hx. apply find_max_bounds_candidate.
  apply (candidates_mono path1 path2 c c' x Hsub Hx).
Qed.

Lemma find_max_antitone_in_corrupted_witness :
  (snd (find_max_latency_excluding_corrupted
          [("0->1", 900%Q); ("1->2", 5%Q)] [("0->1", 7%Q)] ["0->1"])
   <= snd (find_max_latency_excluding_corrupted
             [("0->1", 900%Q); ("1->2", 5%Q)] [("0->1", 7%Q)] []))%Q.
Proof.
  apply find_max_antitone_in_corrupted. intros k Hk. inversion Hk.
Defined.

Lemma candidates_perm path1 path1' path2 path2' c x :
  path1 ≡ₚ path1' -> path2 ≡ₚ path2' ->
  x ∈ candidates path1 path2 c -> x ∈ candidates path1' path2' c.
Proof.
  intros H1 H2 Hin. destruct x as [lbl v]. unfold candidates in *.
  apply elem_of_app in Hin as [Hin | Hin]; apply elem_of_app; [left | right].
  - apply elem_of_path1_candidates in Hin as (k & -> & Hin & Hok).
    apply elem_of_path1_candidates. exists k. rewrite <- H1. auto.
  - apply elem_of_path2_candidates in Hin as (k & -> & Hin).
    apply elem_of_path2_candidates. exists k. rewrite <- H2. auto.
Qed.

(** X11.  The latency the resolver returns, and whether it returns a
    stage at all, do not depend on the order of the entries in the two
    mappings; only the label among equal maxima does. *)
Theorem find_max_latency_order_independent path1 path1' path2 path2' c :
  path1 ≡ₚ path1' -> path2 ≡ₚ path2' ->
  (snd (find_max_latency_excluding_corrupted path1 path2 c)
   == snd (find_max_latency_excluding_corrupted path1' path2' c))%Q
  /\ (fst (find_max_latency_excluding_corrupted path1 path2 c) = None
      <-> fst (find_max_latency_excluding_corrupted path1' path2' c) = None).
Proof.
  intros H1 H2.
  assert (forall p1 p1' p2 p2', p1 ≡ₚ p1' -> p2 ≡ₚ p2' ->
            (snd (find_max_latency_excluding_corrupted p1 p2 c)
             <= snd (find_max_latency_excluding_corrupted p1' p2' c))%Q) as Hle.
  { intros p1 p1' p2 p2' Hp1 Hp2. apply find_max_le_bound; [apply find_max_nonneg |].
    intros x Hx. apply find_max_bounds_candidate.
    apply (candidates_perm p1 p1' p2 p2' c x Hp1 Hp2 Hx). }
  assert (forall p1 p1' p2 p2', p1 ≡ₚ p1' -> p2 ≡ₚ p2' ->
            fst (find_max_latency_excluding_corrupted p1 p2 c) = None ->
            fst (find_max_latency_excluding_corrupted p1' p2' c) = None) as Hnone.
  { intros p1 p1' p2 p2' Hp1 Hp2 Hn.
    destruct (fst (find_max_latency_excluding_corrupted p1' p2' c)) as [lbl |] eqn:E;
      [| reflexivity].
    apply find_max_label in E as [Hpos _].
    pose proof (Hle p1' p1 p2' p2 (symmetry Hp1) (symmetry Hp2)) as Hb.
    destruct (find_max_origin p1 p2 c) as [[Heq _] | (x & _ & _ & Heq)];
      simpl in Heq; rewrite Heq in Hn, Hb; simpl in *; [lra | discriminate]. }
  split.
  - apply Qle_antisym; apply Hle; assumption || (symmetry; assumption).
  - split; apply Hnone; assumption || (symmetry; assumption).
Qed.

Lemma find_max_latency_order_independent_witness :
  (snd (find_max_latency_excluding_corrupted
          [("0->1", 5%Q); ("1->2", 9%Q)] [("2->3", 9%Q)] [])
   == snd (find_max_latency_excluding_corrupted
             [("1->2", 9%Q); ("0->1", 5%Q)] [("2->3", 9%Q)] []))%Q.
Proof.
  apply (find_max_latency_order_independent
           [("0->1", 5%Q); ("1->2", 9%Q)] [("1->2", 9%Q); ("0->1", 5%Q)]
           [("2->3", 9%Q)] [("2->3", 9%Q)] []).
  - apply perm_swap.
  - reflexivity.
Defined.

(** X9.  In every record [parse_session_block] returns, the maximum
    latency is nonnegative; without a dominant stage it is 0; a dominant
    stage names an entry of path 1 that is not corrupted, or an entry of
    path 2, whose latency is the maximum and is positive; and it is never
    a corrupted stage of path 1. *)
Theorem parse_session_block_dominant_stage block d file src dst (r : Parsed) :
  parse_session_block block d file src dst = Some r ->
  (0 <= max_latency r)%Q
  /\ (max_stage r = None -> max_latency r = 0%Q)
  /\ (forall lbl, max_stage r = Some lbl ->
        (0 < max_latency r)%Q
        /\ ((exists k, lbl = "Path1_" +:+ k
                       /\ (k, max_latency r) ∈ path1_latencies r
                       /\ k ∉ corrupted_stages r)
            \/ (exists k, lbl = "Path2_" +:+ k
                          /\ (k, max_latency r) ∈ path2_latencies r)))
  /\ (forall k, k ∈ corrupted_stages r -> max_stage r <> Some ("Path1_" +:+ k)).
Proof.
  intros Hparse. pose proof (parse_session_block_max _ _ _ _ _ _ Hparse) as Hmax.
  set (res := find_max_latency_excluding_corrupted _ _ _) in Hmax.
  assert (max_stage r = fst res) as Hs by (rewrite <- Hmax; reflexivity).
  assert (max_latency r = snd res) as Hl by (rewrite <- Hmax; reflexivity).
  rewrite Hs, Hl. split; [apply find_max_nonneg |]. split; [| split].
  - intros Hn. unfold res in *.
    destruct (find_max_origin (path1_latencies r) (path2_latencies r)
                (corrupted_stages r)) as [[Heq _] | (x & _ & _ & Heq)];
      simpl in Heq; rewrite Heq in Hn |- *; simpl in *; [reflexivity | discriminate].
  - intros lbl Hlbl. apply (find_max_label _ _ _ lbl Hlbl).
  - intros k Hk Hlbl.
    destruct (find_max_label _ _ _ _ Hlbl) as [_ [(k' & Heq & _ & Hnot) | (k' & Heq & _)]].
    + simpl in Heq. injection Heq as Heq. change (k = k') in Heq. subst k'.
      apply Hnot, Hk.
    + simpl in Heq. discriminate.
Qed.

Lemma parse_session_block_dominant_stage_witness :
  match parse_session_block Samples.block OUTGOING "out.log" "10.0.0.1" "10.0.0.2"
  with
  | Some r => (0 <= max_latency r)%Q
  | None => False
  end.
Proof.
  destruct (parse_session_block Samples.block OUTGOING "out.log" "10.0.0.1"
              "10.0.0.2") as [r |] eqn:E.
  - apply (parse_session_block_dominant_stage _ _ _ _ _ r E).
  - vm_compute in E. discriminate E.
Defined.

(** ** Grouping by pair name *)

Lemma group_append_names groups name s :
  map fst (group_append groups name s)
  = if decide (name ∈ map fst groups) then map fst groups
    else map fst groups ++ [name].
Proof.
  induction groups as [| [n ms] groups IH].
  - simpl. destruct (decide (name ∈ [])) as [H | H]; [inversion H | reflexivity].
  - cbn [group_append map fst]. destruct (String.eqb n name) eqn:E.
    + apply String.eqb_eq in E. subst n.
      destruct (decide (name ∈ name :: map fst groups)) as [H | H];
        [reflexivity | destruct H; apply list_elem_of_here].
    + apply String.eqb_neq in E. cbn [map fst]. rewrite IH.
      destruct (decide (name ∈ map fst groups)) as [Hin | Hnin];
        destruct (decide (name ∈ n :: map fst groups)) as [H | H];
        try reflexivity.
      * destruct H. apply list_elem_of_further, Hin.
      * apply elem_of_cons in H as [-> | H]; [congruence | tauto].
Qed.

Lemma group_append_member groups name s n members :
  NoDup (map fst groups) ->
  (n, members) ∈ group_append groups name s ->
  (n <> name /\ (n, members) ∈ groups)
  \/ (n = name /\ exists ms, members = ms ++ [s]
                  /\ ((name, ms) ∈ groups \/ (ms = [] /\ name ∉ map fst groups))).
Proof.
  induction groups as [| [n0 ms0] groups IH]; cbn [group_append map fst];
    intros Hnd Hin.
  - apply list_elem_of_singleton in Hin. injection Hin as -> ->.
    right. split; [reflexivity |]. exists []. split; [reflexivity |].
    right. split; [reflexivity | intros H; inversion H].
  - apply NoDup_cons in Hnd as [Hfresh Hnd].
    destruct (String.eqb n0 name) eqn:E.
    + apply String.eqb_eq in E. subst n0.
      apply elem_of_cons in Hin as [Heq | Hin].
      * injection Heq as -> ->. right. split; [reflexivity |].
        exists ms0. split; [reflexivity |]. left. apply list_elem_of_here.
      * left. split; [| apply list_elem_of_further, Hin].
        intros ->. apply Hfresh.
        apply list_elem_of_fmap. exists (name, members). split; [reflexivity | exact Hin].
    + apply String.eqb_neq in E.
      apply elem_of_cons in Hin as [Heq | Hin].
      * injection Heq as -> ->. left. split; [exact E | apply list_elem_of_here].
      * destruct (IH Hnd Hin) as [[Hne Hg] | (-> & ms & -> & Hms)].
        -- left. split; [exact Hne | apply list_elem_of_further, Hg].
        -- right. split; [reflexivity |]. exists ms. split; [reflexivity |].
           destruct Hms as [Hg | [-> Hnin]].
           ++ left. apply list_elem_of_further, Hg.
           ++ right. split; [reflexivity |].
              intros H. apply elem_of_cons in H as [-> | H]; [congruence | tauto].
Qed.

Lemma filter_none {A} (P : A -> Prop) `{forall x, Decision (P x)} (l : list A) :
  (forall x, x ∈ l -> ~ P x) -> filter P l = [].
Proof.
  induction l as [| x l IH]; intros Hn; [reflexivity |].
  rewrite filter_cons_False by (apply Hn, list_elem_of_here).
  apply IH. intros y Hy. apply Hn, list_elem_of_further, Hy.
Qed.


Lemma grouped_step groups l s :
  grouped groups l -> grouped (group_append groups (pair_name s) s) (l ++ [s]).
Proof.
  intros (Hnd & Hmem & Hall). split; [| split].
  - rewrite group_append_names. destruct (decide _) as [Hin | Hnin]; [exact Hnd |].
    apply NoDup_app. split; [exact Hnd |]. split; [| apply NoDup_singleton].
    intros x Hx Hx'. apply list_elem_of_singleton in Hx'. subst x. tauto.
  - intros name members Hin.
    apply (group_append_member _ _ _ _ _ Hnd) in Hin
      as [[Hne Hg] | (-> & ms & -> & Hms)].
    + destruct (Hmem _ _ Hg) as [Hnn ->]. split; [exact Hnn |].
      rewrite filter_app, filter_cons_False by congruence.
      rewrite filter_nil, app_nil_r. reflexivity.
    + split; [destruct ms; discriminate |].
      rewrite filter_app, filter_cons_True by reflexivity. rewrite filter_nil.
      f_equal. destruct Hms as [Hg | [-> Hnin]].
      * apply (Hmem _ _ Hg).
      * symmetry. apply filter_none. intros x Hx Hp. apply Hnin.
        rewrite <- Hp. apply Hall, Hx.
  - intros x Hx. rewrite group_append_names.
    apply elem_of_app in Hx as [Hx | Hx].
    + destruct (decide _); [apply Hall, Hx |].
      apply elem_of_app. left. apply Hall, Hx.
    + apply list_elem_of_singleton in Hx. subst x.
      destruct (decide _) as [Hin | Hnin]; [exact Hin |].
      apply elem_of_app. right. apply list_elem_of_here.
Qed.

Lemma grouped_fold sessions : forall groups l,
  grouped groups l ->
  grouped (fold_left (fun g s => group_append g (pair_name s) s) sessions groups)
    (l ++ sessions).
Proof.
  induction sessions as [| s sessions IH]; intros groups l H; simpl.
  - rewrite app_nil_r. exact H.
  - replace (l ++ s :: sessions) with ((l ++ [s]) ++ sessions)
      by (rewrite <- app_assoc; reflexivity).
    apply IH, grouped_step, H.
Qed.

Lemma sessions_by_pair_grouped sessions :
  grouped (sessions_by_pair sessions) sessions.
Proof.
  apply (grouped_fold sessions [] []).
  split; [constructor |]. split; intros; match goal with H : _ ∈ [] |- _ => inversion H end.
Qed.

(** X12.  The groups built by the matcher have distinct names, none is
    empty, each holds exactly the sessions of its pair name in input
    order, and every input session has its group. *)
Theorem sessions_by_pair_groups (sessions : list Session) :
  NoDup (map fst (sessions_by_pair sessions))
  /\ (forall name members,
        (name, members) ∈ sessions_by_pair sessions ->
        members <> []
        /\ members = filter (fun s => pair_name s = name) sessions)
  /\ (forall s, s ∈ sessions ->
        (pair_name s, filter (fun s' => pair_name s' = pair_name s) sessions)
        ∈ sessions_by_pair sessions).
Proof.
  destruct (sessions_by_pair_grouped sessions) as (Hnd & Hmem & Hall).
  split; [exact Hnd |]. split; [exact Hmem |].
  intros s Hs. specialize (Hall s Hs).
  apply list_elem_of_fmap in Hall as ([name members] & Heq & Hin). simpl in Heq. subst name.
  destruct (Hmem _ _ Hin) as [_ Hm]. rewrite <- Hm. exact Hin.
Qed.

(** ** Session matcher: duplicates and single directions *)

Lemma lookup_fold_insert_last (l : list Session) : forall (lk : gmap (Z * Z) Session) k i,
  fold_left (fun m s => <[key_of s := s]> m) l lk !! k = Some i ->
  (exists l1 l2, l = l1 ++ i :: l2 /\ key_of i = k /\ (k ∉ map key_of l2))
  \/ ((k ∉ map key_of l) /\ lk !! k = Some i).
Proof.
  induction l as [| s l IH]; intros lk k i H; simpl in H.
  - right. split; [intros Hin; inversion Hin | exact H].
  - destruct (IH _ _ _ H) as [(l1 & l2 & -> & Hk & Hfresh) | [Hfresh Hlk]].
    + left. exists (s :: l1), l2. split; [reflexivity |]. split; assumption.
    + destruct (decide (key_of s = k)) as [E | E].
      * rewrite <- E, lookup_insert_eq in Hlk. injection Hlk as ->.
        left. exists [], l. rewrite <- E in Hfresh.
        split; [reflexivity |]. split; [exact E |]. rewrite <- E. exact Hfresh.
      * rewrite lookup_insert_ne in Hlk by exact E. right. split; [| exact Hlk].
        simpl. intros Hin. apply elem_of_cons in Hin as [-> | Hin]; tauto.
Qed.

(** X13.  When several INCOMING records of a group share a key, an
    OUTGOING record with that key is paired with the last of them: no
    INCOMING record of the group after the matched one has the key. *)
Theorem matched_with_last_incoming (sessions : list Session) (o i : Session) :
  (o, i) ∈ fst (fst (match_session_pairs_for_all_nodes sessions)) ->
  exists l1 l2,
    filter (fun s : Session => direction s = INCOMING)
      (filter (fun s : Session => pair_name s = pair_name o) sessions)
    = l1 ++ i :: l2
    /\ forall s, s ∈ l2 -> key_of s <> key_of o.
Proof.
  intros H. apply all_matched_pairs_origin in H as (name & members & Hg & H).
  destruct (sessions_by_pair_grouped sessions) as (_ & Hmem & _).
  destruct (Hmem _ _ Hg) as [_ Hm].
  rewrite match_group_eq in H. simpl in H. apply elem_of_matched in H as [Ho Hlk].
  apply list_elem_of_filter in Ho as [_ Ho].
  rewrite (sessions_by_pair_well_grouped sessions name members o Hg Ho).
  rewrite <- Hm.
  apply lookup_fold_insert_last in Hlk
    as [(l1 & l2 & Heq & Hk & Hfresh) | [_ Hempty]].
  - exists l1, l2. split; [exact Heq |].
    intros s Hs E. apply Hfresh. rewrite <- E.
    apply list_elem_of_fmap. exists s. split; [reflexivity | exact Hs].
  - rewrite lookup_empty in Hempty. discriminate.
Qed.

Lemma matched_with_last_incoming_witness :
  exists l1 l2,
    filter (fun s : Session => direction s = INCOMING)
      (filter (fun s : Session => pair_name s = pair_name Samples.out_7_3)
         Samples.duplicated)
    = l1 ++ Samples.in_7_3_late :: l2
    /\ forall s, s ∈ l2 -> key_of s <> key_of Samples.out_7_3.
Proof.
  apply (matched_with_last_incoming Samples.duplicated).
  vm_compute. apply list_elem_of_here.
Defined.

Lemma filter_concat {A} (P : A -> Prop) `{forall x, Decision (P x)} (ls : list (list A)) :
  filter P (concat ls) = concat (map (filter P) ls).
Proof.
  induction ls as [| l ls IH]; simpl; [reflexivity |].
  rewrite filter_app, IH. reflexivity.
Qed.

Lemma outgoing_flat (groups : list (string * list Session)) :
  map fst (flat_map (fun g => fst (fst (match_group (snd g)))) groups)
  ++ flat_map (fun g => snd (fst (match_group (snd g)))) groups
  ≡ₚ filter (fun s : Session => direction s = OUTGOING) (concat (map snd groups)).
Proof.
  induction groups as [| g groups IH]; [reflexivity |].
  cbn [flat_map map concat]. rewrite map_app, filter_app.
  rewrite perm_interleave. apply Permutation_app; [| exact IH].
  rewrite match_group_eq. simpl. apply outgoing_split.
Qed.

Lemma incoming_only_origin sessions i :
  i ∈ snd (match_session_pairs_for_all_nodes sessions) ->
  exists name members,
    (name, members) ∈ sessions_by_pair sessions
    /\ i ∈ snd (match_group members).
Proof.
  unfold match_session_pairs_for_all_nodes. rewrite extend_fold. simpl.
  intros H. apply list_elem_of_In, in_flat_map in H as ([name members] & Hg & H).
  exists name, members.
  split; [apply list_elem_of_In, Hg | apply list_elem_of_In, H].
Qed.

(** X14.  Without any assumption on the keys, every OUTGOING record of
    the input is in exactly one of the matched pairs (as first half) and
    the outgoing-only list; and an incoming-only record is an INCOMING
    record of the input whose key no matched pair of its group has. *)
Theorem outgoing_records_partition (sessions : list Session) :
  let r := match_session_pairs_for_all_nodes sessions in
  map fst (fst (fst r)) ++ snd (fst r)
  ≡ₚ filter (fun s : Session => direction s = OUTGOING) sessions
  /\ (length (fst (fst r)) + length (snd (fst r))
      = length (filter (fun s : Session => direction s = OUTGOING) sessions))%nat
  /\ (forall i : Session, i ∈ snd r ->
        (i ∈ sessions) /\ direction i = INCOMING
        /\ forall o i' : Session, (o, i') ∈ fst (fst r) ->
             pair_name o = pair_name i -> key_of o <> key_of i).
Proof.
  intros r.
  assert (map fst (fst (fst r)) ++ snd (fst r)
          ≡ₚ filter (fun s : Session => direction s = OUTGOING) sessions) as Hperm.
  { unfold r, match_session_pairs_for_all_nodes. rewrite extend_fold. simpl.
    rewrite outgoing_flat, sessions_by_pair_members. reflexivity. }
  split; [exact Hperm |]. split.
  - apply Permutation_length in Hperm. rewrite length_app, length_map in Hperm.
    exact Hperm.
  - intros i Hi. apply incoming_only_origin in Hi as (name & members & Hg & Hi).
    rewrite match_group_eq in Hi. simpl in Hi.
    apply list_elem_of_filter in Hi as [Hkey Hi].
    apply list_elem_of_filter in Hi as [Hdir Hi].
    split; [apply (group_member_of_input sessions name members i Hg Hi) |].
    split; [exact Hdir |].
    intros o i' Hm Hname Hk.
    apply all_matched_pairs_origin in Hm as (name' & members' & Hg' & Hm).
    pose proof (sessions_by_pair_well_grouped sessions) as Hwf.
    destruct (sessions_by_pair_grouped sessions) as (Hnd & Hmem & _).
    rewrite match_group_eq in Hm. simpl in Hm.
    apply elem_of_matched in Hm as [Ho Hlk].
    pose proof Ho as Ho'. apply list_elem_of_filter in Ho' as [_ Ho'].
    assert (name' = name) as ->.
    { rewrite <- (Hwf name' members' o Hg' Ho'), <- (Hwf name members i Hg Hi).
      exact Hname. }
    assert (members' = members) as ->.
    { destruct (Hmem _ _ Hg) as [_ ->]. destruct (Hmem _ _ Hg') as [_ ->]. reflexivity. }
    apply Hkey. apply elem_of_matched_keys. exists o, i'.
    repeat split; assumption.
Qed.

Lemma flat_map_nil {A B} (f : A -> list B) (l : list A) :
  (forall x, x ∈ l -> f x = []) -> flat_map f l = [].
Proof.
  induction l as [| x l IH]; intros H; [reflexivity |]. simpl.
  rewrite (H x (list_elem_of_here _ _)), IH; [reflexivity |].
  intros y Hy. apply H, list_elem_of_further, Hy.
Qed.

Lemma filter_all {A} (P : A -> Prop) `{forall x, Decision (P x)} (l : list A) :
  (forall x, x ∈ l -> P x) -> filter P l = l.
Proof.
  induction l as [| x l IH]; intros Hn; [reflexivity |].
  rewrite filter_cons_True by (apply Hn, list_elem_of_here).
  f_equal. apply IH. intros y Hy. apply Hn, list_elem_of_further, Hy.
Qed.

Lemma match_group_one_direction (l : list Session) :
  ((forall s : Session, s ∈ l -> direction s = OUTGOING) -> match_group l = ([], l, []))
  /\ ((forall s : Session, s ∈ l -> direction s = INCOMING) -> match_group l = ([], [], l)).
Proof.
  split; intros H; rewrite match_group_eq; simpl.
  - rewrite (filter_none (fun s : Session => direction s = INCOMING) l)
      by (intros s Hs; rewrite (H s Hs); discriminate).
    rewrite (filter_all (fun s : Session => direction s = OUTGOING) l) by exact H.
    unfold build_incoming_lookup. simpl.
    assert (omap (pair_with ∅) l = []) as ->.
    { clear H. induction l as [| s l IH]; [reflexivity |].
      rewrite omap_cons_eq. unfold pair_with at 1. rewrite lookup_empty. exact IH. }
    rewrite filter_all by (intros s _; apply lookup_empty). reflexivity.
  - rewrite (filter_none (fun s : Session => direction s = OUTGOING) l)
      by (intros s Hs; rewrite (H s Hs); discriminate).
    rewrite (filter_all (fun s : Session => direction s = INCOMING) l) by exact H.
    simpl. f_equal. apply filter_all. intros s _. apply not_elem_of_empty.
Qed.

Lemma flat_map_members {B} (f : list Session -> list B)
    (groups : list (string * list Session)) (P : list Session -> Prop)
    (g : list Session -> list B) :
  (forall name members, (name, members) ∈ groups -> P members) ->
  (forall members, P members -> f members = g members) ->
  flat_map (fun x => f (snd x)) groups = flat_map (fun x => g (snd x)) groups.
Proof.
  intros HP Hfg. induction groups as [| [name members] groups IH]; [reflexivity |].
  simpl. rewrite (Hfg members (HP name members (list_elem_of_here _ _))).
  f_equal. apply IH. intros n m Hin. apply (HP n m), list_elem_of_further, Hin.
Qed.

Lemma flat_map_const_nil {A B} (l : list A) : flat_map (fun _ : A => @nil B) l = [].
Proof. induction l; [reflexivity | exact IHl]. Qed.

Lemma flat_map_snd (groups : list (string * list Session)) :
  flat_map (fun x => snd x) groups = concat (map snd groups).
Proof. apply flat_map_concat_map. Qed.

(** X15.  When every session is OUTGOING (no incoming trace) the matcher
    returns no pair and no incoming-only record, and the outgoing-only
    list is a rearrangement of the input; symmetrically when every
    session is INCOMING. *)
Theorem match_one_direction (sessions : list Session) :
  ((forall s : Session, s ∈ sessions -> direction s = OUTGOING) ->
   exists outgoing_only,
     match_session_pairs_for_all_nodes sessions = ([], outgoing_only, [])
     /\ outgoing_only ≡ₚ sessions)
  /\ ((forall s : Session, s ∈ sessions -> direction s = INCOMING) ->
      exists incoming_only,
        match_session_pairs_for_all_nodes sessions = ([], [], incoming_only)
        /\ incoming_only ≡ₚ sessions).
Proof.
  assert (forall d,
            (forall s : Session, s ∈ sessions -> direction s = d) ->
            forall name members, (name, members) ∈ sessions_by_pair sessions ->
              forall s : Session, s ∈ members -> direction s = d) as Hdir.
  { intros d H name members Hg s Hs.
    apply H, (group_member_of_input sessions name members s Hg Hs). }
  split; intros H; unfold match_session_pairs_for_all_nodes; rewrite extend_fold;
    cbn [fst snd app].
  - exists (concat (map snd (sessions_by_pair sessions))).
    split; [| apply sessions_by_pair_members].
    rewrite (flat_map_members (fun l => fst (fst (match_group l))) _ _
               (fun _ => []) (Hdir OUTGOING H))
      by (intros l Hl; rewrite (proj1 (match_group_one_direction l) Hl); reflexivity).
    rewrite (flat_map_members (fun l => snd (fst (match_group l))) _ _
               (fun l => l) (Hdir OUTGOING H))
      by (intros l Hl; rewrite (proj1 (match_group_one_direction l) Hl); reflexivity).
    rewrite (flat_map_members (fun l => snd (match_group l)) _ _
               (fun _ => []) (Hdir OUTGOING H))
      by (intros l Hl; rewrite (proj1 (match_group_one_direction l) Hl); reflexivity).
    rewrite !flat_map_const_nil, flat_map_snd. reflexivity.
  - exists (concat (map snd (sessions_by_pair sessions))).
    split; [| apply sessions_by_pair_members].
    rewrite (flat_map_members (fun l => fst (fst (match_group l))) _ _
               (fun _ => []) (Hdir INCOMING H))
      by (intros l Hl; rewrite (proj2 (match_group_one_direction l) Hl); reflexivity).
    rewrite (flat_map_members (fun l => snd (fst (match_group l))) _ _
               (fun _ => []) (Hdir INCOMING H))
      by (intros l Hl; rewrite (proj2 (match_group_one_direction l) Hl); reflexivity).
    rewrite (flat_map_members (fun l => snd (match_group l)) _ _
               (fun l => l) (Hdir INCOMING H))
      by (intros l Hl; rewrite (proj2 (match_group_one_direction l) Hl); reflexivity).
    rewrite !flat_map_const_nil, flat_map_snd. reflexivity.
Qed.

(** ** Analyses and the report *)

(** X16.  In a bidirectional analysis the drop flag is set exactly when
    the list of drop details is not empty, and is clear exactly when
    neither direction dropped; each detail is the tagged reason of a
    direction that dropped; and the overall maximum latency is the larger
    of the two directions' maxima. *)
Theorem analyze_pair_drop_and_max (o i : Session) (key : string) :
  let a := analyze_single_session_pair o i key in
  (a_drop a = true <-> a_drop_details a <> [])
  /\ (a_drop a = false <-> drop o = false /\ drop i = false)
  /\ (forall detail, detail ∈ a_drop_details a ->
        (drop o = true /\ detail = "OUTGOING_" +:+ Py.str_opt (drop_reason o))
        \/ (drop i = true /\ detail = "INCOMING_" +:+ Py.str_opt (drop_reason i)))
  /\ (max_latency o <= a_max_latency a)%Q
  /\ (max_latency i <= a_max_latency a)%Q
  /\ (a_max_latency a = max_latency o \/ a_max_latency a = max_latency i).
Proof.
  simpl. unfold overall_max.
  repeat split.
  - destruct (drop o), (drop i); simpl; congruence.
  - destruct (drop o), (drop i); simpl; congruence.
  - destruct (drop o); [discriminate | reflexivity].
  - destruct (drop o), (drop i); simpl in *; congruence.
  - intros [-> ->]. reflexivity.
  - intros detail Hin. destruct (drop o), (drop i); simpl in Hin;
      repeat (apply elem_of_cons in Hin as [-> | Hin]; [auto |]); inversion Hin.
  - destruct (Py.ge _ _) eqn:E; simpl; [lra |]. apply ge_false in E. lra.
  - destruct (Py.ge _ _) eqn:E; simpl; [apply ge_true in E; exact E | lra].
  - destruct (Py.ge _ _); simpl; auto.
Qed.


Lemma bidirectional_consistent o i key :
  consistent (Bidirectional (analyze_single_session_pair o i key)).
Proof.
  unfold consistent. simpl. destruct (drop o), (drop i); simpl; split; congruence.
Qed.

Lemma unidirectional_consistent s key d :
  consistent (Unidirectional (analyze_single_unidirectional_session s key d)).
Proof.
  unfold consistent. simpl. destruct (drop s); simpl; split; congruence.
Qed.


Lemma file_analysis_ok acc x :
  consistent x -> filed_ok acc -> filed_ok (file_analysis acc x).
Proof.
  intros [Hx1 Hx2] [Hv Hd]. destruct acc as [valid dropped].
  unfold file_analysis. simpl in Hv, Hd.
  destruct (any_drop x) eqn:E; split; simpl; try assumption.
  - apply Forall_app. split; [exact Hd |]. constructor; [| constructor].
    split; [exact E | apply Hx1; reflexivity].
  - apply Forall_app. split; [exact Hv |]. constructor; [| constructor].
    split; [exact E |].
    destruct (any_drop_details x) eqn:Ed; [reflexivity |].
    assert (false = true) by (apply Hx2; discriminate). discriminate.
Qed.

Lemma file_analysis_count acc x :
  (length (fst (file_analysis acc x)) + length (snd (file_analysis acc x))
   = S (length (fst acc) + length (snd acc)))%nat.
Proof.
  destruct acc as [valid dropped]. unfold file_analysis.
  destruct (any_drop x); simpl; rewrite length_app; simpl; lia.
Qed.

Lemma file_analysis_fold {A} (f : A -> AnyAnalysis) (l : list A) : forall acc,
  (forall x, consistent (f x)) ->
  filed_ok acc ->
  let res := fold_left (fun acc x => file_analysis acc (f x)) l acc in
  filed_ok res
  /\ (length (fst res) + length (snd res)
      = length (fst acc) + length (snd acc) + length l)%nat.
Proof.
  induction l as [| x l IH]; intros acc Hf Hok; simpl.
  - split; [exact Hok | lia].
  - destruct (IH (file_analysis acc (f x)) Hf (file_analysis_ok _ _ (Hf x) Hok))
      as [Hok' Hlen].
    split; [exact Hok' |]. simpl in Hlen. rewrite Hlen, file_analysis_count. lia.
Qed.

Lemma report_accounting
    (sessions : list Session) (node_pairs : list NodePair) (now : string) :
  let report := generate_analysis_report sessions node_pairs now in
  let r := match_session_pairs_for_all_nodes sessions in
  r_matched_sessions report = length (fst (fst r))
  /\ r_outgoing_only report = length (snd (fst r))
  /\ r_incoming_only report = length (snd r)
  /\ (r_total_sessions report
      = length (fst (fst r)) + length (snd (fst r)) + length (snd r))%nat
  /\ (length (r_valid_sessions report) + length (r_dropped_sessions report)
      = r_total_sessions report)%nat
  /\ filed_ok (r_valid_sessions report, r_dropped_sessions report).
Proof.
  unfold generate_analysis_report.
  destruct (match_session_pairs_for_all_nodes sessions) as [[m oo] io]. simpl.
  set (f1 := fun p : Session * Session =>
               Bidirectional (analyze_single_session_pair (fst p) (snd p)
                                (pair_session_key (fst p)))).
  set (f2 := fun s : Session =>
               Unidirectional (analyze_single_unidirectional_session s
                                 (single_session_key s OUTGOING) OUTGOING)).
  set (f3 := fun s : Session =>
               Unidirectional (analyze_single_unidirectional_session s
                                 (single_session_key s INCOMING) INCOMING)).
  assert (filed_ok ([], [])) as H0 by (split; constructor).
  destruct (file_analysis_fold f1 m ([], [])
              (fun p => bidirectional_consistent _ _ _) H0) as [H1 L1].
  destruct (file_analysis_fold f2 oo _
              (fun s => unidirectional_consistent _ _ _) H1) as [H2 L2].
  destruct (file_analysis_fold f3 io _
              (fun s => unidirectional_consistent _ _ _) H2) as [H3 L3].
  subst f1 f2 f3. cbv beta in *. cbn [fst snd length Nat.add] in *.
  repeat split; try reflexivity; try apply H3. rewrite L3, L2, L1. lia.
Qed.

(** X17.  In every report the valid and the dropped analyses together
    number [total_sessions], which is the sum of the three counts; a valid
    analysis has no drop flag and no drop detail, a dropped one has the
    flag and at least one detail. *)
Theorem generate_analysis_report_accounting
    (sessions : list Session) (node_pairs : list NodePair) (now : string) :
  let report := generate_analysis_report sessions node_pairs now in
  (length (r_valid_sessions report) + length (r_dropped_sessions report)
   = r_total_sessions report)%nat
  /\ (r_total_sessions report
      = r_matched_sessions report + r_outgoing_only report
        + r_incoming_only report)%nat
  /\ Forall (fun x => any_drop x = false /\ any_drop_details x = [])
       (r_valid_sessions report)
  /\ Forall (fun x => any_drop x = true /\ any_drop_details x <> [])
       (r_dropped_sessions report).
Proof.
  destruct (report_accounting sessions node_pairs now)
    as (Hm & Ho & Hi & Ht & Hlen & Hv & Hd).
  simpl in *. repeat split; try assumption. lia.
Qed.

(** X18.  When the key is unique per direction within each pair-name
    group, [total_sessions] plus [matched_sessions] is the number of
    sessions loaded, so the report holds at most one analysis per
    session. *)
Theorem generate_analysis_report_covers_input
    (sessions : list Session) (node_pairs : list NodePair) (now : string) :
  NoDup (map full_key sessions) ->
  let report := generate_analysis_report sessions node_pairs now in
  (r_total_sessions report + r_matched_sessions report = length sessions)%nat
  /\ (length (r_valid_sessions report) + length (r_dropped_sessions report)
      <= length sessions)%nat.
Proof.
  intros Hnd. pose proof (all_records sessions Hnd) as Hperm.
  apply Permutation_length in Hperm. unfold records in Hperm.
  rewrite !length_app, !length_map in Hperm.
  destruct (report_accounting sessions node_pairs now)
    as (Hm & Ho & Hi & Ht & Hlen & _).
  simpl in *. lia.
Qed.

Lemma generate_analysis_report_covers_input_witness :
  let report := generate_analysis_report Samples.sessions [] "now" in
  (r_total_sessions report + r_matched_sessions report
   = length Samples.sessions)%nat.
Proof.
  apply (generate_analysis_report_covers_input Samples.sessions [] "now").
  apply (bool_decide_unpack _). vm_compute. exact I.
Defined.

(** ** Trace files and node pairs *)

Lemma contains_false_startswith sep s :
  Text.contains sep s = false -> Text.startswith s sep = false.
Proof.
  destruct s; simpl; intros H; apply orb_false_iff in H as [H _]; exact H.
Qed.

Lemma split_str_no_marker sep s :
  Text.contains sep s = false -> Text.split_str sep s = [s].
Proof.
  unfold Text.split_str. induction s as [| c s IH]; intros H; [reflexivity |].
  cbn [Text.split_str_from]. rewrite (contains_false_startswith _ _ H).
  simpl in H. apply orb_false_iff in H as [_ H]. rewrite (IH H). reflexivity.
Qed.

Lemma parse_blocks_fields blocks d file src dst (r : Parsed) :
  r ∈ parse_blocks blocks d file src dst ->
  exists block, block ∈ blocks
                /\ parse_session_block block d file src dst = Some r.
Proof.
  unfold parse_blocks. intros H. apply list_elem_of_omap in H as (b & Hb & Hp).
  exists b. auto.
Qed.

(** X19.  [parse_log_file] returns no record for a file that does not
    exist and for a file without the trace marker; it returns at most one
    record per marker; and every record carries the direction, source
    file name and addresses the caller passed. *)
Theorem parse_log_file_records (fs : FileSystem) (path : string)
    (d : Direction) (file src dst : string) :
  (fs path = None -> parse_log_file fs path d file src dst = [])
  /\ (forall content, fs path = Some content ->
        Text.contains trace_marker content = false ->
        parse_log_file fs path d file src dst = [])
  /\ (forall content, fs path = Some content ->
        (S (length (parse_log_file fs path d file src dst))
         <= length (Text.split_str trace_marker content))%nat)
  /\ (forall r : Parsed, r ∈ parse_log_file fs path d file src dst ->
        direction r = d /\ source_file r = file
        /\ src_ip r = src /\ dst_ip r = dst).
Proof.
  unfold parse_log_file. split; [| split; [| split]].
  - intros ->. reflexivity.
  - intros content -> Hc. rewrite (split_str_no_marker _ _ Hc). reflexivity.
  - intros content ->. unfold parse_blocks.
    destruct (Text.split_str trace_marker content) as [| b bs] eqn:E.
    + unfold Text.split_str in E. destruct content; simpl in E;
        [discriminate |].
      destruct (Text.startswith _ _); [discriminate |].
      destruct (Text.split_str_from _ _ _); discriminate.
    + simpl. apply le_n_S. clear E.
      induction bs as [| x bs IH]; [simpl; lia |].
      rewrite omap_cons_eq. destruct (parse_session_block _ _ _ _ _); simpl; lia.
  - intros r Hr. destruct (fs path) as [content |]; [| inversion Hr].
    apply parse_blocks_fields in Hr as (block & _ & Hp).
    apply parse_session_block_fields in Hp as (H1 & H2 & H3 & H4 & _). auto.
Qed.

Lemma load_fold fs pairs : forall acc,
  fold_left (fun sessions pair => sessions ++ load_pair fs pair) pairs acc
  = acc ++ flat_map (load_pair fs) pairs.
Proof.
  induction pairs as [| p pairs IH]; intros acc; simpl.
  - rewrite app_nil_r. reflexivity.
  - rewrite IH, <- app_assoc. reflexivity.
Qed.


Lemma load_direction_origin fs file d pair (r : Parsed) :
  r ∈ load_direction fs file d pair ->
  direction r = d /\ src_ip r = np_src_ip pair /\ dst_ip r = np_dst_ip pair
  /\ exists f, file = Some f /\ f <> "" /\ fs f <> None
               /\ source_file r = Text.basename f.
Proof.
  unfold load_direction. destruct file as [f |]; simpl; [| intros H; inversion H].
  destruct (String.eqb f "") eqn:E; simpl; [intros H; inversion H |].
  apply String.eqb_neq in E. intros H.
  unfold parse_log_file in H. destruct (fs f) as [content |] eqn:Ef; [| inversion H].
  apply parse_blocks_fields in H as (block & _ & Hp).
  apply parse_session_block_fields in Hp as (H1 & H2 & H3 & H4 & _).
  repeat split; try assumption. exists f.
  split; [reflexivity |]. split; [exact E |]. split; [congruence | exact H2].
Qed.

Lemma load_pair_origin fs pair (s : Session) :
  s ∈ load_pair fs pair ->
  pair_name s = np_pair_name pair
  /\ src_ip s = np_src_ip pair /\ dst_ip s = np_dst_ip pair
  /\ ((direction s = OUTGOING /\ from_file fs (np_outgoing_file pair) s)
      \/ (direction s = INCOMING /\ from_file fs (np_incoming_file pair) s)).
Proof.
  unfold load_pair. intros H. apply list_elem_of_fmap in H as (r & -> & Hr). simpl.
  split; [reflexivity |].
  apply elem_of_app in Hr as [Hr | Hr];
    apply load_direction_origin in Hr as (Hd & Hs & Hdst & Hf);
    (split; [exact Hs |]); (split; [exact Hdst |]); [left | right];
    (split; [exact Hd | exact Hf]).
Qed.

Lemma load_origin fs pairs (s : Session) :
  s ∈ load_and_parse_data fs pairs ->
  exists pair, pair ∈ pairs /\ s ∈ load_pair fs pair.
Proof.
  unfold load_and_parse_data. rewrite load_fold. simpl.
  intros H. apply list_elem_of_In, in_flat_map in H as (pair & Hp & Hs).
  exists pair. split; apply list_elem_of_In; assumption.
Qed.

(** X20.  Every session [load_and_parse_data] returns belongs to a
    configured node pair: it has the pair's name and addresses, and it was
    read either as OUTGOING from the pair's outgoing file or as INCOMING
    from its incoming file, a nonempty path of an existing file whose
    base name is the session's source file. *)
Theorem load_and_parse_data_provenance (fs : FileSystem)
    (node_pairs : list NodePair) (s : Session) :
  s ∈ load_and_parse_data fs node_pairs ->
  exists pair,
    pair ∈ node_pairs
    /\ pair_name s = np_pair_name pair
    /\ src_ip s = np_src_ip pair /\ dst_ip s = np_dst_ip pair
    /\ ((direction s = OUTGOING
         /\ exists f, np_outgoing_file pair = Some f /\ f <> "" /\ fs f <> None
                      /\ source_file s = Text.basename f)
        \/ (direction s = INCOMING
            /\ exists f, np_incoming_file pair = Some f /\ f <> ""
                         /\ fs f <> None
                         /\ source_file s = Text.basename f)).
Proof.
  intros H. apply load_origin in H as (pair & Hp & Hs).
  exists pair. split; [exact Hp |]. apply load_pair_origin, Hs.
Qed.

Lemma load_and_parse_data_provenance_witness :
  exists pair,
    pair ∈ Samples.node_pairs
    /\ pair_name (List.hd Samples.out_7_3
                    (load_and_parse_data Samples.fs Samples.node_pairs))
       = np_pair_name pair.
Proof.
  destruct (load_and_parse_data_provenance Samples.fs Samples.node_pairs
              (List.hd Samples.out_7_3
                 (load_and_parse_data Samples.fs Samples.node_pairs)))
    as (pair & Hin & Hname & _).
  - apply list_elem_of_In. vm_compute. left. reflexivity.
  - exists pair. split; assumption.
Defined.

Lemma NoDup_map_inj {A B} (f : A -> B) (l : list A) x y :
  NoDup (map f l) -> x ∈ l -> y ∈ l -> f x = f y -> x = y.
Proof.
  induction l as [| a l IH]; intros Hnd Hx Hy Hf; [inversion Hx |].
  simpl in Hnd. apply NoDup_cons in Hnd as [Hfresh Hnd].
  apply elem_of_cons in Hx as [-> | Hx]; apply elem_of_cons in Hy as [-> | Hy].
  - reflexivity.
  - destruct Hfresh. rewrite Hf. apply list_elem_of_fmap. exists y. auto.
  - destruct Hfresh. rewrite <- Hf. apply list_elem_of_fmap. exists x. auto.
  - apply IH; assumption.
Qed.

(** X21.  When the configured node pairs have distinct names, every pair
    matched among the loaded sessions joins a record of one node pair's
    outgoing file with a record of the same node pair's incoming file,
    with equal keys. *)
Theorem loaded_pairs_match_within_node_pair (fs : FileSystem)
    (node_pairs : list NodePair) (o i : Session) :
  NoDup (map np_pair_name node_pairs) ->
  (o, i) ∈ fst (fst (match_session_pairs_for_all_nodes
                       (load_and_parse_data fs node_pairs))) ->
  exists pair fo fi,
    pair ∈ node_pairs
    /\ np_outgoing_file pair = Some fo /\ np_incoming_file pair = Some fi
    /\ source_file o = Text.basename fo /\ source_file i = Text.basename fi
    /\ pair_name o = np_pair_name pair /\ pair_name i = np_pair_name pair
    /\ key_of o = key_of i.
Proof.
  intros Hnd H. set (sessions := load_and_parse_data fs node_pairs) in *.
  apply all_matched_pairs_origin in H as (name & members & Hg & H).
  apply match_group_pair in H as (Ho & Hi & Hdo & Hdi & Hk).
  pose proof (sessions_by_pair_well_grouped sessions name members) as Hwf.
  pose proof (group_member_of_input sessions name members o Hg Ho) as Ho'.
  pose proof (group_member_of_input sessions name members i Hg Hi) as Hi'.
  apply load_origin in Ho' as (p1 & Hp1 & Hs1).
  apply load_origin in Hi' as (p2 & Hp2 & Hs2).
  apply load_pair_origin in Hs1 as (Hn1 & _ & _ & Hf1).
  apply load_pair_origin in Hs2 as (Hn2 & _ & _ & Hf2).
  assert (p1 = p2) as <-.
  { apply (NoDup_map_inj np_pair_name node_pairs); try assumption.
    rewrite <- Hn1, <- Hn2, (Hwf o Hg Ho), (Hwf i Hg Hi). reflexivity. }
  destruct Hf1 as [[_ (fo & Hfo & _ & _ & Hso)] | [Hd _]]; [| congruence].
  destruct Hf2 as [[Hd _] | [_ (fi & Hfi & _ & _ & Hsi)]]; [congruence |].
  exists p1, fo, fi. repeat split; assumption.
Qed.

Lemma loaded_pairs_match_within_node_pair_witness :
  let sessions := load_and_parse_data Samples.fs Samples.node_pairs in
  let p := List.hd (Samples.out_7_3, Samples.in_7_3)
             (fst (fst (match_session_pairs_for_all_nodes sessions))) in
  exists pair fo fi,
    pair ∈ Samples.node_pairs
    /\ np_outgoing_file pair = Some fo /\ np_incoming_file pair = Some fi
    /\ source_file (fst p) = Text.basename fo
    /\ source_file (snd p) = Text.basename fi.
Proof.
  destruct (loaded_pairs_match_within_node_pair Samples.fs Samples.node_pairs
              (fst (List.hd (Samples.out_7_3, Samples.in_7_3)
                      (fst (fst (match_session_pairs_for_all_nodes
                                   (load_and_parse_data Samples.fs
                                      Samples.node_pairs))))))
              (snd (List.hd (Samples.out_7_3, Samples.in_7_3)
                      (fst (fst (match_session_pairs_for_all_nodes
                                   (load_and_parse_data Samples.fs
                                      Samples.node_pairs)))))))
    as (pair & fo & fi & Hin & Hfo & Hfi & Hso & Hsi & _).
  - apply (bool_decide_unpack _). vm_compute. exact I.
  - apply list_elem_of_In. vm_compute. left. reflexivity.
  - exists pair, fo, fi. repeat split; assumption.
Defined.

(** ** Latency ranges *)

(** The label of a latency, by the interval its value in milliseconds
    falls in. *)
Lemma range_label_cases (x : Q) :
  let ms := (x / 1000)%Q in
  (ms < 10 /\ get_latency_range_label x = "0-10ms")%Q
  \/ (10 <= ms /\ ms < 100 /\ get_latency_range_label x = "10-100ms")%Q
  \/ (100 <= ms /\ ms < 500 /\ get_latency_range_label x = "100-500ms")%Q
  \/ (500 <= ms /\ ms < 1000 /\ get_latency_range_label x = "500-1000ms")%Q
  \/ (1000 <= ms /\ ms < 3000 /\ get_latency_range_label x = "1000-3000ms")%Q
  \/ (3000 <= ms /\ ms < 60000 /\ get_latency_range_label x = "3000-60000ms")%Q
  \/ (60000 <= ms /\ get_latency_range_label x = ">60000ms")%Q.
Proof.
  simpl. unfold get_latency_range_label.
  destruct (Py.gt 10 (x / 1000)) eqn:E1;
    [apply gt_true in E1; auto | apply gt_false in E1].
  destruct (Py.gt 100 (x / 1000)) eqn:E2;
    [apply gt_true in E2; auto | apply gt_false in E2].
  destruct (Py.gt 500 (x / 1000)) eqn:E3;
    [apply gt_true in E3; auto 10 | apply gt_false in E3].
  destruct (Py.gt 1000 (x / 1000)) eqn:E4;
    [apply gt_true in E4; auto 10 | apply gt_false in E4].
  destruct (Py.gt 3000 (x / 1000)) eqn:E5;
    [apply gt_true in E5; auto 10 | apply gt_false in E5].
  destruct (Py.gt 60000 (x / 1000)) eqn:E6;
    [apply gt_true in E6; auto 12 | apply gt_false in E6]. auto 12.
Qed.

(** One of the seven positions of [get_range_order], to be retried. *)
Ltac range_index :=
  (exists 0%nat) + (exists 1%nat) + (exists 2%nat) + (exists 3%nat)
  + (exists 4%nat) + (exists 5%nat) + (exists 6%nat).

(** X22.  Every latency gets one of the seven labels of
    [get_range_order], and a larger latency never gets an earlier label. *)
Theorem latency_range_label_ordered :
  (forall latency_us, get_latency_range_label latency_us ∈ get_range_order)
  /\ (forall a b : Q, (a <= b)%Q ->
        exists i j, get_range_order !! i = Some (get_latency_range_label a)
                    /\ get_range_order !! j = Some (get_latency_range_label b)
                    /\ (i <= j)%nat).
Proof.
  split.
  - intros x. unfold get_range_order.
    destruct (range_label_cases x) as [H | [H | [H | [H | [H | [H | H]]]]]];
      repeat match goal with H : _ /\ _ |- _ => destruct H as [_ H] end;
      rewrite H; set_solver.
  - intros a b Hab.
    assert (a / 1000 <= b / 1000)%Q as Hms
        by (apply Qmult_le_compat_r; [exact Hab | discriminate]).
    unfold get_range_order.
    destruct (range_label_cases a) as [Ha | [Ha | [Ha | [Ha | [Ha | [Ha | Ha]]]]]].
    all: destruct (range_label_cases b)
      as [Hb | [Hb | [Hb | [Hb | [Hb | [Hb | Hb]]]]]].
    all: simpl in Ha, Hb.
    all: try (exfalso; lra).
    all: repeat match goal with H : _ /\ _ |- _ => destruct H as [? H] end.
    all: rewrite Ha, Hb.
    all: solve [range_index; range_index;
                (split; [reflexivity | split; [reflexivity | lia]])].
Qed.
